(** * The per-iteration bounce loop of the CUDA path tracer (src/pathtrace.cu)

    A shallow embedding of [pathtrace.cu]: the kernels
    [generateRayFromCamera], [computeIntersections], [shadeMaterial],
    [setMaterialIds] and [finalGather], and the host loop [pathtrace] that
    chains them with [thrust::partition] (and, under [MATERIALS],
    [thrust::sort_by_key]).

    - [float] is kept abstract: a type [F] with the operations the source
      applies to it ([FloatOps]).  Theorems that need a law of the arithmetic
      state it as a hypothesis.  [Binary32] is the instance of IEEE single
      precision, with its infinities and its NaN.
    - [int] is [Z]; arithmetic that can leave the 32-bit range goes through
      [wrap32].
    - Device arrays are lists; a kernel launched over [num_paths] threads
      rewrites the first [num_paths] slots, one thread per slot.
    - Functions and types of the repository that live in headers outside
      [pathtrace.cu] ([sceneStructs.h], [intersections.h], [interactions.h],
      [utilities.h]) and the thrust random engine are the fields of
      [Externals].
    - [checkCUDAError] ends the process on a device error; the model is of
      the runs that have none.
    - The rest of the file comes after the pipeline: [pathtraceInit], the
      display kernel [sendImageToPBO], the shader [shadeFakeMaterial] that no
      launch uses, and what the switches [CACHEBOUNCE] and [DOF] compile in
      when they are set. *)

From Stdlib Require Import ZArith QArith Lia Sorted.
From Stdlib Require SpecFloat.
From stdpp Require Import base tactics option list.

Local Open Scope Z_scope.

(** ** Scalars and glm vectors *)

(** The operations [pathtrace.cu] uses on [float]. [fltb a b] is [a < b]
    and [fleb a b] is [a <= b]; the source's [a > b] is [fltb b a]. *)
Class FloatOps (F : Type) := {
  lit : Q → F;                (* a floating literal: 0.0f, 1.0f, 0.5f, -1.0f *)
  of_int : Z → F;             (* the cast (float)i *)
  FLT_MAX : F;
  fadd : F → F → F;
  fsub : F → F → F;
  fmul : F → F → F;
  fltb : F → F → bool;
  fleb : F → F → bool;
  inversesqrt : F → F
}.

Definition fgtb {F} `{FloatOps F} (a b : F) : bool := fltb b a.

Record vec3 (F : Type) := Vec3 { vx : F; vy : F; vz : F }.
Arguments Vec3 {F} _ _ _.
Arguments vx {F} _.
Arguments vy {F} _.
Arguments vz {F} _.

Record vec2 (F : Type) := Vec2 { v2x : F; v2y : F }.
Arguments Vec2 {F} _ _.
Arguments v2x {F} _.
Arguments v2y {F} _.

Record ivec2 := IVec2 { ix : Z; iy : Z }.

Section Glm.
Context {F : Type} `{FloatOps F}.

(* glm::vec3(s) *)
Definition vsplat (s : F) : vec3 F := Vec3 s s s.
(* vec3 + vec3, vec3 - vec3, vec3 * vec3 (component-wise), vec3 * float *)
Definition vadd (a b : vec3 F) : vec3 F :=
  Vec3 (fadd (vx a) (vx b)) (fadd (vy a) (vy b)) (fadd (vz a) (vz b)).
Definition vsub (a b : vec3 F) : vec3 F :=
  Vec3 (fsub (vx a) (vx b)) (fsub (vy a) (vy b)) (fsub (vz a) (vz b)).
Definition vmul (a b : vec3 F) : vec3 F :=
  Vec3 (fmul (vx a) (vx b)) (fmul (vy a) (vy b)) (fmul (vz a) (vz b)).
Definition vscale (a : vec3 F) (s : F) : vec3 F :=
  Vec3 (fmul (vx a) s) (fmul (vy a) s) (fmul (vz a) s).
Definition dot (a b : vec3 F) : F :=
  fadd (fadd (fmul (vx a) (vx b)) (fmul (vy a) (vy b))) (fmul (vz a) (vz b)).
(* glm::normalize(v) = v * inversesqrt(dot(v, v)) *)
Definition normalize (v : vec3 F) : vec3 F := vscale v (inversesqrt (dot v v)).

(* every channel >= 0 *)
Definition vnonneg (a : vec3 F) : bool :=
  fleb (lit 0) (vx a) && fleb (lit 0) (vy a) && fleb (lit 0) (vz a).

(* [a >= 0], or [a] is a NaN: of the IEEE values, [a <= a] fails for the NaN
   and for no other *)
Definition fnotneg (a : F) : bool := fleb (lit 0) a || negb (fleb a a).

(* no channel is negative: each is >= 0 or a NaN *)
Definition vnotneg (a : vec3 F) : bool :=
  fnotneg (vx a) && fnotneg (vy a) && fnotneg (vz a).
End Glm.

(** ** 32-bit [int] *)

Definition wrap32 (z : Z) : Z := (z + 2 ^ 31) mod 2 ^ 32 - 2 ^ 31.
Definition INT_MAX : Z := 2 ^ 31 - 1.
Definition INT_MIN : Z := - 2 ^ 31.
Definition int_range (z : Z) : Prop := INT_MIN <= z <= INT_MAX.

(** ** Scene structures

    Modelled from the spec: [sceneStructs.h] is not part of the sources; the
    records carry the fields [pathtrace.cu] reads and writes, those the spec
    lists (a transform per primitive, BSDF parameters per material) being an
    opaque payload. *)

Record Ray (F : Type) := mkRay {
  origin : vec3 F;
  direction : vec3 F;
  intersect : vec3 F      (* the cached intersection point *)
}.
Arguments mkRay {F} _ _ _.
Arguments origin {F} _.
Arguments direction {F} _.
Arguments intersect {F} _.

Record PathSegment (F : Type) := mkPathSegment {
  ray : Ray F;
  color : vec3 F;
  pixelIndex : Z;
  remainingBounces : Z
}.
Arguments mkPathSegment {F} _ _ _ _.
Arguments ray {F} _.
Arguments color {F} _.
Arguments pixelIndex {F} _.
Arguments remainingBounces {F} _.

Record ShadeableIntersection (F : Type) := mkShadeableIntersection {
  t : F;
  surfaceNormal : vec3 F;
  materialId : Z
}.
Arguments mkShadeableIntersection {F} _ _ _.
Arguments t {F} _.
Arguments surfaceNormal {F} _.
Arguments materialId {F} _.

Inductive GeomType := SPHERE | CUBE | TRIANGLE | BV.

Record Geom (Shape : Type) := mkGeom {
  type : GeomType;
  materialid : Z;
  shape : Shape           (* transform, vertices, ... *)
}.
Arguments mkGeom {Shape} _ _ _.
Arguments type {Shape} _.
Arguments materialid {Shape} _.
Arguments shape {Shape} _.

Record Material (F Bsdf : Type) := mkMaterial {
  mcolor : vec3 F;        (* Material::color *)
  emittance : F;
  bsdf : Bsdf             (* diffuse / specular / refractive weighting *)
}.
Arguments mkMaterial {F Bsdf} _ _ _.
Arguments mcolor {F Bsdf} _.
Arguments emittance {F Bsdf} _.
Arguments bsdf {F Bsdf} _.

Record Camera (F : Type) := mkCamera {
  resolution : ivec2;
  position : vec3 F;
  view : vec3 F;
  up : vec3 F;
  right : vec3 F;
  pixelLength : vec2 F
}.
Arguments mkCamera {F} _ _ _ _ _ _.
Arguments resolution {F} _.
Arguments position {F} _.
Arguments view {F} _.
Arguments up {F} _.
Arguments right {F} _.
Arguments pixelLength {F} _.

(** The by-reference outputs of an intersection test
    ([tmp_intersect], [tmp_normal], [outside]). *)
Record TestOut (F : Type) := mkTestOut {
  tmp_intersect : vec3 F;
  tmp_normal : vec3 F;
  outside : bool
}.
Arguments mkTestOut {F} _ _ _.
Arguments tmp_intersect {F} _.
Arguments tmp_normal {F} _.
Arguments outside {F} _.

(** What [computeIntersections] declares without an initialiser:
    [float t; glm::vec3 intersect_point, normal, tmp_intersect, tmp_normal]. *)
Record Uninit (F : Type) := mkUninit {
  u_t : F;
  u_intersect_point : vec3 F;
  u_normal : vec3 F;
  u_tmp_intersect : vec3 F;
  u_tmp_normal : vec3 F
}.
Arguments mkUninit {F} _ _ _ _ _.
Arguments u_t {F} _.
Arguments u_intersect_point {F} _.
Arguments u_normal {F} _.
Arguments u_tmp_intersect {F} _.
Arguments u_tmp_normal {F} _.

(** ** What [pathtrace.cu] calls but does not define *)

(** The two calls of [thrust::sort_by_key] in the [#if MATERIALS] block:
    the one that moves [dev_paths] and the one that moves
    [dev_intersections]. *)
Inductive SortCall := SortPaths | SortIntersections.

Class Externals (F : Type) := {
  Shape : Type;
  Bsdf : Type;
  (* thrust::default_random_engine, its constructor from a seed, and one
     draw of thrust::uniform_real_distribution<float>(a, b), which returns
     the sample and the advanced engine *)
  Engine : Type;
  default_random_engine : Z → Engine;
  uniform_real_distribution : F → F → Engine → F * Engine;
  (* utilities.h *)
  utilhash : Z → Z;
  (* intersections.h: a test returns the distance and writes its reference
     parameters *)
  boxIntersectionTest : Geom Shape → Ray F → TestOut F → F * TestOut F;
  sphereIntersectionTest : Geom Shape → Ray F → TestOut F → F * TestOut F;
  triangleIntersectionTest : Geom Shape → Ray F → TestOut F → F * TestOut F;
  boundingVolumeIntersectionTest : Geom Shape → Ray F → bool;
  (* interactions.h: scatterRay updates the path segment it is handed; the
     engine it advances is not used afterwards *)
  scatterRay : PathSegment F → vec3 F → vec3 F → Material F Bsdf → Engine →
               PathSegment F;
  (* the contents of the uninitialised locals of thread [path_index] of the
     computeIntersections launch at [depth] *)
  uninit_locals : Z → nat → Uninit F;
  (* thrust::sort_by_key does not fix the order it leaves values of equal
     keys in: [sort_tie call keys] is how the call [call], handed the keys
     [keys], settles it (see [insert_by_key]) *)
  sort_tie : SortCall → list Z → nat → nat → bool
}.

(** The compile-time switches of [pathtrace.cu] that the model keeps as
    parameters.  The source sets [MATERIALS 0] and [BOUNDINGVOLUME 1];
    [CACHEBOUNCE] and [DOF] are 0 in the pipeline below, and what they
    compile in when set is modelled on its own ([pathtrace_cached],
    [generateRay_segment_dof]). *)
Record Switches := mkSwitches {
  MATERIALS : bool;
  BOUNDINGVOLUME : bool
}.

Definition source_switches : Switches :=
  {| MATERIALS := false; BOUNDINGVOLUME := true |}.

(** ** Device arrays *)

(** [a[i]] for an [int] index: the slot when [i] is inside the array. *)
Definition zlookup {A} (l : list A) (i : Z) : option A :=
  if bool_decide (0 <= i) then l !! Z.to_nat i else None.

(** [a[i] = f(a[i])]: a write outside the array is undefined in C and is
    modelled as no write; [pathtrace_indices_in_range] shows the pipeline
    never does one. *)
Definition zalter {A} (f : A → A) (i : Z) (l : list A) : list A :=
  if bool_decide (0 <= i) then alter f (Z.to_nat i) l else l.

(** A 1D launch whose threads are guarded by [if (index < num_paths)]:
    thread [i] rewrites slot [i]. *)
Definition launch1d {A} (num_paths : Z) (body : nat → A → A) (buf : list A) : list A :=
  imap (λ i a, if bool_decide (Z.of_nat i < num_paths) then body i a else a) buf.

(** ** thrust algorithms

    [thrust::partition] and [thrust::sort_by_key] are library calls.
    [thrust::partition] is modelled by the stable algorithm, which is among
    the results the library allows.  [thrust::sort_by_key] sorts the keys
    and moves the values along; the library leaves open where a value ends
    among those of an equal key, and the model takes that choice as a
    parameter [tie]. *)

Definition thrust_partition {A} (pred : A → bool) (l : list A) : list A * Z :=
  let yes := filter (λ a, Is_true (pred a)) l in
  let no := filter (λ a, ¬ Is_true (pred a)) l in
  (yes ++ no, Z.of_nat (length yes)).

(** [(k, v)] goes before the first greater key; at an equal key that has
    [r] pairs after it, it goes before when [tie r] and moves on
    otherwise, so that it can end anywhere among the equal keys. *)
Fixpoint insert_by_key {A} (tie : nat → bool) (k : Z) (v : A) (l : list (Z * A))
    : list (Z * A) :=
  match l with
  | [] => [(k, v)]
  | (k', v') :: l' =>
      if bool_decide (k < k') || (bool_decide (k = k') && tie (length l'))
      then (k, v) :: l else (k', v') :: insert_by_key tie k v l'
  end.

(** Sorts [keys] and moves [vals] along.  The pairs are inserted from the
    last to the first; [tie m] settles the equal keys for the pair inserted
    among [m] others.  Any order of the values of an equal key is the
    result for some [tie] ([sort_by_key_reaches]); with [tie] constantly
    [true] they stay in their order (the stable sort). *)
Definition sort_by_key {A} (tie : nat → nat → bool) (keys : list Z) (vals : list A)
    : list Z * list A :=
  let sorted :=
    foldr (λ kv acc, insert_by_key (tie (length acc)) kv.1 kv.2 acc) [] (zip keys vals) in
  (sorted.*1, sorted.*2).

Section Kernels.
Context {F : Type} `{FloatOps F} `{Externals F}.

(** The part of [hst_scene] the kernels are handed. *)
Record Scene := mkScene {
  camera : Camera F;
  traceDepth : Z;
  geoms : list (Geom Shape);
  triangles : list (Geom Shape);
  (* dev_materials, read at any index the intersections name *)
  materials : Z → Material F Bsdf
}.

(** struct has_no_bounces: true for a path that still has bounces *)
Definition has_no_bounces (path : PathSegment F) : bool :=
  bool_decide (remainingBounces path > 0).

Definition alive (p : PathSegment F) : Prop := Is_true (has_no_bounces p).

(** The word [(1 << 31) | (depth << 22) | iter] that carries the iteration
    and the depth into the seed. *)
Definition seed_key (iter depth : Z) : Z :=
  Z.lor (Z.lor (wrap32 (Z.shiftl 1 31)) (wrap32 (Z.shiftl depth 22))) iter.

Definition makeSeededRandomEngine (iter index depth : Z) : Engine :=
  let h := wrap32 (Z.lxor (utilhash (seed_key iter depth)) (utilhash index)) in
  default_random_engine h.

(** *** generateRayFromCamera *)

(** The two jitter offsets thread (x, y) draws, from the engine
    [makeSeededRandomEngine(iter, x, y)]: [x] is passed for [index] and [y]
    for [depth]. *)
Definition jitter (iter x y : Z) : F * F :=
  let rng := makeSeededRandomEngine iter x y in
  let '(xOffset, rng1) := uniform_real_distribution (lit (-1 # 2)) (lit (1 # 2)) rng in
  let '(yOffset, _) := uniform_real_distribution (lit (-1 # 2)) (lit (1 # 2)) rng1 in
  (xOffset, yOffset).

Definition camera_direction (cam : Camera F) (x y : Z) (xOffset yOffset : F) : vec3 F :=
  normalize
    (vsub
       (vsub (view cam)
             (vscale (vscale (right cam) (v2x (pixelLength cam)))
                     (fsub (fadd (of_int x) xOffset)
                           (fmul (of_int (ix (resolution cam))) (lit (1 # 2))))))
       (vscale (vscale (up cam) (v2y (pixelLength cam)))
               (fsub (fadd (of_int y) yOffset)
                     (fmul (of_int (iy (resolution cam))) (lit (1 # 2)))))).

(** The writes of thread (x, y) to its segment; [ray.intersect] is not
    written. *)
Definition generateRay_segment (cam : Camera F) (iter traceDepth x y index : Z)
    (segment : PathSegment F) : PathSegment F :=
  let '(xOffset, yOffset) := jitter iter x y in
  {| ray := {| origin := position cam;
               direction := camera_direction cam x y xOffset yOffset;
               intersect := intersect (ray segment) |};
     color := Vec3 (lit 1) (lit 1) (lit 1);
     pixelIndex := index;
     remainingBounces := traceDepth |}.

Definition pixel_slot (cam : Camera F) (x y : Z) : Z :=
  wrap32 (x + wrap32 (y * ix (resolution cam))).

Definition generateRay_thread (cam : Camera F) (iter traceDepth : Z)
    (pathSegments : list (PathSegment F)) (xy : Z * Z) : list (PathSegment F) :=
  let '(x, y) := xy in
  if bool_decide (x < ix (resolution cam)) && bool_decide (y < iy (resolution cam)) then
    let index := pixel_slot cam x y in
    zalter (generateRay_segment cam iter traceDepth x y index) index pathSegments
  else pathSegments.

(** The launch, its threads run in the order [threads]. *)
Definition generateRayFromCamera_on (threads : list (Z * Z)) (cam : Camera F)
    (iter traceDepth : Z) (pathSegments : list (PathSegment F)) : list (PathSegment F) :=
  foldl (generateRay_thread cam iter traceDepth) pathSegments threads.

(** blockSize2d = (8, 8), blocksPerGrid2d = ((res.x + 7) / 8, (res.y + 7) / 8) *)
Definition grid2d (cam : Camera F) : list (Z * Z) :=
  let gx := 8 * ((ix (resolution cam) + 8 - 1) / 8) in
  let gy := 8 * ((iy (resolution cam) + 8 - 1) / 8) in
  y ← seqZ 0 gy; x ← seqZ 0 gx; [(x, y)].

Definition generateRayFromCamera (cam : Camera F) (iter traceDepth : Z)
    (pathSegments : list (PathSegment F)) : list (PathSegment F) :=
  generateRayFromCamera_on (grid2d cam) cam iter traceDepth pathSegments.

(** *** setMaterialIds *)
Definition setMaterialIds (num_paths : Z) (pathIds isectIds : list Z)
    (intersections : list (ShadeableIntersection F)) : list Z * list Z :=
  let write := λ i (old : Z),
    match intersections !! i with
    | Some isect => materialId isect
    | None => old
    end in
  (launch1d num_paths write pathIds, launch1d num_paths write isectIds).

(** *** computeIntersections *)

(** The locals of one thread, with the slot
    [pathSegments[path_index].ray.intersect] it writes through. *)
Record IsectLocals := mkIsectLocals {
  l_t : F;
  l_out : TestOut F;
  l_t_min : F;
  l_hit_geom_index : Z;
  l_hitmesh : bool;
  l_intersect_point : vec3 F;
  l_normal : vec3 F;
  l_seg_intersect : vec3 F
}.

Definition isect_init (u : Uninit F) (seg : PathSegment F) : IsectLocals :=
  {| l_t := u_t u;
     l_out := {| tmp_intersect := u_tmp_intersect u;
                 tmp_normal := u_tmp_normal u;
                 outside := true |};
     l_t_min := FLT_MAX;
     l_hit_geom_index := -1;
     l_hitmesh := false;
     l_intersect_point := u_intersect_point u;
     l_normal := u_normal u;
     l_seg_intersect := intersect (ray seg) |}.

(** [t = test(...)]: the call assigns [t] and the reference parameters. *)
Definition assign_test (st : IsectLocals) (r : F * TestOut F) : IsectLocals :=
  {| l_t := r.1; l_out := r.2;
     l_t_min := l_t_min st; l_hit_geom_index := l_hit_geom_index st;
     l_hitmesh := l_hitmesh st; l_intersect_point := l_intersect_point st;
     l_normal := l_normal st; l_seg_intersect := l_seg_intersect st |}.

(** The body of either [if (t > 0.0f && t_min > t ...)]: record the hit at
    index [i]; [mesh] is the value [hitmesh] has afterwards. *)
Definition record_hit (st : IsectLocals) (i : Z) (mesh : bool) : IsectLocals :=
  {| l_t := l_t st; l_out := l_out st;
     l_t_min := l_t st;
     l_hit_geom_index := i;
     l_hitmesh := mesh;
     l_intersect_point := tmp_intersect (l_out st);
     l_normal := tmp_normal (l_out st);
     l_seg_intersect := tmp_intersect (l_out st) |}.

Definition closer (st : IsectLocals) : bool :=
  fgtb (l_t st) (lit 0) && fgtb (l_t_min st) (l_t st).

(** One turn of [for (int p = 0; p < triangles_size; p++)]. *)
Definition triangle_step (r : Ray F) (st : IsectLocals) (pg : nat * Geom Shape) : IsectLocals :=
  let st1 := assign_test st (triangleIntersectionTest pg.2 r (l_out st)) in
  if closer st1 then record_hit st1 (Z.of_nat pg.1) true else st1.

Definition triangle_scan (r : Ray F) (triangles : list (Geom Shape)) (st : IsectLocals) : IsectLocals :=
  foldl (triangle_step r) st (imap pair triangles).

(** One turn of [for (int i = 0; i < geoms_size; i++)]. *)
Definition geom_step (sw : Switches) (r : Ray F) (triangles : list (Geom Shape))
    (st : IsectLocals) (ig : nat * Geom Shape) : IsectLocals :=
  let geom := ig.2 in
  let st1 :=
    match type geom with
    | CUBE => assign_test st (boxIntersectionTest geom r (l_out st))
    | SPHERE => assign_test st (sphereIntersectionTest geom r (l_out st))
    | BV =>
        if BOUNDINGVOLUME sw then
          if boundingVolumeIntersectionTest geom r
          then triangle_scan r triangles st else st
        else triangle_scan r triangles st
    | TRIANGLE => st
    end in
  if closer st1 && negb (l_hitmesh st1) then record_hit st1 (Z.of_nat ig.1) (l_hitmesh st1)
  else st1.

Definition geom_scan (sw : Switches) (r : Ray F) (geoms triangles : list (Geom Shape))
    (st : IsectLocals) : IsectLocals :=
  foldl (geom_step sw r triangles) st (imap pair geoms).

(** The record the thread leaves in [intersections[path_index]].  The
    index read from [geoms] or [triangles] is inside the collection
    ([geom_scan_owned]), so the [default] is never taken. *)
Definition write_intersection (geoms triangles : list (Geom Shape)) (st : IsectLocals)
    (old : ShadeableIntersection F) : ShadeableIntersection F :=
  if bool_decide (l_hit_geom_index st = -1) then
    {| t := lit (-1); surfaceNormal := surfaceNormal old; materialId := materialId old |}
  else
    {| t := l_t_min st;
       surfaceNormal := l_normal st;
       materialId :=
         default (materialId old)
           (materialid <$> zlookup (if l_hitmesh st then triangles else geoms)
                                   (l_hit_geom_index st)) |}.

Definition computeIntersections_thread (sw : Switches) (geoms triangles : list (Geom Shape))
    (u : Uninit F) (seg : PathSegment F) : IsectLocals :=
  geom_scan sw (ray seg) geoms triangles (isect_init u seg).

Definition set_intersect (seg : PathSegment F) (p : vec3 F) : PathSegment F :=
  {| ray := {| origin := origin (ray seg); direction := direction (ray seg); intersect := p |};
     color := color seg; pixelIndex := pixelIndex seg;
     remainingBounces := remainingBounces seg |}.

Definition computeIntersections (sw : Switches) (depth num_paths : Z)
    (pathSegments : list (PathSegment F)) (geoms triangles : list (Geom Shape))
    (intersections : list (ShadeableIntersection F))
    : list (PathSegment F) * list (ShadeableIntersection F) :=
  let run := λ i seg, computeIntersections_thread sw geoms triangles (uninit_locals depth i) seg in
  (launch1d num_paths (λ i seg, set_intersect seg (l_seg_intersect (run i seg))) pathSegments,
   launch1d num_paths
     (λ i old, match pathSegments !! i with
               | Some seg => write_intersection geoms triangles (run i seg) old
               | None => old
               end) intersections).

(** *** shadeMaterial *)

Definition set_color_bounces (seg : PathSegment F) (c : vec3 F) (n : Z) : PathSegment F :=
  {| ray := ray seg; color := c; pixelIndex := pixelIndex seg; remainingBounces := n |}.

Definition shadeMaterial_thread (iter depth : Z) (materials : Z → Material F Bsdf)
    (idx : nat) (intersection : ShadeableIntersection F) (seg : PathSegment F)
    : PathSegment F :=
  if fgtb (t intersection) (lit 0) && bool_decide (remainingBounces seg > 0) then
    let rng := makeSeededRandomEngine iter (Z.of_nat idx) depth in
    let material := materials (materialId intersection) in
    let materialColor := mcolor material in
    if fgtb (emittance material) (lit 0) then
      set_color_bounces seg (vmul (color seg) (vscale materialColor (emittance material))) 0
    else
      let seg' := scatterRay seg (intersect (ray seg)) (surfaceNormal intersection)
                             material rng in
      set_color_bounces seg' (color seg') (wrap32 (remainingBounces seg' - 1))
  else if bool_decide (remainingBounces seg > 0) then
    set_color_bounces seg (vsplat (lit 0)) 0
  else seg.

Definition shadeMaterial (iter num_paths : Z)
    (shadeableIntersections : list (ShadeableIntersection F))
    (pathSegments : list (PathSegment F)) (materials : Z → Material F Bsdf) (depth : Z)
    : list (PathSegment F) :=
  launch1d num_paths
    (λ idx seg, match shadeableIntersections !! idx with
                | Some intersection => shadeMaterial_thread iter depth materials idx intersection seg
                | None => seg
                end) pathSegments.

(** *** finalGather *)

(** [image[iterationPath.pixelIndex] += iterationPath.color], the threads
    taken in index order. *)
Definition finalGather_thread (image : list (vec3 F)) (iterationPath : PathSegment F)
    : list (vec3 F) :=
  zalter (λ px, vadd px (color iterationPath)) (pixelIndex iterationPath) image.

Definition finalGather (nPaths : Z) (image : list (vec3 F))
    (iterationPaths : list (PathSegment F)) : list (vec3 F) :=
  foldl finalGather_thread image (take (Z.to_nat nPaths) iterationPaths).

(** *** The host side *)

(** The static device buffers of [pathtrace.cu]. *)
Record Device := mkDevice {
  dev_image : list (vec3 F);
  dev_paths : list (PathSegment F);
  dev_intersections : list (ShadeableIntersection F);
  dev_isect_ids : list Z;
  dev_ps_ids : list Z
}.

(** The variables of the while loop of [pathtrace]. *)
Record Loop := mkLoop {
  mem : Device;
  num_paths : Z;
  depth : Z
}.

Definition pixelcount (scene : Scene) : Z :=
  wrap32 (ix (resolution (camera scene)) * iy (resolution (camera scene))).

(** What [pathtraceInit] sizes the buffers to. *)
Definition device_sized (scene : Scene) (d : Device) : Prop :=
  let n := Z.to_nat (pixelcount scene) in
  length (dev_image d) = n ∧ length (dev_paths d) = n ∧
  length (dev_intersections d) = n ∧
  length (dev_isect_ids d) = n ∧ length (dev_ps_ids d) = n.

(** An all-zero [ShadeableIntersection], as [cudaMemset(.., 0, ..)] leaves it. *)
Definition zero_intersection : ShadeableIntersection F :=
  {| t := lit 0; surfaceNormal := vsplat (lit 0); materialId := 0 |}.

Definition memset_intersections (count : Z) (buf : list (ShadeableIntersection F))
    : list (ShadeableIntersection F) :=
  launch1d count (λ _ _, zero_intersection) buf.

(** [thrust::sort_by_key(keys, keys + n, vals)], the call [call] *)
Definition sort_prefix_by_key {A} (call : SortCall) (n : nat) (keys : list Z) (vals : list A)
    : list Z * list A :=
  let r := sort_by_key (sort_tie call (take n keys)) (take n keys) (take n vals) in
  (r.1 ++ drop n keys, r.2 ++ drop n vals).

(** [dev_path_end = thrust::partition(dev_paths, dev_paths + n, has_no_bounces());
     num_paths = dev_path_end - dev_paths] *)
Definition compact (n : nat) (paths : list (PathSegment F)) : list (PathSegment F) * Z :=
  let r := thrust_partition has_no_bounces (take n paths) in
  (r.1 ++ drop n paths, r.2).

(** The [#if MATERIALS] block. *)
Definition material_sort (num_paths : Z) (d : Device) : Device :=
  let ids := setMaterialIds num_paths (dev_ps_ids d) (dev_isect_ids d) (dev_intersections d) in
  let n := Z.to_nat num_paths in
  let sp := sort_prefix_by_key SortPaths n ids.1 (dev_paths d) in
  let si := sort_prefix_by_key SortIntersections n ids.2 (dev_intersections d) in
  {| dev_image := dev_image d;
     dev_paths := sp.2;
     dev_intersections := si.2;
     dev_isect_ids := si.1;
     dev_ps_ids := sp.1 |}.

Definition trace_stage (sw : Switches) (scene : Scene) (st : Loop) : Device :=
  let d := mem st in
  let cleared := memset_intersections (pixelcount scene) (dev_intersections d) in
  let r := computeIntersections sw (depth st) (num_paths st) (dev_paths d)
             (geoms scene) (triangles scene) cleared in
  {| dev_image := dev_image d; dev_paths := r.1; dev_intersections := r.2;
     dev_isect_ids := dev_isect_ids d; dev_ps_ids := dev_ps_ids d |}.

Definition sort_stage (sw : Switches) (num_paths : Z) (d : Device) : Device :=
  if MATERIALS sw then material_sort num_paths d else d.

Definition shade_stage (scene : Scene) (iter num_paths depth : Z) (d : Device) : Device :=
  {| dev_image := dev_image d;
     dev_paths := shadeMaterial iter num_paths (dev_intersections d) (dev_paths d)
                    (materials scene) depth;
     dev_intersections := dev_intersections d;
     dev_isect_ids := dev_isect_ids d; dev_ps_ids := dev_ps_ids d |}.

(** One turn of the while loop, up to the test that ends it. *)
Definition bounce (sw : Switches) (scene : Scene) (iter : Z) (st : Loop) : Loop :=
  let d1 := trace_stage sw scene st in
  let depth1 := wrap32 (depth st + 1) in
  let d2 := sort_stage sw (num_paths st) d1 in
  let d3 := shade_stage scene iter (num_paths st) depth1 d2 in
  let c := compact (Z.to_nat (num_paths st)) (dev_paths d3) in
  {| mem := {| dev_image := dev_image d3; dev_paths := c.1;
               dev_intersections := dev_intersections d3;
               dev_isect_ids := dev_isect_ids d3; dev_ps_ids := dev_ps_ids d3 |};
     num_paths := c.2;
     depth := depth1 |}.

(** [if (depth == traceDepth || num_paths == 0)] *)
Definition iterationComplete (scene : Scene) (st : Loop) : bool :=
  bool_decide (depth st = traceDepth scene) || bool_decide (num_paths st = 0).

(** The body of that [if]: [num_paths = pixelcount]. *)
Definition complete (scene : Scene) (st : Loop) : Loop :=
  {| mem := mem st; num_paths := pixelcount scene; depth := depth st |}.

(** [while (!iterationComplete) { ... }]; [None] when the fuel runs out. *)
Fixpoint bounce_loop (sw : Switches) (scene : Scene) (iter : Z) (fuel : nat) (st : Loop)
    : option Loop :=
  match fuel with
  | O => None
  | S fuel' =>
      let st' := bounce sw scene iter st in
      if iterationComplete scene st' then Some (complete scene st')
      else bounce_loop sw scene iter fuel' st'
  end.

(** The state the loop is entered with: the camera rays in [dev_paths],
    [num_paths = pixelcount], [depth = 0]. *)
Definition loop_entry (scene : Scene) (iter : Z) (d : Device) : Loop :=
  {| mem := {| dev_image := dev_image d;
               dev_paths := generateRayFromCamera (camera scene) iter (traceDepth scene)
                              (dev_paths d);
               dev_intersections := dev_intersections d;
               dev_isect_ids := dev_isect_ids d; dev_ps_ids := dev_ps_ids d |};
     num_paths := pixelcount scene;
     depth := 0 |}.

Definition gather (st : Loop) : Device :=
  let d := mem st in
  {| dev_image := finalGather (num_paths st) (dev_image d) (dev_paths d);
     dev_paths := dev_paths d; dev_intersections := dev_intersections d;
     dev_isect_ids := dev_isect_ids d; dev_ps_ids := dev_ps_ids d |}.

(** [pathtrace(pbo, frame, iter)] on the device buffers; the display
    buffer [pbo] and the copy of the image back to the host are left out. *)
Definition pathtrace (sw : Switches) (scene : Scene) (iter : Z) (fuel : nat) (d : Device)
    : option Device :=
  gather <$> bounce_loop sw scene iter fuel (loop_entry scene iter d).

(** The loop variables after [k] turns, the exit test left aside. *)
Definition after_bounces (sw : Switches) (scene : Scene) (iter : Z) (k : nat) (st : Loop)
    : Loop :=
  Nat.iter k (bounce sw scene iter) st.

(** The launch of [shadeMaterial] in the turn entered at [st] runs a thread
    for each of the first [num_paths] slots of the array as the intersection
    and sort stages leave it: whether the path of pixel [p] is in one. *)
Definition shaded (sw : Switches) (scene : Scene) (st : Loop) (p : Z) : bool :=
  bool_decide
    (p ∈ pixelIndex <$>
           take (Z.to_nat (num_paths st))
                (dev_paths (sort_stage sw (num_paths st) (trace_stage sw scene st)))).

(** How many of the first [k] launches of [shadeMaterial] ran a thread for
    the path of pixel [p]. *)
Definition shader_applications (sw : Switches) (scene : Scene) (iter : Z) (k : nat)
    (st : Loop) (p : Z) : nat :=
  length (filter (λ j, Is_true (shaded sw scene (after_bounces sw scene iter j st) p))
                 (seq 0 k)).

End Kernels.

(** ** A small instance

    Integer arithmetic in the place of [float], and stand-ins for the
    external functions: a primitive is hit at the distance its [shape]
    gives, whatever the ray, and the sort keeps the values of an equal key
    in their order.  The examples below run the model on it. *)

Definition ZFloat : FloatOps Z :=
  {| lit := λ q, Qnum q / Z.pos (Qden q);
     of_int := λ z, z;
     FLT_MAX := 1000000;
     fadd := Z.add; fsub := Z.sub; fmul := Z.mul;
     fltb := Z.ltb; fleb := Z.leb;
     inversesqrt := λ _, 1 |}.

Definition toy_test (g : Geom Z) (r : Ray Z) (out : TestOut Z) : Z * TestOut Z :=
  (shape g,
   if bool_decide (0 < shape g)
   then {| tmp_intersect := Vec3 (shape g) 0 0; tmp_normal := Vec3 0 1 0; outside := true |}
   else out).

(** [weight rng] is the factor the sampling outcome puts on the material
    colour. *)
Definition toy_scatter (weight : Z → Z) (seg : PathSegment Z) (isect normal : vec3 Z)
    (m : Material Z unit) (rng : Z) : PathSegment Z :=
  {| ray := {| origin := isect; direction := normal; intersect := intersect (ray seg) |};
     color := @vscale Z ZFloat (@vmul Z ZFloat (color seg) (mcolor m)) (weight rng);
     pixelIndex := pixelIndex seg;
     remainingBounces := remainingBounces seg |}.

Definition toy_externals (weight : Z → Z) (u_t0 : Z) : Externals Z :=
  {| Shape := Z; Bsdf := unit; Engine := Z;
     default_random_engine := λ h, h;
     uniform_real_distribution := λ a b e, (a, e + 1);
     utilhash := λ a, a;
     boxIntersectionTest := toy_test;
     sphereIntersectionTest := toy_test;
     triangleIntersectionTest := toy_test;
     boundingVolumeIntersectionTest := λ g r, bool_decide (0 < shape g);
     scatterRay := toy_scatter weight;
     uninit_locals := λ _ _,
       {| u_t := u_t0; u_intersect_point := Vec3 0 0 0; u_normal := Vec3 0 0 0;
          u_tmp_intersect := Vec3 0 0 0; u_tmp_normal := Vec3 0 0 0 |};
     sort_tie := λ _ _ _ _, true |}.

(** The stand-ins with a scatter weight of 1 and a zero in the
    uninitialised [t]. *)
Definition toy : Externals Z := toy_externals (λ _, 1) 0.

Definition toy_camera (w h : Z) : Camera Z :=
  {| resolution := IVec2 w h;
     position := Vec3 0 0 0; view := Vec3 0 0 1; up := Vec3 0 1 0; right := Vec3 1 0 0;
     pixelLength := Vec2 1 1 |}.

(** Material 0 is a light of emittance 5, material 1 is grey, any other
    is black. *)
Definition toy_materials (id : Z) : Material Z unit :=
  if bool_decide (id = 0) then {| mcolor := Vec3 1 1 1; emittance := 5; bsdf := () |}
  else if bool_decide (id = 1) then {| mcolor := Vec3 2 2 2; emittance := 0; bsdf := () |}
  else {| mcolor := Vec3 0 0 0; emittance := 0; bsdf := () |}.

Definition toy_segment (px rb : Z) : PathSegment Z :=
  {| ray := {| origin := Vec3 0 0 0; direction := Vec3 0 0 1; intersect := Vec3 0 0 0 |};
     color := Vec3 1 1 1; pixelIndex := px; remainingBounces := rb |}.

Definition toy_device (n : nat) : @Device Z :=
  {| dev_image := replicate n (Vec3 0 0 0);
     dev_paths := replicate n (toy_segment 0 0);
     dev_intersections := replicate n (mkShadeableIntersection 0 (Vec3 0 0 0) 0);
     dev_isect_ids := replicate n 0;
     dev_ps_ids := replicate n 0 |}.

(** A 2 x 1 image of a grey sphere at distance 3. *)
Definition toy_scene (depth : Z) : @Scene Z toy :=
  @mkScene Z toy (toy_camera 2 1) depth [mkGeom SPHERE 1 3] [] toy_materials.

(** A second set of stand-ins, with aimed primitives: the [shape] of a
    primitive is a pair (dx, dist), and the primitive is hit, at distance
    [dist], by the rays whose direction has x component [dx].  The scatter
    weight is 1 or 2, by the parity of the engine. *)
Definition aimed_test (g : Geom (Z * Z)) (r : Ray Z) (out : TestOut Z) : Z * TestOut Z :=
  if bool_decide (vx (direction r) = (shape g).1)
  then ((shape g).2,
        {| tmp_intersect := Vec3 (shape g).2 0 0; tmp_normal := Vec3 0 1 0;
           outside := true |})
  else (-1, out).

Definition aimed : Externals Z :=
  {| Shape := (Z * Z)%type; Bsdf := unit; Engine := Z;
     default_random_engine := λ h, h;
     uniform_real_distribution := λ a b e, (a, e + 1);
     utilhash := λ a, a;
     boxIntersectionTest := aimed_test;
     sphereIntersectionTest := aimed_test;
     triangleIntersectionTest := aimed_test;
     boundingVolumeIntersectionTest := λ g r, bool_decide (vx (direction r) = (shape g).1);
     scatterRay := toy_scatter (λ rng, 1 + rng `mod` 2);
     uninit_locals := λ _ _,
       {| u_t := 0; u_intersect_point := Vec3 0 0 0; u_normal := Vec3 0 0 0;
          u_tmp_intersect := Vec3 0 0 0; u_tmp_normal := Vec3 0 0 0 |};
     sort_tie := λ _ _ _ _, true |}.

(** A 2 x 1 image of two grey spheres: the ray of pixel 0 (x direction 1)
    hits the one of material 2, the ray of pixel 1 (x direction 0) the one
    of material 1. *)
Definition aimed_materials (id : Z) : Material Z unit :=
  if bool_decide (id = 0) then {| mcolor := Vec3 1 1 1; emittance := 5; bsdf := () |}
  else {| mcolor := Vec3 2 2 2; emittance := 0; bsdf := () |}.

Definition aimed_scene : @Scene Z aimed :=
  @mkScene Z aimed (toy_camera 2 1) 1
    [mkGeom SPHERE 2 (1, 3); mkGeom SPHERE 1 (0, 3)] [] aimed_materials.

Definition sort_on : Switches := {| MATERIALS := true; BOUNDINGVOLUME := true |}.

(** The aimed stand-ins with two sorts that settle equal keys in opposite
    ways: the call on the paths keeps the values of an equal key in their
    order, the call on the intersections puts them in the opposite order. *)
Definition aimed_untied : Externals Z :=
  {| Shape := (Z * Z)%type; Bsdf := unit; Engine := Z;
     default_random_engine := λ h, h;
     uniform_real_distribution := λ a b e, (a, e + 1);
     utilhash := λ a, a;
     boxIntersectionTest := aimed_test;
     sphereIntersectionTest := aimed_test;
     triangleIntersectionTest := aimed_test;
     boundingVolumeIntersectionTest := λ g r, bool_decide (vx (direction r) = (shape g).1);
     scatterRay := toy_scatter (λ rng, 1 + rng `mod` 2);
     uninit_locals := λ _ _,
       {| u_t := 0; u_intersect_point := Vec3 0 0 0; u_normal := Vec3 0 0 0;
          u_tmp_intersect := Vec3 0 0 0; u_tmp_normal := Vec3 0 0 0 |};
     sort_tie := λ call _ _ _,
       match call with SortPaths => true | SortIntersections => false end |}.

(** A 2 x 1 image of one light, of material 0: the ray of pixel 0 hits it,
    the ray of pixel 1 misses, and its intersection keeps the [materialId]
    0 of the cleared buffer. *)
Definition light_and_miss_scene : @Scene Z aimed_untied :=
  @mkScene Z aimed_untied (toy_camera 2 1) 1 [mkGeom SPHERE 0 (1, 3)] [] aimed_materials.

(** ** IEEE single precision

    [float] as [SpecFloat] of the Standard Library specifies it, with 24
    bits of mantissa and the infinities at exponent 128: signed zeros,
    infinities, one NaN, rounding to nearest even, overflow to infinity. *)

Definition binary32 : Type := SpecFloat.spec_float.

(** The cast of an integer, rounded to nearest. *)
Definition b32_of_Z (z : Z) : binary32 := SpecFloat.binary_normalize 24 128 z 0 false.

(** A literal is the rounded quotient of its numerator and denominator,
    which is exact for the literals of the source (0, 1, 0.5, -1).
    [glm::inversesqrt] is taken as the rounded [1 / sqrt x]. *)
Definition Binary32 : FloatOps binary32 :=
  {| lit := λ q, SpecFloat.SFdiv 24 128 (b32_of_Z (Qnum q)) (b32_of_Z (Z.pos (Qden q)));
     of_int := b32_of_Z;
     FLT_MAX := SpecFloat.SFmax_float 24 128;
     fadd := SpecFloat.SFadd 24 128;
     fsub := SpecFloat.SFsub 24 128;
     fmul := SpecFloat.SFmul 24 128;
     fltb := SpecFloat.SFltb;
     fleb := SpecFloat.SFleb;
     inversesqrt := λ x,
       SpecFloat.SFdiv 24 128 (SpecFloat.SFone 24 128) (SpecFloat.SFsqrt 24 128 x) |}.

(** Stand-ins for the external functions over [binary32]: the [shape] of a
    primitive is a pair (from, dist), and the primitive is hit, at distance
    [dist] and at the point (dist, 0, 0), by the rays that start at
    x = [from].  [scatterRay] starts the new ray at the hit point and
    multiplies the throughput by the material's colour.  The sort keeps the
    values of an equal key in their order. *)
Definition b32_test (g : Geom (binary32 * binary32)) (r : Ray binary32)
    (out : TestOut binary32) : binary32 * TestOut binary32 :=
  if SpecFloat.SFeqb (vx (origin r)) (shape g).1
  then ((shape g).2,
        {| tmp_intersect := Vec3 (shape g).2 (b32_of_Z 0) (b32_of_Z 0);
           tmp_normal := Vec3 (b32_of_Z 0) (b32_of_Z 1) (b32_of_Z 0);
           outside := true |})
  else (b32_of_Z (-1), out).

Definition b32_scatter (seg : PathSegment binary32) (isect normal : vec3 binary32)
    (m : Material binary32 unit) (rng : Z) : PathSegment binary32 :=
  {| ray := {| origin := isect; direction := normal; intersect := intersect (ray seg) |};
     color := @vmul binary32 Binary32 (color seg) (mcolor m);
     pixelIndex := pixelIndex seg;
     remainingBounces := remainingBounces seg |}.

Definition b32_externals : Externals binary32 :=
  {| Shape := (binary32 * binary32)%type; Bsdf := unit; Engine := Z;
     default_random_engine := λ h, h;
     uniform_real_distribution := λ a b e, (a, e + 1);
     utilhash := λ a, a;
     boxIntersectionTest := b32_test;
     sphereIntersectionTest := b32_test;
     triangleIntersectionTest := b32_test;
     boundingVolumeIntersectionTest := λ g r,
       SpecFloat.SFeqb (vx (origin r)) (shape g).1;
     scatterRay := b32_scatter;
     uninit_locals := λ _ _,
       {| u_t := b32_of_Z 0;
          u_intersect_point := Vec3 (b32_of_Z 0) (b32_of_Z 0) (b32_of_Z 0);
          u_normal := Vec3 (b32_of_Z 0) (b32_of_Z 0) (b32_of_Z 0);
          u_tmp_intersect := Vec3 (b32_of_Z 0) (b32_of_Z 0) (b32_of_Z 0);
          u_tmp_normal := Vec3 (b32_of_Z 0) (b32_of_Z 0) (b32_of_Z 0) |};
     sort_tie := λ _ _ _ _, true |}.

(** Material 0 is a light of colour (2, 2, 2) and emittance [FLT_MAX],
    material 1 is red, any other is black: every channel and every
    emittance is finite and [>= 0]. *)
Definition b32_materials (id : Z) : Material binary32 unit :=
  if bool_decide (id = 0) then
    {| mcolor := Vec3 (b32_of_Z 2) (b32_of_Z 2) (b32_of_Z 2);
       emittance := SpecFloat.SFmax_float 24 128; bsdf := () |}
  else if bool_decide (id = 1) then
    {| mcolor := Vec3 (b32_of_Z 1) (b32_of_Z 0) (b32_of_Z 0);
       emittance := b32_of_Z 0; bsdf := () |}
  else {| mcolor := Vec3 (b32_of_Z 0) (b32_of_Z 0) (b32_of_Z 0);
          emittance := b32_of_Z 0; bsdf := () |}.

(** One pixel, trace depth 2: the camera ray, from x = 0, hits the red
    sphere at (3, 0, 0); the scattered ray, from x = 3, hits the light. *)
Definition b32_scene : @Scene binary32 b32_externals :=
  @mkScene binary32 b32_externals
    {| resolution := IVec2 1 1;
       position := Vec3 (b32_of_Z 0) (b32_of_Z 0) (b32_of_Z 0);
       view := Vec3 (b32_of_Z 0) (b32_of_Z 0) (b32_of_Z 1);
       up := Vec3 (b32_of_Z 0) (b32_of_Z 1) (b32_of_Z 0);
       right := Vec3 (b32_of_Z 1) (b32_of_Z 0) (b32_of_Z 0);
       pixelLength := Vec2 (b32_of_Z 1) (b32_of_Z 1) |}
    2
    [mkGeom SPHERE 1 (b32_of_Z 0, b32_of_Z 3); mkGeom SPHERE 0 (b32_of_Z 3, b32_of_Z 3)]
    [] b32_materials.

Definition b32_device : @Device binary32 :=
  {| dev_image := [Vec3 (b32_of_Z 0) (b32_of_Z 0) (b32_of_Z 0)];
     dev_paths :=
       [{| ray := {| origin := Vec3 (b32_of_Z 0) (b32_of_Z 0) (b32_of_Z 0);
                     direction := Vec3 (b32_of_Z 0) (b32_of_Z 0) (b32_of_Z 1);
                     intersect := Vec3 (b32_of_Z 0) (b32_of_Z 0) (b32_of_Z 0) |};
           color := Vec3 (b32_of_Z 0) (b32_of_Z 0) (b32_of_Z 0);
           pixelIndex := 0; remainingBounces := 0 |}];
     dev_intersections :=
       [mkShadeableIntersection (b32_of_Z 0)
          (Vec3 (b32_of_Z 0) (b32_of_Z 0) (b32_of_Z 0)) 0];
     dev_isect_ids := [0];
     dev_ps_ids := [0] |}.

(** ** Laws and contracts the theorems name

    The laws of the arithmetic hold for IEEE [float]: for the comparisons,
    and for the product with its overflow to infinity and its NaN. *)

Section Contracts.
Context {F : Type} `{FloatOps F} `{Externals F}.


(** [<] is transitive. *)
Definition flt_transitive : Prop :=
  ∀ a b c : F, fltb a b = true → fltb b c = true → fltb a c = true.

(** [0 <= 0], [0 <= 1], and a product of two values that are not negative
    is not negative.  The product of two values [>= 0] need not be [>= 0]:
    it is a NaN when one is zero and the other infinite. *)
Definition fmul_keeps_notneg : Prop :=
  fleb (lit 0) (lit 0) = true ∧ fleb (lit 0) (lit 1) = true ∧
  ∀ a b : F, fnotneg a = true → fnotneg b = true → fnotneg (fmul a b) = true.

(** Modelled from the spec: [scatterRay] is defined in [interactions.h],
    which is not part of the sources.  The spec has the scatter step give
    the ray a new origin and direction and attenuate the throughput; the
    decrement of [remainingBounces] is the shader's. *)
Definition scatterRay_keeps_bounces : Prop :=
  ∀ seg i n m rng,
    remainingBounces (scatterRay seg i n m rng) = remainingBounces seg.

(** Modelled from the spec: [scatterRay] ([interactions.h], not part of
    the sources) writes the ray and the throughput only; [pixelIndex] is the
    identity of the path. *)
Definition scatterRay_keeps_pixelIndex : Prop :=
  ∀ seg i n m rng, pixelIndex (scatterRay seg i n m rng) = pixelIndex seg.

(** Modelled from the spec: [scatterRay] ([interactions.h], not part of
    the sources) attenuates the throughput by the material's colour weighted
    by the sampling outcome; for a colour that is not negative, a throughput
    that is not negative stays so. *)
Definition scatterRay_keeps_notneg : Prop :=
  ∀ seg i n m rng,
    vnotneg (mcolor m) = true → vnotneg (color seg) = true →
    vnotneg (color (scatterRay seg i n m rng)) = true.

(** [thrust::uniform_real_distribution<float>(a, b)] draws from [a, b). *)
Definition uniform_real_half_open : Prop :=
  ∀ (a b : F) (e : Engine),
    fltb a b = true →
    fleb a (uniform_real_distribution a b e).1 = true ∧
    fltb (uniform_real_distribution a b e).1 b = true.

(** A resolution of at least one pixel whose pixel count is an [int]: the
    launches of [pathtrace] have at least one block. *)
Definition camera_ok (cam : Camera F) : Prop :=
  0 < ix (resolution cam) ∧ 0 < iy (resolution cam) ∧
  ix (resolution cam) * iy (resolution cam) <= INT_MAX.

(** The fields of a segment that [generateRayFromCamera] writes. *)
Definition written_by_generator (seg : PathSegment F) : vec3 F * vec3 F * vec3 F * Z * Z :=
  (origin (ray seg), direction (ray seg), color seg, pixelIndex seg, remainingBounces seg).

(** How a stage may change the array of paths: slot by slot, as [R] allows,
    and by moving paths to other slots. *)
Definition paths_evolve (R : PathSegment F → PathSegment F → Prop)
    (paths paths' : list (PathSegment F)) : Prop :=
  ∃ l, Forall2 R paths l ∧ l ≡ₚ paths'.

Definition same_pixel (p p' : PathSegment F) : Prop :=
  pixelIndex p' = pixelIndex p.

(** The invariant of a path: the pixel stays, the bounces do not grow, a
    throughput with no negative channel stays so. *)
Definition path_step (p p' : PathSegment F) : Prop :=
  pixelIndex p' = pixelIndex p ∧
  remainingBounces p' <= remainingBounces p ∧
  (vnotneg (color p) = true → vnotneg (color p') = true).

(** The loop entered at [st] ends in its [K]-th turn. *)
Definition ends_after (sw : Switches) (scene : Scene) (iter : Z) (st : Loop) (K : nat)
    : Prop :=
  (1 ≤ K)%nat ∧
  iterationComplete scene (after_bounces sw scene iter K st) = true ∧
  ∀ j, (1 ≤ j < K)%nat → iterationComplete scene (after_bounces sw scene iter j st) = false.

(** The loop variables are consistent with the buffers. *)
Definition loop_ok (scene : Scene) (st : Loop) : Prop :=
  device_sized scene (mem st) ∧ 0 <= num_paths st <= pixelcount scene.

(** [<] is irreflexive. *)
Definition flt_irreflexive : Prop := ∀ a : F, fltb a a = false.

(** The distance [a] is [b] or nearer. *)
Definition not_farther (a b : F) : Prop := a = b ∨ fltb a b = true.

(** What the uninitialised [t] holds would not pass for a hit:
    [t > 0.0f && t_min > t] fails on it with [t_min = FLT_MAX]. *)
Definition uninit_harmless (u : Uninit F) : Prop :=
  fgtb (u_t u) (lit 0) && fgtb FLT_MAX (u_t u) = false.

(** The test after the branches of the loop over the primitives,
    [t > 0.0f && t_min > t && !hitmesh], fails. *)
Definition settled (st : @IsectLocals F) : Prop :=
  closer st && negb (l_hitmesh st) = false.

(** The nearest-hit rule in the spec's words: an analytic primitive is
    tested and becomes the recorded hit when its distance is positive and
    nearer, unless the recorded hit is a triangle; a bounding-volume node
    whose test passes has every triangle tested, a triangle becoming the
    recorded hit when its distance is positive and nearer. *)
Definition nearest_hit_step (sw : Switches) (r : Ray F) (triangles : list (Geom Shape))
    (st : IsectLocals) (ig : nat * Geom Shape) : IsectLocals :=
  let geom := ig.2 in
  let analytic := λ st1,
    if closer st1 && negb (l_hitmesh st1)
    then record_hit st1 (Z.of_nat ig.1) (l_hitmesh st1) else st1 in
  match type geom with
  | CUBE => analytic (assign_test st (boxIntersectionTest geom r (l_out st)))
  | SPHERE => analytic (assign_test st (sphereIntersectionTest geom r (l_out st)))
  | BV =>
      if BOUNDINGVOLUME sw then
        if boundingVolumeIntersectionTest geom r
        then triangle_scan r triangles st else st
      else triangle_scan r triangles st
  | TRIANGLE => st
  end.

Definition nearest_hit_scan (sw : Switches) (r : Ray F) (geoms triangles : list (Geom Shape))
    (st : IsectLocals) : IsectLocals :=
  foldl (nearest_hit_step sw r triangles) st (imap pair geoms).

(** No test of the ray [r] against a primitive of the scene yields a
    positive distance. *)
Definition all_miss (r : Ray F) (geoms triangles : list (Geom Shape)) : Prop :=
  (∀ g out, g ∈ geoms →
     fgtb (boxIntersectionTest g r out).1 (lit 0) = false ∧
     fgtb (sphereIntersectionTest g r out).1 (lit 0) = false) ∧
  (∀ g out, g ∈ triangles →
     fgtb (triangleIntersectionTest g r out).1 (lit 0) = false).

(** The recorded hit names a primitive of the collection [hitmesh]
    selects, or none. *)
Definition hit_owned (geoms triangles : list (Geom Shape)) (st : @IsectLocals F) : Prop :=
  (l_hit_geom_index st = -1 ∧ l_hitmesh st = false) ∨
  (0 <= l_hit_geom_index st ∧
   l_hit_geom_index st
   < Z.of_nat (length (if l_hitmesh st then triangles else geoms))).

(** The two [thrust::sort_by_key] calls of the [#if MATERIALS] block settle
    the equal keys among [keys] in the same way.  The library does not
    promise it. *)
Definition sort_ties_agree (keys : list Z) : Prop :=
  ∀ m r, sort_tie SortPaths keys m r = sort_tie SortIntersections keys m r.

(** Material colour channels and emittance are [>= 0]. *)
Definition materials_nonneg (materials : Z → Material F Bsdf) : Prop :=
  ∀ id, vnonneg (mcolor (materials id)) = true ∧
        fleb (lit 0) (emittance (materials id)) = true.

End Contracts.

(** ** The rest of [pathtrace.cu]

    [pathtraceInit], the display kernel [sendImageToPBO], and what
    [CACHEBOUNCE] compiles into [pathtrace] when it is set. *)

(** What [sendImageToPBO] needs besides [FloatOps]: in
    [(int) (pix.x / iter * 255.0)] the quotient is a [float], the product
    with the [double] literal is a [double], and the cast truncates it. *)
Class DisplayOps (F : Type) := {
  Double : Type;
  fdiv : F → F → F;
  to_double : F → Double;
  dlit : Q → Double;
  dmul : Double → Double → Double;
  double_to_int : Double → Z
}.

(** [uchar4]: four [unsigned char]. *)
Record uchar4 := mkUchar4 { c_x : Z; c_y : Z; c_z : Z; c_w : Z }.

(** The conversion of an [int] to [unsigned char]. *)
Definition to_uchar (z : Z) : Z := z mod 256.

(** [glm::clamp(x, minVal, maxVal) = min(max(x, minVal), maxVal)] *)
Definition clamp (x minVal maxVal : Z) : Z := Z.min (Z.max x minVal) maxVal.

(** [cudaMemcpy(dst, src, count * sizeof(T), cudaMemcpyDeviceToDevice)]:
    the first [count] slots of [dst] get those of [src]. *)
Definition cudaMemcpy {A} (count : Z) (dst src : list A) : list A :=
  launch1d count (λ i old, default old (src !! i)) dst.

Section Host.
Context {F : Type} `{FloatOps F} `{Externals F}.

(** The static buffers of [pathtrace.cu], [dev_first_paths] included. *)
Record Buffers := mkBuffers {
  device : @Device F;
  dev_first_paths : list (PathSegment F)
}.

(** What the memory [cudaMalloc] hands out holds, slot by slot. *)
Record Fresh := mkFresh {
  fresh_paths : nat → PathSegment F;
  fresh_first_paths : nat → PathSegment F;
  fresh_isect_ids : nat → Z;
  fresh_ps_ids : nat → Z
}.

(** [pathtraceInit(scene)].  The image and the intersections are zeroed by
    [cudaMemset]; the two arrays of paths are left as allocated; the id
    buffers are allocated under [MATERIALS] only, and are null pointers,
    with no slot, otherwise.  The copies of the geometry, the triangles and
    the materials are the fields of [scene] the kernels read. *)
Definition pathtraceInit (sw : Switches) (scene : Scene) (fresh : Fresh) : Buffers :=
  let n := Z.to_nat (pixelcount scene) in
  {| device :=
       {| dev_image := replicate n (vsplat (lit 0));
          dev_paths := fresh_paths fresh <$> seq 0 n;
          dev_intersections := replicate n zero_intersection;
          dev_isect_ids := if MATERIALS sw then fresh_isect_ids fresh <$> seq 0 n else [];
          dev_ps_ids := if MATERIALS sw then fresh_ps_ids fresh <$> seq 0 n else [] |};
     dev_first_paths := fresh_first_paths fresh <$> seq 0 n |}.

(** The device with other id buffers. *)
Definition with_ids (isect_ids ps_ids : list Z) (d : @Device F) : @Device F :=
  {| dev_image := dev_image d; dev_paths := dev_paths d;
     dev_intersections := dev_intersections d;
     dev_isect_ids := isect_ids; dev_ps_ids := ps_ids |}.

(** The buffers have the sizes [pathtraceInit] gives them under [sw]. *)
Definition buffers_ready (sw : Switches) (scene : Scene) (d : @Device F) : Prop :=
  let n := Z.to_nat (pixelcount scene) in
  length (dev_image d) = n ∧ length (dev_paths d) = n ∧
  length (dev_intersections d) = n ∧
  (MATERIALS sw = true → length (dev_isect_ids d) = n ∧ length (dev_ps_ids d) = n).

(** Calls [pathtrace(pbo, frame, iter)] one after the other, for the
    iterations [iters]. *)
Definition pathtrace_calls (sw : Switches) (scene : Scene) (fuel : nat) (iters : list Z)
    (d : Device) : option Device :=
  foldl (λ acc iter, acc ≫= pathtrace sw scene iter fuel) (Some d) iters.

(** *** sendImageToPBO *)

Context `{DisplayOps F}.

(** [glm::clamp((int) (c / iter * 255.0), 0, 255)] *)
Definition display_channel (iter : Z) (c : F) : Z :=
  clamp (double_to_int (dmul (to_double (fdiv c (of_int iter))) (dlit 255))) 0 255.

(** What a thread leaves in [pbo[index]] for the pixel value [pix]. *)
Definition display_pixel (iter : Z) (pix : vec3 F) : uchar4 :=
  {| c_x := to_uchar (display_channel iter (vx pix));
     c_y := to_uchar (display_channel iter (vy pix));
     c_z := to_uchar (display_channel iter (vz pix));
     c_w := to_uchar 0 |}.

(** Thread (x, y); a read outside [image] is modelled as no write. *)
Definition sendImageToPBO_thread (resolution : ivec2) (iter : Z) (image : list (vec3 F))
    (pbo : list uchar4) (xy : Z * Z) : list uchar4 :=
  let '(x, y) := xy in
  if bool_decide (x < ix resolution) && bool_decide (y < iy resolution) then
    let index := wrap32 (x + wrap32 (y * ix resolution)) in
    zalter (λ old, match zlookup image index with
                   | Some pix => display_pixel iter pix
                   | None => old
                   end) index pbo
  else pbo.

(** The launch, its threads run in the order [threads]. *)
Definition sendImageToPBO_on (threads : list (Z * Z)) (resolution : ivec2) (iter : Z)
    (image : list (vec3 F)) (pbo : list uchar4) : list uchar4 :=
  foldl (sendImageToPBO_thread resolution iter image) pbo threads.

(** [sendImageToPBO<<<blocksPerGrid2d, blockSize2d>>>(pbo, cam.resolution,
    iter, dev_image)] *)
Definition sendImageToPBO (cam : Camera F) (iter : Z) (image : list (vec3 F))
    (pbo : list uchar4) : list uchar4 :=
  sendImageToPBO_on (grid2d cam) (resolution cam) iter image pbo.

(** [pathtrace(pbo, frame, iter)] with the display buffer; the copy of the
    image back to the host is left out. *)
Definition pathtrace_display (sw : Switches) (scene : Scene) (iter : Z) (fuel : nat)
    (d : Device) (pbo : list uchar4) : option (Device * list uchar4) :=
  (λ d', (d', sendImageToPBO (camera scene) iter (dev_image d') pbo))
    <$> pathtrace sw scene iter fuel d.

End Host.

(** ** [pathtrace] with [CACHEBOUNCE] set

    The source sets [CACHEBOUNCE 0]; this is what its [#if CACHEBOUNCE]
    branches compile in otherwise.  The first iteration generates the camera
    rays into [dev_first_paths] and intersects them there; every iteration
    copies [dev_first_paths] to [dev_paths] in the turn of the loop entered
    with [depth == 0], which ends in [continue]. *)

Section CacheBounce.
Context {F : Type} `{FloatOps F} `{Externals F}.

Definition set_paths (d : @Device F) (paths : list (PathSegment F)) : @Device F :=
  {| dev_image := dev_image d; dev_paths := paths;
     dev_intersections := dev_intersections d;
     dev_isect_ids := dev_isect_ids d; dev_ps_ids := dev_ps_ids d |}.

Definition set_intersections (d : @Device F)
    (intersections : list (ShadeableIntersection F)) : @Device F :=
  {| dev_image := dev_image d; dev_paths := dev_paths d;
     dev_intersections := intersections;
     dev_isect_ids := dev_isect_ids d; dev_ps_ids := dev_ps_ids d |}.

(** The block before the loop: [if (iter == 1) { generate and intersect
    into dev_first_paths } else { cudaMemcpy(dev_paths, dev_first_paths) }],
    with [num_paths = pixelcount] and [depth = 0]. *)
Definition cache_first_bounce (sw : Switches) (scene : Scene) (iter : Z) (b : Buffers)
    : Buffers :=
  let d := device b in
  if bool_decide (iter = 1) then
    let generated := generateRayFromCamera (camera scene) iter (traceDepth scene)
                       (dev_first_paths b) in
    let r := computeIntersections sw 0 (pixelcount scene) generated
               (geoms scene) (triangles scene) (dev_intersections d) in
    {| device := set_intersections d r.2; dev_first_paths := r.1 |}
  else
    {| device := set_paths d (cudaMemcpy (pixelcount scene) (dev_paths d) (dev_first_paths b));
       dev_first_paths := dev_first_paths b |}.

(** The turn of the loop entered with [depth == 0]: after the
    [cudaMemset], copy the cache, [depth++], [continue]. *)
Definition use_cache (scene : Scene) (first : list (PathSegment F)) (st : Loop) : Loop :=
  let d := mem st in
  let cleared := memset_intersections (pixelcount scene) (dev_intersections d) in
  {| mem := set_paths (set_intersections d cleared)
              (cudaMemcpy (pixelcount scene) (dev_paths d) first);
     num_paths := num_paths st;
     depth := wrap32 (depth st + 1) |}.

(** Any other turn: the [cudaMemset] at the head of the loop, then the
    turn of the loop without the cache, which starts with the second
    [cudaMemset]. *)
Definition cached_bounce (sw : Switches) (scene : Scene) (iter : Z) (st : Loop) : Loop :=
  let d := mem st in
  let cleared := memset_intersections (pixelcount scene) (dev_intersections d) in
  bounce sw scene iter
    {| mem := set_intersections d cleared; num_paths := num_paths st; depth := depth st |}.

(** [while (!iterationComplete) { ... }] with the cache; [continue] goes
    back to the test of the loop, which [iterationComplete] still fails. *)
Fixpoint cached_loop (sw : Switches) (scene : Scene) (iter : Z)
    (first : list (PathSegment F)) (fuel : nat) (st : Loop) : option Loop :=
  match fuel with
  | O => None
  | S fuel' =>
      if bool_decide (depth st = 0) then
        cached_loop sw scene iter first fuel' (use_cache scene first st)
      else
        let st' := cached_bounce sw scene iter st in
        if iterationComplete scene st' then Some (complete scene st')
        else cached_loop sw scene iter first fuel' st'
  end.

(** [pathtrace(pbo, frame, iter)] on the device buffers, with the cache. *)
Definition pathtrace_cached (sw : Switches) (scene : Scene) (iter : Z) (fuel : nat)
    (b : Buffers) : option Buffers :=
  let b1 := cache_first_bounce sw scene iter b in
  let entry := {| mem := device b1; num_paths := pixelcount scene; depth := 0 |} in
  (λ st, {| device := gather st; dev_first_paths := dev_first_paths b1 |})
    <$> cached_loop sw scene iter (dev_first_paths b1) fuel entry.

(** The state the first shading turn of the cached loop is entered
    with. *)
Definition cached_entry (sw : Switches) (scene : Scene) (iter : Z) (b : Buffers) : Loop :=
  let b1 := cache_first_bounce sw scene iter b in
  use_cache scene (dev_first_paths b1)
    {| mem := device b1; num_paths := pixelcount scene; depth := 0 |}.

End CacheBounce.

(** ** The shader that no launch uses, and the lens of [DOF] *)

(** What the [#if DOF] block of [generateRayFromCamera] needs besides
    [FloatOps]: [cosf], [sinf], and the constant [TWO_PI] of [utilities.h]. *)
Class LensOps (F : Type) := {
  cosf : F → F;
  sinf : F → F;
  TWO_PI : F
}.

Section OtherKernels.
Context {F : Type} `{FloatOps F} `{Externals F}.

(** float * vec3 *)
Definition vscale_l (s : F) (a : vec3 F) : vec3 F :=
  Vec3 (fmul s (vx a)) (fmul s (vy a)) (fmul s (vz a)).

(** *** shadeFakeMaterial *)

Definition shadeFakeMaterial_thread (iter : Z) (materials : Z → Material F Bsdf)
    (idx : nat) (intersection : ShadeableIntersection F) (seg : PathSegment F)
    : PathSegment F :=
  if fgtb (t intersection) (lit 0) then
    let rng := makeSeededRandomEngine iter (Z.of_nat idx) 0 in
    let material := materials (materialId intersection) in
    let materialColor := mcolor material in
    if fgtb (emittance material) (lit 0) then
      set_color_bounces seg (vmul (color seg) (vscale materialColor (emittance material)))
        (remainingBounces seg)
    else
      let lightTerm := dot (surfaceNormal intersection) (Vec3 (lit 0) (lit 1) (lit 0)) in
      let shade :=
        vadd (vscale (vscale materialColor lightTerm) (lit (3 # 10)))
             (vscale (vscale_l (fsub (lit 1) (fmul (t intersection) (lit (2 # 100))))
                               materialColor)
                     (lit (7 # 10))) in
      let noise := (uniform_real_distribution (lit 0) (lit 1) rng).1 in
      set_color_bounces seg (vscale (vmul (color seg) shade) noise) (remainingBounces seg)
  else set_color_bounces seg (vsplat (lit 0)) (remainingBounces seg).

Definition shadeFakeMaterial (iter num_paths : Z)
    (shadeableIntersections : list (ShadeableIntersection F))
    (pathSegments : list (PathSegment F)) (materials : Z → Material F Bsdf)
    : list (PathSegment F) :=
  launch1d num_paths
    (λ idx seg, match shadeableIntersections !! idx with
                | Some intersection => shadeFakeMaterial_thread iter materials idx intersection seg
                | None => seg
                end) pathSegments.

(** *** generateRayFromCamera with [DOF] set *)

Context `{LensOps F}.

(** The writes of thread (x, y) when the [#if DOF] block is compiled in:
    after the two offsets of the pixel, two more draws from the same engine
    place a point on the lens. *)
Definition generateRay_segment_dof (cam : Camera F) (iter traceDepth x y index : Z)
    (segment : PathSegment F) : PathSegment F :=
  let rng := makeSeededRandomEngine iter x y in
  let '(xOffset, rng1) := uniform_real_distribution (lit (-1 # 2)) (lit (1 # 2)) rng in
  let '(yOffset, rng2) := uniform_real_distribution (lit (-1 # 2)) (lit (1 # 2)) rng1 in
  let direction0 := camera_direction cam x y xOffset yOffset in
  let lensRadius := lit 1 in
  let focalLength := lit 8 in
  let ray1 :=
    if fgtb lensRadius (lit 0) then
      let '(r, rng3) := uniform_real_distribution (lit (-1)) (lit 1) rng2 in
      let '(theta, _) := uniform_real_distribution (lit 0) TWO_PI rng3 in
      let lensU := fmul (fmul lensRadius r) (cosf theta) in
      let lensV := fmul (fmul lensRadius r) (sinf theta) in
      let pfocus := vadd (vscale direction0 focalLength) (position cam) in
      let origin1 := vadd (position cam)
                          (vadd (vscale (right cam) lensU) (vscale (up cam) lensV)) in
      {| origin := origin1; direction := normalize (vsub pfocus origin1);
         intersect := intersect (ray segment) |}
    else
      {| origin := position cam; direction := direction0;
         intersect := intersect (ray segment) |} in
  {| ray := ray1;
     color := Vec3 (lit 1) (lit 1) (lit 1);
     pixelIndex := index;
     remainingBounces := traceDepth |}.

Definition generateRay_thread_dof (cam : Camera F) (iter traceDepth : Z)
    (pathSegments : list (PathSegment F)) (xy : Z * Z) : list (PathSegment F) :=
  let '(x, y) := xy in
  if bool_decide (x < ix (resolution cam)) && bool_decide (y < iy (resolution cam)) then
    let index := pixel_slot cam x y in
    zalter (generateRay_segment_dof cam iter traceDepth x y index) index pathSegments
  else pathSegments.

Definition generateRayFromCamera_dof_on (threads : list (Z * Z)) (cam : Camera F)
    (iter traceDepth : Z) (pathSegments : list (PathSegment F)) : list (PathSegment F) :=
  foldl (generateRay_thread_dof cam iter traceDepth) pathSegments threads.

End OtherKernels.

(** The lens arithmetic of the small instance. *)
Definition ZLens : LensOps Z := {| cosf := λ _, 1; sinf := λ _, 0; TWO_PI := 6 |}.

(** The display arithmetic of the small instance: integers for [double]
    too, and the quotient that rounds down. *)
Definition ZDisplay : DisplayOps Z :=
  {| Double := Z; fdiv := Z.div; to_double := λ z, z;
     dlit := λ q, Qnum q / Z.pos (Qden q);
     dmul := Z.mul; double_to_int := λ z, z |}.

(** Allocated memory that holds something: stale paths of pixel 9 with 5
    bounces, and sevens in the id buffers. *)
Definition toy_fresh : @Fresh Z :=
  {| fresh_paths := λ _, toy_segment 9 5;
     fresh_first_paths := λ _, toy_segment 9 5;
     fresh_isect_ids := λ _, 7;
     fresh_ps_ids := λ _, 7 |}.

(** Buffers of [n] slots with stale paths in the cache. *)
Definition toy_buffers (n : nat) : @Buffers Z :=
  {| device := toy_device n; dev_first_paths := replicate n (toy_segment 9 5) |}.

(** A 2 x 1 image of nothing: a triangle at distance 5, and no node in
    [geoms] to reach it through. *)
Definition toy_empty_scene : @Scene Z toy :=
  @mkScene Z toy (toy_camera 2 1) 1 [] [mkGeom TRIANGLE 1 5] toy_materials.

(** * Properties *)

(** ** 32-bit arithmetic and device arrays *)

Lemma wrap32_id z : int_range z → wrap32 z = z.
Proof.
  unfold int_range, INT_MIN, INT_MAX, wrap32. intros Hz.
  rewrite Z.mod_small; lia.
Qed.

Lemma wrap32_range z : int_range (wrap32 z).
Proof.
  unfold int_range, INT_MIN, INT_MAX, wrap32.
  pose proof (Z.mod_pos_bound (z + 2 ^ 31) (2 ^ 32)). lia.
Qed.

Lemma wrap32_le_nonneg z : 0 <= z → wrap32 z <= z.
Proof.
  intros Hz. destruct (decide (z <= INT_MAX)) as [Hle|Hgt].
  - rewrite wrap32_id; [lia | unfold int_range, INT_MIN; lia].
  - pose proof (wrap32_range z) as [_ Hr]. lia.
Qed.

Lemma length_launch1d {A} n (body : nat → A → A) buf :
  length (launch1d n body buf) = length buf.
Proof. apply length_imap. Qed.

Lemma lookup_launch1d {A} n (body : nat → A → A) buf i :
  launch1d n body buf !! i =
  (λ a, if bool_decide (Z.of_nat i < n) then body i a else a) <$> buf !! i.
Proof. unfold launch1d. by rewrite list_lookup_imap. Qed.

Lemma lookup_launch1d_in {A} n (body : nat → A → A) buf i a :
  buf !! i = Some a → Z.of_nat i < n → launch1d n body buf !! i = Some (body i a).
Proof.
  intros Hi Hn. rewrite lookup_launch1d, Hi. simpl.
  by rewrite bool_decide_eq_true_2.
Qed.

Lemma lookup_launch1d_out {A} n (body : nat → A → A) buf i :
  n <= Z.of_nat i → launch1d n body buf !! i = buf !! i.
Proof.
  intros Hn. rewrite lookup_launch1d.
  rewrite bool_decide_eq_false_2 by lia. by destruct (buf !! i).
Qed.

(** A launch leaves the slots from [num_paths] on as they are. *)
Lemma drop_launch1d {A} n (body : nat → A → A) buf :
  0 <= n → drop (Z.to_nat n) (launch1d n body buf) = drop (Z.to_nat n) buf.
Proof.
  intros Hn. apply list_eq. intros i.
  rewrite !lookup_drop. apply lookup_launch1d_out. lia.
Qed.

(** A field the threads do not change is the same over the whole array. *)
Lemma fmap_launch1d {A B} (f : A → B) n (body : nat → A → A) buf :
  (∀ i a, f (body i a) = f a) → f <$> launch1d n body buf = f <$> buf.
Proof.
  intros Hf. apply list_eq. intros i.
  rewrite !list_lookup_fmap, lookup_launch1d.
  destruct (buf !! i) as [a|]; simpl; [|done].
  case_bool_decide; by rewrite ?Hf.
Qed.

(** ** thrust::partition and thrust::sort_by_key *)

Lemma thrust_partition_perm {A} (pred : A → bool) l :
  (thrust_partition pred l).1 ≡ₚ l.
Proof. unfold thrust_partition. simpl. apply filter_app_complement. Qed.

Lemma thrust_partition_count {A} (pred : A → bool) l :
  (thrust_partition pred l).2 = Z.of_nat (length (filter (λ a, Is_true (pred a)) l)).
Proof. reflexivity. Qed.

Lemma thrust_partition_front {A} (pred : A → bool) l :
  let r := thrust_partition pred l in
  take (Z.to_nat r.2) r.1 = filter (λ a, Is_true (pred a)) l ∧
  drop (Z.to_nat r.2) r.1 = filter (λ a, ¬ Is_true (pred a)) l.
Proof.
  unfold thrust_partition. simpl. rewrite Nat2Z.id.
  split; [by rewrite take_app_length | by rewrite drop_app_length].
Qed.

(** The facts on [sort_by_key] hold however it settles equal keys. *)
Lemma insert_by_key_perm {A} tie k (v : A) l : insert_by_key tie k v l ≡ₚ (k, v) :: l.
Proof.
  induction l as [|[k' v'] l IH]; simpl; [done|].
  destruct (_ || _); [done|].
  rewrite IH. apply Permutation_swap.
Qed.

Lemma sort_by_key_pairs_perm {A} tie (l : list (Z * A)) :
  foldr (λ kv acc, insert_by_key (tie (length acc)) kv.1 kv.2 acc) [] l ≡ₚ l.
Proof.
  induction l as [|[k v] l IH]; simpl; [done|].
  by rewrite insert_by_key_perm, IH.
Qed.

Lemma sort_by_key_perm {A} tie keys (vals : list A) :
  length keys = length vals →
  (sort_by_key tie keys vals).1 ≡ₚ keys ∧ (sort_by_key tie keys vals).2 ≡ₚ vals.
Proof.
  intros Hlen. unfold sort_by_key. simpl.
  rewrite !sort_by_key_pairs_perm.
  rewrite fst_zip, snd_zip by lia. done.
Qed.

Lemma sort_by_key_length {A} tie keys (vals : list A) :
  length keys = length vals →
  length (sort_by_key tie keys vals).1 = length keys ∧
  length (sort_by_key tie keys vals).2 = length vals.
Proof.
  intros Hlen. destruct (sort_by_key_perm tie keys vals Hlen) as [H1 H2].
  split; by apply Permutation_length.
Qed.

Lemma insert_by_key_sorted {A} tie k (v : A) (l : list (Z * A)) :
  StronglySorted Z.le l.*1 → StronglySorted Z.le (insert_by_key tie k v l).*1.
Proof.
  induction l as [|[k' v'] l IH]; intros Hs.
  { cbn. repeat constructor. }
  cbn [insert_by_key]. rewrite fmap_cons in Hs.
  apply StronglySorted_inv in Hs as [Hs Hall]. cbn [fst] in Hall.
  destruct (bool_decide (k < k') || (bool_decide (k = k') && tie (length l))) eqn:Hk.
  - assert (Hle : k <= k').
    { apply orb_prop in Hk as [Hk|Hk].
      - apply bool_decide_eq_true_1 in Hk. lia.
      - apply andb_prop in Hk as [Hk _]. apply bool_decide_eq_true_1 in Hk. lia. }
    rewrite !fmap_cons. cbn [fst]. constructor; [by constructor|].
    constructor; [done|]. eapply Forall_impl; [exact Hall|]. cbn. lia.
  - apply orb_false_elim in Hk as [Hk _]. apply bool_decide_eq_false_1 in Hk.
    rewrite fmap_cons. cbn [fst]. constructor; [by apply IH|].
    rewrite insert_by_key_perm, fmap_cons. cbn [fst].
    constructor; [lia|done].
Qed.

Lemma sort_by_key_sorted {A} tie keys (vals : list A) :
  StronglySorted Z.le (sort_by_key tie keys vals).1.
Proof.
  unfold sort_by_key. cbn [fst]. induction (zip keys vals) as [|[k v] l IH].
  - constructor.
  - cbn [foldr fst snd]. by apply insert_by_key_sorted.
Qed.

(** Keys have one ascending order. *)
Lemma sorted_perm_eq (l1 l2 : list Z) :
  StronglySorted Z.le l1 → StronglySorted Z.le l2 → l1 ≡ₚ l2 → l1 = l2.
Proof.
  revert l2. induction l1 as [|a l1 IH]; intros l2 H1 H2 Hp.
  { by apply Permutation_nil in Hp. }
  destruct l2 as [|b l2]; [by apply Permutation_nil_r in Hp|].
  apply StronglySorted_inv in H1 as [H1 Ha].
  apply StronglySorted_inv in H2 as [H2 Hb].
  rewrite Forall_forall in Ha, Hb.
  assert (Hab : a = b).
  { assert (Ha2 : a ∈ b :: l2) by (rewrite <- Hp; left).
    assert (Hb1 : b ∈ a :: l1) by (rewrite Hp; left).
    apply elem_of_cons in Ha2 as [?|Ha2]; [done|].
    apply elem_of_cons in Hb1 as [?|Hb1]; [done|].
    specialize (Ha _ Hb1). specialize (Hb _ Ha2). lia. }
  subst b. f_equal. apply IH; [done..|]. by apply Permutation_cons_inv in Hp.
Qed.

(** The sorted keys depend neither on the values sorted along nor on how
    equal keys are settled. *)
Lemma sort_by_key_keys {A B} tie tie' keys (a : list A) (b : list B) :
  length keys = length a → length a = length b →
  (sort_by_key tie keys a).1 = (sort_by_key tie' keys b).1.
Proof.
  intros Hka Hab. apply sorted_perm_eq; [apply sort_by_key_sorted..|].
  destruct (sort_by_key_perm tie keys a) as [-> _]; [done|].
  destruct (sort_by_key_perm tie' keys b) as [-> _]; [lia|]. done.
Qed.

(** Keys read off the values stay the keys of the values they move with. *)
Lemma sort_by_key_keyed {A} tie (f : A → Z) (vals : list A) :
  (sort_by_key tie (f <$> vals) vals).1 = f <$> (sort_by_key tie (f <$> vals) vals).2.
Proof.
  unfold sort_by_key. cbn [fst snd].
  set (l := foldr _ _ _).
  assert (Hall : Forall (λ kv, kv.1 = f kv.2) l).
  { unfold l. rewrite sort_by_key_pairs_perm.
    apply Forall_forall. intros [k v] Hin.
    apply list_elem_of_lookup in Hin as [i Hi].
    apply lookup_zip_with_Some in Hi as (k' & v' & Heq & Hk & Hv).
    injection Heq as -> ->. rewrite list_lookup_fmap, Hv in Hk. cbn in Hk.
    by injection Hk as <-. }
  clearbody l. induction Hall as [|[k v] l Hkv _ IH]; [done|].
  rewrite !fmap_cons. cbn [fst snd] in *. by rewrite IH, Hkv.
Qed.

(** How equal keys are settled does not matter where there are none. *)
Lemma insert_by_key_fresh {A} tie tie' k (v : A) (l : list (Z * A)) :
  k ∉ l.*1 ∨ (∀ r, tie r = tie' r) →
  insert_by_key tie k v l = insert_by_key tie' k v l.
Proof.
  intros Hk. induction l as [|[k' v'] l IH]; [done|].
  cbn [insert_by_key].
  assert (Htie : bool_decide (k = k') && tie (length l)
                 = bool_decide (k = k') && tie' (length l)).
  { destruct Hk as [Hk| ->]; [|done].
    rewrite bool_decide_eq_false_2; [done|].
    intros ->. apply Hk. rewrite fmap_cons. left. }
  rewrite Htie. destruct (_ || _); [done|]. f_equal. apply IH.
  destruct Hk as [Hk|Hk]; [left|by right].
  intros Hin. apply Hk. rewrite fmap_cons. by right.
Qed.

(** Every ascending arrangement of the pairs is what [sort_by_key] returns
    for some way of settling equal keys: the model leaves out no result
    that a sort by key can give. *)
Lemma insert_by_key_at {A} k (v : A) (T1 T2 : list (Z * A)) :
  Forall (λ kv, kv.1 <= k) T1 → Forall (λ kv, k <= kv.1) T2 →
  insert_by_key (λ r, bool_decide (r < length T2)%nat) k v (T1 ++ T2)
  = T1 ++ (k, v) :: T2.
Proof.
  intros H1 H2. induction T1 as [|[k1 v1] T1 IH].
  - destruct T2 as [|[k2 v2] T2]; [done|].
    apply Forall_cons in H2 as [Hk2 _]. cbn [fst] in Hk2.
    cbn [app insert_by_key]. rewrite (bool_decide_eq_true_2 (_ < _)%nat) by (cbn; lia).
    rewrite andb_true_r.
    destruct (decide (k < k2)) as [Hlt|Hge].
    + by rewrite (bool_decide_eq_true_2 (k < k2)).
    + rewrite (bool_decide_eq_true_2 (k = k2)) by lia. by rewrite orb_true_r.
  - apply Forall_cons in H1 as [Hk1 H1]. cbn [fst] in Hk1.
    cbn [app insert_by_key].
    rewrite (bool_decide_eq_false_2 (k < k1)) by lia.
    rewrite (bool_decide_eq_false_2 (_ < _)%nat) by (rewrite length_app; lia).
    rewrite andb_false_r. cbn [orb]. f_equal. by apply IH.
Qed.

Lemma sort_pairs_tie_ext {A} tie tie' (l : list (Z * A)) :
  (∀ m r, (m < length l)%nat → tie m r = tie' m r) →
  foldr (λ kv acc, insert_by_key (tie (length acc)) kv.1 kv.2 acc) [] l
  = foldr (λ kv acc, insert_by_key (tie' (length acc)) kv.1 kv.2 acc) [] l.
Proof.
  induction l as [|[k v] l IH]; intros Hties; [done|].
  cbn [foldr fst snd]. rewrite <- IH by (intros m r Hm; apply Hties; cbn; lia).
  apply insert_by_key_fresh. right. intros r. apply Hties.
  rewrite sort_by_key_pairs_perm. cbn. lia.
Qed.

Lemma sorted_without {A} (k : Z) (v : A) (T1 T2 : list (Z * A)) :
  StronglySorted Z.le (T1 ++ (k, v) :: T2).*1 →
  StronglySorted Z.le (T1 ++ T2).*1 ∧
  Forall (λ kv, kv.1 <= k) T1 ∧ Forall (λ kv, k <= kv.1) T2.
Proof.
  induction T1 as [|[k1 v1] T1 IH]; cbn [app]; rewrite ?fmap_cons; cbn [fst]; intros Hs.
  - apply StronglySorted_inv in Hs as [Hs Hall]. split; [done|]. split; [done|].
    by rewrite Forall_fmap in Hall.
  - apply StronglySorted_inv in Hs as [Hs Hall].
    destruct (IH Hs) as (Hs' & H1 & H2).
    rewrite fmap_app, fmap_cons, Forall_app, Forall_cons in Hall.
    destruct Hall as (Hall1 & Hk & Hall2). cbn [fst] in Hk.
    split; [|split; [by constructor|done]].
    constructor; [done|]. rewrite fmap_app, Forall_app. done.
Qed.

Lemma sort_pairs_reaches {A} (l T : list (Z * A)) :
  T ≡ₚ l → StronglySorted Z.le T.*1 →
  ∃ tie, foldr (λ kv acc, insert_by_key (tie (length acc)) kv.1 kv.2 acc) [] l = T.
Proof.
  revert T. induction l as [|[k v] l IH]; intros T Hperm Hsorted.
  { apply Permutation_nil_r in Hperm as ->. by exists (λ _ _, true). }
  assert (Hin : (k, v) ∈ T) by (rewrite Hperm; left).
  apply list_elem_of_split in Hin as (T1 & T2 & ->).
  rewrite <- Permutation_middle in Hperm. apply Permutation_cons_inv in Hperm.
  destruct (sorted_without k v T1 T2 Hsorted) as (Hs & H1 & H2).
  destruct (IH _ Hperm Hs) as [tie0 Htie0].
  set (tie := λ m r, if bool_decide (m < length l)%nat then tie0 m r
                     else bool_decide (r < length T2)%nat).
  exists tie. cbn [foldr fst snd].
  rewrite (sort_pairs_tie_ext tie tie0 l), Htie0.
  - rewrite <- (insert_by_key_at k v T1 T2 H1 H2).
    apply insert_by_key_fresh. right. intros r. unfold tie.
    rewrite bool_decide_eq_false_2; [done|].
    apply Permutation_length in Hperm. lia.
  - intros m r Hm. unfold tie. by rewrite bool_decide_eq_true_2.
Qed.

Lemma sort_by_key_reaches {A} keys (vals : list A) (T : list (Z * A)) :
  T ≡ₚ zip keys vals → StronglySorted Z.le T.*1 →
  ∃ tie, sort_by_key tie keys vals = (T.*1, T.*2).
Proof.
  intros Hperm Hsorted.
  destruct (sort_pairs_reaches _ T Hperm Hsorted) as [tie Htie].
  exists tie. unfold sort_by_key. by rewrite Htie.
Qed.

(** The values keep their keys: a value ends in a slot that holds its key. *)
Lemma sort_by_key_keeps_keys {A} tie keys (vals : list A) :
  length keys = length vals →
  zip (sort_by_key tie keys vals).2 (sort_by_key tie keys vals).1 ≡ₚ zip vals keys.
Proof.
  intros Hlen. unfold sort_by_key. cbn [fst snd].
  set (l := foldr _ _ _).
  assert (Hflip : ∀ (l : list (Z * A)), zip l.*2 l.*1 = prod_swap <$> l).
  { clear. induction l as [|[k v] l IH]; [done|]. cbn. by rewrite IH. }
  rewrite Hflip. unfold l. rewrite sort_by_key_pairs_perm, <- Hflip.
  by rewrite fst_zip, snd_zip by lia.
Qed.

(** ** The shader *)

Section Shader.
Context {F : Type} `{FloatOps F} `{Externals F}.

Lemma shadeMaterial_length iter n isects (paths : list (PathSegment F)) materials depth :
  length (shadeMaterial iter n isects paths materials depth) = length paths.
Proof. apply length_launch1d. Qed.

(** A path that enters with no bounce left goes through every branch
    untouched, whatever the intersection. *)
Lemma shadeMaterial_thread_spent iter depth materials idx isect (seg : PathSegment F) :
  ¬ remainingBounces seg > 0 →
  shadeMaterial_thread iter depth materials idx isect seg = seg.
Proof.
  intros Hrb. unfold shadeMaterial_thread.
  rewrite (bool_decide_eq_false_2 _ Hrb). by rewrite andb_false_r.
Qed.


End Shader.


(** ** Buffer sizes through one turn of the loop *)

Section Sizes.
Context {F : Type} `{FloatOps F} `{Externals F}.

Lemma sort_prefix_by_key_length {A} call n keys (vals : list A) :
  length keys = length vals →
  length (sort_prefix_by_key call n keys vals).1 = length keys ∧
  length (sort_prefix_by_key call n keys vals).2 = length vals.
Proof.
  intros Hlen. unfold sort_prefix_by_key. cbv zeta. cbn [fst snd].
  destruct (sort_by_key_length (sort_tie call (take n keys)) (take n keys) (take n vals))
    as [H1 H2].
  { rewrite !length_take. lia. }
  rewrite !length_app, H1, H2, !length_take, !length_drop. lia.
Qed.

Lemma sort_prefix_by_key_perm {A} call n keys (vals : list A) :
  length keys = length vals →
  take n (sort_prefix_by_key call n keys vals).2 ≡ₚ take n vals ∧
  drop n (sort_prefix_by_key call n keys vals).2 = drop n vals.
Proof.
  intros Hlen. unfold sort_prefix_by_key. cbv zeta. cbn [fst snd].
  assert (Hl : length (take n keys) = length (take n vals)).
  { rewrite !length_take. lia. }
  destruct (sort_by_key_perm (sort_tie call (take n keys)) _ _ Hl) as [_ Hp].
  destruct (sort_by_key_length (sort_tie call (take n keys)) _ _ Hl) as [_ Hn].
  destruct (decide (n ≤ length vals)%nat) as [Hle|Hgt].
  - rewrite length_take, Nat.min_l in Hn by done.
    split.
    + rewrite take_app_length' by done. exact Hp.
    + by rewrite drop_app_length'.
  - rewrite !(drop_ge vals), !(take_ge vals), app_nil_r in * by lia.
    split.
    + rewrite take_ge by lia. exact Hp.
    + apply drop_ge. lia.
Qed.

Lemma setMaterialIds_length n (ids1 ids2 : list Z) (isects : list (ShadeableIntersection F)) :
  length (setMaterialIds n ids1 ids2 isects).1 = length ids1 ∧
  length (setMaterialIds n ids1 ids2 isects).2 = length ids2.
Proof. unfold setMaterialIds. simpl. by rewrite !length_launch1d. Qed.

Lemma trace_stage_sized sw scene st :
  device_sized scene (mem st) → device_sized scene (trace_stage sw scene st).
Proof.
  unfold device_sized, trace_stage, computeIntersections, memset_intersections.
  simpl. rewrite !length_launch1d. tauto.
Qed.

Lemma material_sort_sized scene n d :
  device_sized scene d → device_sized scene (material_sort n d).
Proof.
  unfold device_sized, material_sort. cbv zeta.
  cbn [dev_image dev_paths dev_intersections dev_isect_ids dev_ps_ids].
  intros (Hi & Hp & Hx & Hii & Hpi).
  destruct (setMaterialIds_length n (dev_ps_ids d) (dev_isect_ids d)
              (dev_intersections d)) as [L1 L2].
  destruct (sort_prefix_by_key_length SortPaths (Z.to_nat n)
              (setMaterialIds n (dev_ps_ids d) (dev_isect_ids d) (dev_intersections d)).1
              (dev_paths d)) as [S1 S2]; [lia|].
  destruct (sort_prefix_by_key_length SortIntersections (Z.to_nat n)
              (setMaterialIds n (dev_ps_ids d) (dev_isect_ids d) (dev_intersections d)).2
              (dev_intersections d)) as [T1 T2]; [lia|].
  rewrite S1, S2, T1, T2. lia.
Qed.

Lemma sort_stage_sized sw scene n d :
  device_sized scene d → device_sized scene (sort_stage sw n d).
Proof.
  unfold sort_stage. destruct (MATERIALS sw); [apply material_sort_sized | done].
Qed.

Lemma shade_stage_sized scene iter n depth d :
  device_sized scene d → device_sized scene (shade_stage scene iter n depth d).
Proof.
  unfold device_sized, shade_stage. simpl. by rewrite shadeMaterial_length.
Qed.

(** What [thrust::partition] over the first [n] slots leaves. *)
Lemma compact_spec n (paths : list (PathSegment F)) :
  (n ≤ length paths)%nat →
  let c := compact n paths in
  let k := Z.to_nat c.2 in
  c.2 = Z.of_nat (length (filter alive (take n paths))) ∧
  (k ≤ n)%nat ∧
  take k c.1 = filter alive (take n paths) ∧
  drop k (take n c.1) = filter (λ p, ¬ alive p) (take n paths) ∧
  drop n c.1 = drop n paths ∧
  take n c.1 ≡ₚ take n paths ∧
  length c.1 = length paths.
Proof.
  intros Hn. unfold compact, thrust_partition. cbv zeta. cbn [fst snd].
  change (λ a : PathSegment F, Is_true (has_no_bounces a)) with (@alive F).
  rewrite Nat2Z.id.
  change (λ a : PathSegment F, ¬ Is_true (has_no_bounces a)) with (λ a : PathSegment F, ¬ alive a).
  set (A := filter alive (take n paths)).
  set (B := filter (λ a, ¬ alive a) (take n paths)).
  assert (Hperm : A ++ B ≡ₚ take n paths) by apply filter_app_complement.
  assert (Hlen : length (A ++ B) = n).
  { rewrite (Permutation_length Hperm), length_take. lia. }
  assert (Htake : take n ((A ++ B) ++ drop n paths) = A ++ B)
    by (by apply take_app_length').
  repeat split.
  - rewrite length_app in Hlen. lia.
  - rewrite <- app_assoc. by rewrite take_app_length.
  - rewrite Htake. by rewrite drop_app_length.
  - by apply drop_app_length'.
  - by rewrite Htake.
  - rewrite length_app, Hlen, length_drop. lia.
Qed.

End Sizes.

(** ** The path compactor *)

Section Compactor.
Context {F : Type} `{FloatOps F} `{Externals F}.

Lemma alive_bounces (p : PathSegment F) : alive p ↔ remainingBounces p > 0.
Proof. unfold alive, has_no_bounces. apply bool_decide_spec. Qed.

Lemma shaded_paths_length sw scene iter st :
  device_sized scene (mem st) →
  length (dev_paths (shade_stage scene iter (num_paths st) (wrap32 (depth st + 1))
                       (sort_stage sw (num_paths st) (trace_stage sw scene st))))
  = Z.to_nat (pixelcount scene).
Proof.
  intros Hs.
  apply (shade_stage_sized scene iter (num_paths st) (wrap32 (depth st + 1))).
  by apply sort_stage_sized, trace_stage_sized.
Qed.

(** The turn ends with [thrust::partition] over the slots just shaded. *)
Lemma bounce_compacts sw scene iter st :
  device_sized scene (mem st) →
  0 <= num_paths st <= pixelcount scene →
  let n := Z.to_nat (num_paths st) in
  let shaded_paths :=
    dev_paths (shade_stage scene iter (num_paths st) (wrap32 (depth st + 1))
                 (sort_stage sw (num_paths st) (trace_stage sw scene st))) in
  let st' := bounce sw scene iter st in
  let paths' := dev_paths (mem st') in
  let k := Z.to_nat (num_paths st') in
  take n paths' ≡ₚ take n shaded_paths ∧
  drop n paths' = drop n shaded_paths ∧
  length paths' = length shaded_paths ∧
  Forall (λ p, remainingBounces p > 0) (take k paths') ∧
  Forall (λ p, ¬ remainingBounces p > 0) (drop k (take n paths')) ∧
  num_paths st' = Z.of_nat (length (take k paths')) ∧
  num_paths st' = Z.of_nat (length (filter alive (take n shaded_paths))) ∧
  (length (take k paths') + length (drop k (take n paths')) = n)%nat.
Proof.
  intros Hsized Hn n shaded_paths st' paths' k.
  assert (Hlen : (n ≤ length shaded_paths)%nat).
  { unfold shaded_paths. rewrite shaded_paths_length by done. unfold n. lia. }
  destruct (compact_spec n shaded_paths Hlen)
    as (Hcount & Hk & Hfront & Hback & Hrest & Hperm & Hsame).
  change (compact n shaded_paths).1 with paths' in *.
  change (compact n shaded_paths).2 with (num_paths st') in *.
  fold k in Hk, Hfront, Hback.
  assert (Hlk : length (take k paths') = k) by (rewrite length_take; lia).
  repeat split; try done.
  - rewrite Hfront. apply Forall_forall. intros p Hp.
    apply list_elem_of_filter in Hp as [Hp _]. by apply alive_bounces.
  - rewrite Hback. apply Forall_forall. intros p Hp.
    apply list_elem_of_filter in Hp as [Hp _]. by rewrite <- alive_bounces.
  - rewrite Hlk. unfold k. rewrite Z2Nat.id; [done|]. rewrite Hcount. lia.
  - rewrite Hlk, length_drop, length_take. lia.
Qed.

(** C4: in every turn of the loop, [thrust::partition] with
    [has_no_bounces] rearranges the [num_paths] slots just shaded, and only
    those, into the paths with [remainingBounces > 0] followed by the others;
    the new [num_paths] is the size of the first part, and the two parts
    together are the paths that were there, each once. *)
Theorem compaction_partitions sw scene iter st :
  device_sized scene (mem st) →
  0 <= num_paths st <= pixelcount scene →
  let n := Z.to_nat (num_paths st) in
  let shaded_paths :=
    dev_paths (shade_stage scene iter (num_paths st) (wrap32 (depth st + 1))
                 (sort_stage sw (num_paths st) (trace_stage sw scene st))) in
  let st' := bounce sw scene iter st in
  let paths' := dev_paths (mem st') in
  let k := Z.to_nat (num_paths st') in
  take n paths' ≡ₚ take n shaded_paths ∧
  drop n paths' = drop n shaded_paths ∧
  length paths' = length shaded_paths ∧
  Forall (λ p, remainingBounces p > 0) (take k paths') ∧
  Forall (λ p, ¬ remainingBounces p > 0) (drop k (take n paths')) ∧
  num_paths st' = Z.of_nat (length (take k paths')) ∧
  num_paths st' = Z.of_nat (length (filter alive (take n shaded_paths))) ∧
  (length (take k paths') + length (drop k (take n paths')) = n)%nat.
Proof. apply bounce_compacts. Qed.

End Compactor.

(** [compaction_partitions] for the first turn of the loop on the small
    scene with a trace depth of 1: both paths end, none stays active. *)
Lemma compaction_partitions_witness :
  let st := @loop_entry Z ZFloat toy (toy_scene 1) 1 (toy_device 2) in
  num_paths (@bounce Z ZFloat toy source_switches (toy_scene 1) 1 st) = 0.
Proof.
  intros st.
  destruct (@compaction_partitions Z ZFloat toy source_switches (toy_scene 1) 1 st)
    as (_ & _ & _ & _ & _ & _ & Hcount & _).
  - vm_compute. repeat split.
  - vm_compute. split; discriminate.
  - rewrite Hcount. vm_compute. reflexivity.
Defined.

(** ** The ray generator *)

Section Generator.
Context {F : Type} `{FloatOps F} `{Externals F}.
Implicit Types (cam : Camera F) (buf : list (PathSegment F)).

Lemma pixel_slot_in_range cam x y :
  camera_ok cam →
  0 <= x < ix (resolution cam) → 0 <= y < iy (resolution cam) →
  pixel_slot cam x y = x + y * ix (resolution cam) ∧
  0 <= x + y * ix (resolution cam) < ix (resolution cam) * iy (resolution cam).
Proof.
  intros (Hx & Hy & Hmax) Hxr Hyr. unfold pixel_slot.
  assert (Hb : 0 <= x + y * ix (resolution cam)
               < ix (resolution cam) * iy (resolution cam)) by nia.
  unfold INT_MAX in Hmax.
  rewrite (wrap32_id (y * _)) by (unfold int_range, INT_MIN, INT_MAX; nia).
  rewrite wrap32_id by (unfold int_range, INT_MIN, INT_MAX; nia).
  done.
Qed.

(** Two pixels of the image have two slots. *)
Lemma pixel_slot_inj cam x y x' y' :
  0 <= x < ix (resolution cam) → 0 <= x' < ix (resolution cam) →
  0 <= y → 0 <= y' →
  x + y * ix (resolution cam) = x' + y' * ix (resolution cam) →
  x = x' ∧ y = y'.
Proof.
  intros Hx Hx' Hy Hy' Heq.
  assert (y = y') as ->; [|lia].
  destruct (Z.lt_trichotomy y y') as [Hlt|[Heq'|Hgt]]; [|done|].
  - assert (ix (resolution cam) * 1 <= ix (resolution cam) * (y' - y))
      by (apply Z.mul_le_mono_nonneg_l; lia). lia.
  - assert (ix (resolution cam) * 1 <= ix (resolution cam) * (y - y'))
      by (apply Z.mul_le_mono_nonneg_l; lia). lia.
Qed.

(** The writes of a generator thread do not read the fields they set. *)
Lemma generateRay_segment_idem cam iter td x y index (seg : PathSegment F) :
  generateRay_segment cam iter td x y index
    (generateRay_segment cam iter td x y index seg)
  = generateRay_segment cam iter td x y index seg.
Proof. unfold generateRay_segment. by destruct (jitter iter x y). Qed.

Lemma generateRay_segment_written cam iter td x y index (seg seg' : PathSegment F) :
  written_by_generator (generateRay_segment cam iter td x y index seg)
  = written_by_generator (generateRay_segment cam iter td x y index seg').
Proof. unfold generateRay_segment. by destruct (jitter iter x y). Qed.

Lemma generateRay_thread_length cam iter td buf xy :
  length (generateRay_thread cam iter td buf xy) = length buf.
Proof.
  unfold generateRay_thread, zalter. destruct xy as [x y].
  repeat case_match; by rewrite ?length_alter.
Qed.

Lemma generateRayFromCamera_on_length threads cam iter td buf :
  length (generateRayFromCamera_on threads cam iter td buf) = length buf.
Proof.
  unfold generateRayFromCamera_on. revert buf.
  induction threads as [|xy threads IH]; intros buf; simpl; [done|].
  by rewrite IH, generateRay_thread_length.
Qed.

(** After the threads [threads] have run, in that order, the slot of
    pixel (x, y) holds what its own thread wrote, if that thread was among
    them, and what it held before if not. *)
Lemma generateRayFromCamera_on_lookup threads cam iter td buf x y :
  camera_ok cam →
  Forall (λ xy, 0 <= xy.1 ∧ 0 <= xy.2) threads →
  0 <= x < ix (resolution cam) → 0 <= y < iy (resolution cam) →
  let slot := x + y * ix (resolution cam) in
  generateRayFromCamera_on threads cam iter td buf !! Z.to_nat slot =
  (if bool_decide ((x, y) ∈ threads)
   then generateRay_segment cam iter td x y slot else id) <$> buf !! Z.to_nat slot.
Proof.
  intros Hcam Hpos Hx Hy slot. unfold generateRayFromCamera_on.
  induction threads as [|[a b] threads IH] using rev_ind.
  - rewrite bool_decide_eq_false_2 by apply not_elem_of_nil.
    cbn [foldl]. by destruct (buf !! _).
  - apply Forall_app in Hpos as [Hpos Hab].
    apply Forall_singleton in Hab as [Ha Hb]. simpl in Ha, Hb.
    rewrite foldl_app. cbn [foldl]. specialize (IH Hpos).
    set (prev := foldl (generateRay_thread cam iter td) buf threads) in *.
    unfold generateRay_thread.
    destruct (bool_decide (a < ix (resolution cam)) &&
              bool_decide (b < iy (resolution cam))) eqn:Hguard.
    + apply andb_prop in Hguard as [Ga Gb].
      apply bool_decide_eq_true_1 in Ga. apply bool_decide_eq_true_1 in Gb.
      destruct (pixel_slot_in_range cam a b Hcam) as [-> Hrange]; [lia..|].
      unfold zalter. rewrite bool_decide_eq_true_2 by lia.
      destruct (decide ((a, b) = (x, y))) as [Heq|Hne].
      * inversion Heq; subst a b. fold slot.
        rewrite list_lookup_alter_eq, IH.
        rewrite (bool_decide_eq_true_2 ((x, y) ∈ threads ++ [(x, y)]))
          by (apply elem_of_app; right; apply list_elem_of_singleton; done).
        destruct (buf !! Z.to_nat slot) as [seg|]; simpl; [|done].
        case_bool_decide; simpl; [|done].
        by rewrite generateRay_segment_idem.
      * rewrite list_lookup_alter_ne.
        2:{ intros Hslot. apply Hne.
            apply Z2Nat.inj in Hslot; [|lia|unfold slot; nia].
            destruct (pixel_slot_inj cam a b x y) as [-> ->]; [lia..|done|done]. }
        rewrite IH. f_equal.
        rewrite (bool_decide_ext ((x, y) ∈ threads ++ [(a, b)]) ((x, y) ∈ threads)); [done|].
        rewrite elem_of_app, list_elem_of_singleton. intuition congruence.
    + rewrite IH. f_equal.
      rewrite (bool_decide_ext ((x, y) ∈ threads ++ [(a, b)]) ((x, y) ∈ threads)); [done|].
      rewrite elem_of_app, list_elem_of_singleton.
      split; [|tauto]. intros [Hin|Heq]; [done|].
      inversion Heq; subst a b.
      rewrite !bool_decide_eq_true_2 in Hguard by lia. done.
Qed.

Lemma elem_of_grid2d cam x y :
  (x, y) ∈ grid2d cam ↔
  0 <= x < 8 * ((ix (resolution cam) + 8 - 1) / 8) ∧
  0 <= y < 8 * ((iy (resolution cam) + 8 - 1) / 8).
Proof.
  unfold grid2d. rewrite list_elem_of_bind. split.
  - intros (y' & Hin & Hy'). apply list_elem_of_bind in Hin as (x' & Hin & Hx').
    apply list_elem_of_singleton in Hin. inversion Hin; subst x' y'.
    apply elem_of_seqZ in Hx', Hy'. lia.
  - intros [Hx Hy]. exists y. split; [|apply elem_of_seqZ; lia].
    apply list_elem_of_bind. exists x. split; [|apply elem_of_seqZ; lia].
    by apply list_elem_of_singleton.
Qed.

(** The 8 x 8 blocks cover the image, and thread indices are not negative. *)
Lemma grid2d_covers cam x y :
  0 <= x < ix (resolution cam) → 0 <= y < iy (resolution cam) →
  (x, y) ∈ grid2d cam.
Proof.
  intros Hx Hy. apply elem_of_grid2d.
  pose proof (Z.div_mod (ix (resolution cam) + 8 - 1) 8 ltac:(lia)).
  pose proof (Z.mod_pos_bound (ix (resolution cam) + 8 - 1) 8 ltac:(lia)).
  pose proof (Z.div_mod (iy (resolution cam) + 8 - 1) 8 ltac:(lia)).
  pose proof (Z.mod_pos_bound (iy (resolution cam) + 8 - 1) 8 ltac:(lia)).
  lia.
Qed.

Lemma grid2d_nonneg cam : Forall (λ xy, 0 <= xy.1 ∧ 0 <= xy.2) (grid2d cam).
Proof.
  apply Forall_forall. intros [x y] Hin. apply elem_of_grid2d in Hin. simpl. lia.
Qed.

End Generator.

Section GeneratorSpec.
Context {F : Type} `{FloatOps F} `{Externals F}.
Implicit Types (cam : Camera F) (buf : list (PathSegment F)).

Lemma jitter_draws iter x y :
  let half := lit (1 # 2) in
  let mhalf := lit (-1 # 2) in
  let d1 := uniform_real_distribution mhalf half (makeSeededRandomEngine iter x y) in
  let d2 := uniform_real_distribution mhalf half d1.2 in
  jitter iter x y = (d1.1, d2.1).
Proof.
  intros half mhalf d1 d2. unfold jitter. fold half mhalf. fold d1.
  destruct d1 as [xOffset rng1] eqn:E1. simpl in d2. fold d2.
  by destruct d2.
Qed.

(** Every slot below the pixel count is the slot of one pixel. *)
Lemma slot_pixel cam (i : nat) :
  camera_ok cam →
  Z.of_nat i < ix (resolution cam) * iy (resolution cam) →
  let x := Z.of_nat i mod ix (resolution cam) in
  let y := Z.of_nat i / ix (resolution cam) in
  0 <= x < ix (resolution cam) ∧ 0 <= y < iy (resolution cam) ∧
  Z.to_nat (x + y * ix (resolution cam)) = i.
Proof.
  intros (Hx & Hy & _) Hi x y.
  assert (Hpos : 0 < ix (resolution cam)) by nia.
  pose proof (Z.mod_pos_bound (Z.of_nat i) _ Hpos) as Hmod.
  pose proof (Z.div_mod (Z.of_nat i) (ix (resolution cam)) ltac:(lia)) as Hdm.
  assert (0 <= y) by (apply Z.div_pos; lia).
  assert (y < iy (resolution cam)).
  { apply Z.div_lt_upper_bound; [lia|]. lia. }
  repeat split; lia.
Qed.

Lemma generateRayFromCamera_slot threads cam iter td buf x y :
  camera_ok cam →
  threads ≡ₚ grid2d cam →
  length buf = Z.to_nat (ix (resolution cam) * iy (resolution cam)) →
  0 <= x < ix (resolution cam) → 0 <= y < iy (resolution cam) →
  let slot := x + y * ix (resolution cam) in
  ∃ old, buf !! Z.to_nat slot = Some old ∧
    generateRayFromCamera_on threads cam iter td buf !! Z.to_nat slot
    = Some (generateRay_segment cam iter td x y slot old).
Proof.
  intros Hcam Hperm Hlen Hx Hy slot.
  destruct (pixel_slot_in_range cam x y Hcam Hx Hy) as [_ Hslot]. fold slot in Hslot.
  destruct (lookup_lt_is_Some_2 buf (Z.to_nat slot)) as [old Hold]; [lia|].
  exists old. split; [done|].
  assert (Hpos : Forall (λ xy, 0 <= xy.1 ∧ 0 <= xy.2) threads)
    by (rewrite Hperm; apply grid2d_nonneg).
  pose proof (generateRayFromCamera_on_lookup threads cam iter td buf x y
                Hcam Hpos Hx Hy) as Hget.
  cbv zeta in Hget. fold slot in Hget. rewrite Hget, Hold. simpl.
  rewrite bool_decide_eq_true_2; [done|].
  rewrite Hperm. by apply grid2d_covers.
Qed.

Lemma generateRayFromCamera_all cam iter traceDepth buf :
  camera_ok cam →
  length buf = Z.to_nat (ix (resolution cam) * iy (resolution cam)) →
  let out := generateRayFromCamera cam iter traceDepth buf in
  pixelIndex <$> out = seqZ 0 (ix (resolution cam) * iy (resolution cam)) ∧
  Forall (λ seg, remainingBounces seg = traceDepth ∧
                 color seg = Vec3 (lit 1) (lit 1) (lit 1)) out.
Proof.
  intros Hcam Hlen out.
  assert (Hout : length out = Z.to_nat (ix (resolution cam) * iy (resolution cam))).
  { unfold out, generateRayFromCamera. by rewrite generateRayFromCamera_on_length. }
  assert (Hslot : ∀ i : nat,
            Z.of_nat i < ix (resolution cam) * iy (resolution cam) →
            ∃ x y old, out !! i
                   = Some (generateRay_segment cam iter traceDepth x y (Z.of_nat i) old)).
  { intros i Hi. destruct (slot_pixel cam i Hcam Hi) as (Hx & Hy & Hback).
    destruct (generateRayFromCamera_slot (grid2d cam) cam iter traceDepth buf _ _
                Hcam (reflexivity _) Hlen Hx Hy) as (old & _ & Hget).
    rewrite Hback in Hget. eexists _, _, old.
    unfold out, generateRayFromCamera. rewrite Hget. do 3 f_equal.
    destruct Hcam as (Hrx & _ & _).
    pose proof (Z.div_mod (Z.of_nat i) (ix (resolution cam)) ltac:(nia)). lia. }
  split.
  - apply list_eq. intros i. rewrite list_lookup_fmap.
    destruct (decide (Z.of_nat i < ix (resolution cam) * iy (resolution cam))) as [Hi|Hi].
    + destruct (Hslot i Hi) as (x & y & old & Hget).
      rewrite Hget, lookup_seqZ_lt by done. simpl. f_equal.
      unfold generateRay_segment. by destruct (jitter _ _ _).
    + rewrite lookup_seqZ_ge by lia. rewrite lookup_ge_None_2; [done|]. lia.
  - apply Forall_lookup. intros i seg Hseg.
    assert (Hi : Z.of_nat i < ix (resolution cam) * iy (resolution cam)).
    { apply lookup_lt_Some in Hseg. lia. }
    destruct (Hslot i Hi) as (x & y & old & Hget).
    rewrite Hget in Hseg. injection Hseg as <-.
    unfold generateRay_segment. by destruct (jitter _ _ _).
Qed.

(** C8, amended: [generateRayFromCamera] fills [pixelcount] slots, slot
    [x + y * resolution.x] for pixel (x, y), with colour (1, 1, 1),
    [remainingBounces = traceDepth], the camera position as origin, and the
    normalised direction through the pixel moved by two offsets, drawn one
    after the other from [uniform_real_distribution(-0.5, 0.5)] on the
    engine [makeSeededRandomEngine(iter, x, y)], each in [-0.5, 0.5): the
    column [x] is the index of the seed and the row [y] its depth. *)
Theorem generateRayFromCamera_spec cam iter traceDepth buf :
  camera_ok cam →
  uniform_real_half_open →
  fltb (lit (-1 # 2)) (lit (1 # 2)) = true →
  length buf = Z.to_nat (ix (resolution cam) * iy (resolution cam)) →
  let out := generateRayFromCamera cam iter traceDepth buf in
  let half := lit (1 # 2) in
  let mhalf := lit (-1 # 2) in
  length out = Z.to_nat (ix (resolution cam) * iy (resolution cam)) ∧
  pixelIndex <$> out = seqZ 0 (ix (resolution cam) * iy (resolution cam)) ∧
  ∀ x y, 0 <= x < ix (resolution cam) → 0 <= y < iy (resolution cam) →
    let index := x + y * ix (resolution cam) in
    let d1 := uniform_real_distribution mhalf half (makeSeededRandomEngine iter x y) in
    let d2 := uniform_real_distribution mhalf half d1.2 in
    ∃ seg, out !! Z.to_nat index = Some seg ∧
      color seg = Vec3 (lit 1) (lit 1) (lit 1) ∧
      remainingBounces seg = traceDepth ∧
      pixelIndex seg = index ∧
      origin (ray seg) = position cam ∧
      direction (ray seg) = camera_direction cam x y d1.1 d2.1 ∧
      (fleb mhalf d1.1 = true ∧ fltb d1.1 half = true) ∧
      (fleb mhalf d2.1 = true ∧ fltb d2.1 half = true).
Proof.
  intros Hcam Hunif Hlt Hlen out half mhalf.
  assert (Hout : length out = Z.to_nat (ix (resolution cam) * iy (resolution cam))).
  { unfold out, generateRayFromCamera. by rewrite generateRayFromCamera_on_length. }
  assert (Hslot : ∀ x y, 0 <= x < ix (resolution cam) → 0 <= y < iy (resolution cam) →
            ∃ old, out !! Z.to_nat (x + y * ix (resolution cam))
                   = Some (generateRay_segment cam iter traceDepth x y
                             (x + y * ix (resolution cam)) old)).
  { intros x y Hx Hy.
    destruct (generateRayFromCamera_slot (grid2d cam) cam iter traceDepth buf x y)
      as (old & _ & Hget); try done. by exists old. }
  split; [done|]. split.
  - by apply generateRayFromCamera_all.
  - intros x y Hx Hy index d1 d2.
    destruct (Hslot _ _ Hx Hy) as [old Hget]. fold index in Hget.
    eexists. split; [exact Hget|].
    unfold generateRay_segment.
    pose proof (jitter_draws iter x y) as Hj. cbv zeta in Hj.
    fold half mhalf in Hj. fold d1 in Hj. fold d2 in Hj. rewrite Hj.
    cbn [color remainingBounces pixelIndex ray origin direction].
    repeat split; try done.
    + by apply Hunif.
    + by apply Hunif.
    + by apply Hunif.
    + by apply Hunif.
Qed.

(** C9: what [generateRayFromCamera] writes (origin, direction, colour,
    pixelIndex, remainingBounces of every slot) depends on the camera, the
    iteration and the trace depth only: not on the order its threads run
    in, and not on what the buffer held. *)
Theorem generateRayFromCamera_deterministic cam iter traceDepth threads buf1 buf2 :
  camera_ok cam →
  threads ≡ₚ grid2d cam →
  length buf1 = Z.to_nat (ix (resolution cam) * iy (resolution cam)) →
  length buf2 = Z.to_nat (ix (resolution cam) * iy (resolution cam)) →
  written_by_generator <$> generateRayFromCamera_on threads cam iter traceDepth buf1
  = written_by_generator <$> generateRayFromCamera cam iter traceDepth buf2.
Proof.
  intros Hcam Hperm Hlen1 Hlen2. apply list_eq. intros i.
  rewrite !list_lookup_fmap.
  destruct (decide (Z.of_nat i < ix (resolution cam) * iy (resolution cam))) as [Hi|Hi].
  - destruct (slot_pixel cam i Hcam Hi) as (Hx & Hy & Hback).
    destruct (generateRayFromCamera_slot threads cam iter traceDepth buf1 _ _
                Hcam Hperm Hlen1 Hx Hy) as (old1 & _ & Hget1).
    destruct (generateRayFromCamera_slot (grid2d cam) cam iter traceDepth buf2 _ _
                Hcam (reflexivity _) Hlen2 Hx Hy) as (old2 & _ & Hget2).
    rewrite Hback in Hget1, Hget2. unfold generateRayFromCamera.
    rewrite Hget1, Hget2. simpl. f_equal. apply generateRay_segment_written.
  - unfold generateRayFromCamera.
    rewrite !lookup_ge_None_2; [done| |];
      rewrite generateRayFromCamera_on_length; lia.
Qed.

End GeneratorSpec.

Lemma toy_uniform_half_open w u : @uniform_real_half_open Z ZFloat (toy_externals w u).
Proof.
  intros a b e Hab. simpl in *. split; [apply Z.leb_refl | exact Hab].
Qed.

(** [generateRayFromCamera_spec] on a 2 x 1 camera: two paths, pixel
    indices 0 and 1. *)
Lemma generateRayFromCamera_spec_witness :
  pixelIndex <$> @generateRayFromCamera Z ZFloat toy (toy_camera 2 1) 1 3
                   [toy_segment 7 0; toy_segment 7 0] = [0; 1].
Proof.
  destruct (@generateRayFromCamera_spec Z ZFloat toy (toy_camera 2 1) 1 3
              [toy_segment 7 0; toy_segment 7 0]) as (_ & Hidx & _).
  - vm_compute. repeat split; discriminate.
  - apply toy_uniform_half_open.
  - reflexivity.
  - reflexivity.
  - exact Hidx.
Defined.

(** C8 as stated fails: the engine of a pixel is not seeded with depth 0
    but with its row.  For pixel (0, 1) of a 1 x 2 image at iteration 1 the
    generator draws from [makeSeededRandomEngine(1, 0, 1)]: the word that
    carries the depth is that of depth 1, whatever [utilhash] is, and with
    the identity for [utilhash] the engine is neither the one of depth 0 for
    the column nor the one of depth 0 for the slot of the pixel. *)
Lemma generator_seed_depth_is_row :
  (∀ F (ops : FloatOps F) (ext : Externals F),
     @jitter F ops ext 1 0 1
     = let mhalf := lit (-1 # 2) in
       let half := lit (1 # 2) in
       let d1 := uniform_real_distribution mhalf half
                   (@makeSeededRandomEngine F ext 1 0 1) in
       (d1.1, (uniform_real_distribution mhalf half d1.2).1)) ∧
  seed_key 1 1 ≠ seed_key 1 0 ∧
  @makeSeededRandomEngine Z toy 1 0 1 ≠ @makeSeededRandomEngine Z toy 1 0 0 ∧
  @makeSeededRandomEngine Z toy 1 0 1
  ≠ @makeSeededRandomEngine Z toy 1 (@pixel_slot Z (toy_camera 1 2) 0 1) 0.
Proof.
  split; [|by vm_compute].
  intros F ops ext. apply (@jitter_draws F ops ext 1 0 1).
Qed.

(** [generateRayFromCamera_deterministic] on a 2 x 1 camera: the threads
    run in the reverse order, over another buffer. *)
Lemma generateRayFromCamera_deterministic_witness :
  written_by_generator <$>
    @generateRayFromCamera_on Z ZFloat toy (reverse (grid2d (toy_camera 2 1)))
      (toy_camera 2 1) 1 3 [toy_segment 7 0; toy_segment 8 1]
  = written_by_generator <$>
    @generateRayFromCamera Z ZFloat toy (toy_camera 2 1) 1 3
      [toy_segment 0 0; toy_segment 0 0].
Proof.
  apply (@generateRayFromCamera_deterministic Z ZFloat toy).
  - vm_compute. repeat split; discriminate.
  - apply reverse_Permutation.
  - reflexivity.
  - reflexivity.
Defined.

(** ** The stages of one turn, on the array of paths *)

Section Stages.
Context {F : Type} `{FloatOps F} `{Externals F}.
Implicit Types (R : PathSegment F → PathSegment F → Prop).
Implicit Types (paths : list (PathSegment F)).

Lemma launch1d_Forall2 {A} (R : A → A → Prop) n (body : nat → A → A) buf :
  (∀ a, R a a) →
  (∀ i a, buf !! i = Some a → Z.of_nat i < n → R a (body i a)) →
  Forall2 R buf (launch1d n body buf).
Proof.
  intros Hrefl Hbody. apply Forall2_same_length_lookup_2.
  - by rewrite length_launch1d.
  - intros i a b Ha Hb. rewrite lookup_launch1d, Ha in Hb. simpl in Hb.
    injection Hb as <-. case_bool_decide; [by apply Hbody | apply Hrefl].
Qed.

Lemma paths_evolve_refl R paths : (∀ p, R p p) → paths_evolve R paths paths.
Proof.
  intros Hrefl. exists paths. split; [|done].
  apply Forall_Forall2_diag, Forall_forall. auto.
Qed.

Lemma paths_evolve_pointwise R paths paths' :
  Forall2 R paths paths' → paths_evolve R paths paths'.
Proof. intros HR. by exists paths'. Qed.

Lemma paths_evolve_perm R paths paths' :
  (∀ p, R p p) → paths ≡ₚ paths' → paths_evolve R paths paths'.
Proof.
  intros Hrefl Hperm. exists paths. split; [|done].
  apply Forall_Forall2_diag, Forall_forall. auto.
Qed.

Lemma paths_evolve_trans R a b c :
  (∀ p q r, R p q → R q r → R p r) →
  paths_evolve R a b → paths_evolve R b c → paths_evolve R a c.
Proof.
  intros Htrans (l & Hal & Hlb) (m & Hbm & Hmc).
  symmetry in Hlb.
  destruct (Permutation_Forall2 Hlb Hbm) as (m' & Hmm' & Hlm').
  exists m'. split.
  - clear -Htrans Hal Hlm'. revert m' Hlm'.
    induction Hal as [|x y xs ys Hxy _ IH]; intros m' Hlm'.
    + inversion Hlm'. constructor.
    + inversion Hlm' as [|? z ? zs Hyz Hrest]; subst.
      constructor; [by eapply Htrans | by apply IH].
  - by rewrite <- Hmm'.
Qed.

(** What a property of all paths becomes along [paths_evolve]. *)
Lemma paths_evolve_Forall R (P Q : PathSegment F → Prop) paths paths' :
  (∀ p p', R p p' → P p → Q p') →
  paths_evolve R paths paths' → Forall P paths → Forall Q paths'.
Proof.
  intros HPQ (l & Hl & Hperm) HP. rewrite <- Hperm. clear Hperm.
  induction Hl as [|x y xs ys Hxy _ IH]; [constructor|].
  apply Forall_cons in HP as [Hx Hxs].
  constructor; [by eapply HPQ | by apply IH].
Qed.

Lemma paths_evolve_pixels paths paths' :
  paths_evolve same_pixel paths paths' →
  pixelIndex <$> paths' ≡ₚ pixelIndex <$> paths.
Proof.
  intros (l & Hl & Hperm). rewrite <- Hperm. clear Hperm.
  replace (pixelIndex <$> l) with (pixelIndex <$> paths); [done|].
  induction Hl as [|x y xs ys Hxy _ IH]; [done|].
  rewrite !fmap_cons. by rewrite IH, Hxy.
Qed.

Lemma trace_stage_paths R sw scene st :
  (∀ p, R p p) → (∀ p v, R p (set_intersect p v)) →
  Forall2 R (dev_paths (mem st)) (dev_paths (trace_stage sw scene st)).
Proof.
  intros Hrefl Hset. unfold trace_stage, computeIntersections. simpl.
  apply launch1d_Forall2; [done|]. intros. apply Hset.
Qed.

Lemma shade_stage_paths R scene iter n depth d :
  (∀ p, R p p) →
  (∀ idx isect p, R p (shadeMaterial_thread iter depth (materials scene) idx isect p)) →
  Forall2 R (dev_paths d) (dev_paths (shade_stage scene iter n depth d)).
Proof.
  intros Hrefl Hshade. unfold shade_stage, shadeMaterial. simpl.
  apply launch1d_Forall2; [done|]. intros i a _ _.
  destruct (dev_intersections d !! i); [apply Hshade | apply Hrefl].
Qed.

(** The material sort moves paths within the first [num_paths] slots. *)
Lemma sort_stage_paths sw scene n d :
  device_sized scene d →
  take (Z.to_nat n) (dev_paths (sort_stage sw n d)) ≡ₚ take (Z.to_nat n) (dev_paths d) ∧
  drop (Z.to_nat n) (dev_paths (sort_stage sw n d)) = drop (Z.to_nat n) (dev_paths d).
Proof.
  intros (Hi & Hp & Hx & Hii & Hpi). unfold sort_stage.
  destruct (MATERIALS sw); [|done].
  unfold material_sort. cbv zeta. cbn [dev_paths].
  apply sort_prefix_by_key_perm.
  destruct (setMaterialIds_length n (dev_ps_ids d) (dev_isect_ids d)
              (dev_intersections d)) as [L1 _].
  lia.
Qed.

Lemma take_drop_perm {A} n (l k : list A) :
  take n k ≡ₚ take n l → drop n k = drop n l → k ≡ₚ l.
Proof.
  intros Ht Hd. rewrite <- (take_drop n k), <- (take_drop n l). by rewrite Ht, Hd.
Qed.

(** One turn of the loop changes each path as the intersection and shading
    threads do, and moves paths. *)
Lemma bounce_evolves R sw scene iter st :
  (∀ p, R p p) → (∀ p q r, R p q → R q r → R p r) →
  (∀ p v, R p (set_intersect p v)) →
  (∀ depth idx isect p,
     R p (shadeMaterial_thread iter depth (materials scene) idx isect p)) →
  loop_ok scene st →
  paths_evolve R (dev_paths (mem st)) (dev_paths (mem (bounce sw scene iter st))).
Proof.
  intros Hrefl Htrans Hset Hshade [Hsized Hn].
  pose proof (trace_stage_sized sw scene st Hsized) as Hs1.
  pose proof (sort_stage_sized sw scene (num_paths st) _ Hs1) as Hs2.
  pose proof (sort_stage_paths sw scene (num_paths st) _ Hs1) as [Hsp Hsd].
  eapply paths_evolve_trans; [done| |].
  { apply paths_evolve_pointwise. by apply (trace_stage_paths R sw scene st). }
  eapply paths_evolve_trans; [done| |].
  { apply paths_evolve_perm; [done|]. symmetry. by eapply take_drop_perm. }
  eapply paths_evolve_trans; [done| |].
  { apply paths_evolve_pointwise.
    apply (shade_stage_paths R scene iter (num_paths st) (wrap32 (depth st + 1))); auto. }
  apply paths_evolve_perm; [done|].
  unfold bounce. cbn [mem dev_paths].
  set (shaded_paths := dev_paths (shade_stage _ _ _ _ _)).
  assert (Hlen : (Z.to_nat (num_paths st) ≤ length shaded_paths)%nat).
  { unfold shaded_paths. rewrite shaded_paths_length by done. lia. }
  destruct (compact_spec _ shaded_paths Hlen) as (_ & _ & _ & _ & Hd & Hp & _).
  symmetry. by eapply take_drop_perm.
Qed.

(** The slots from [num_paths] on are out of reach of the turn. *)
Lemma bounce_tail sw scene iter st :
  loop_ok scene st →
  drop (Z.to_nat (num_paths st)) (dev_paths (mem (bounce sw scene iter st)))
  = drop (Z.to_nat (num_paths st)) (dev_paths (mem st)).
Proof.
  intros [Hsized Hn].
  pose proof (trace_stage_sized sw scene st Hsized) as Hs1.
  pose proof (sort_stage_paths sw scene (num_paths st) _ Hs1) as [_ Hsd].
  unfold bounce. cbn [mem dev_paths].
  set (shaded_paths := dev_paths (shade_stage _ _ _ _ _)).
  assert (Hlen : (Z.to_nat (num_paths st) ≤ length shaded_paths)%nat).
  { unfold shaded_paths. rewrite shaded_paths_length by done. lia. }
  destruct (compact_spec _ shaded_paths Hlen) as (_ & _ & _ & _ & Hd & _ & _).
  rewrite Hd. unfold shaded_paths, shade_stage, shadeMaterial. cbn [dev_paths].
  rewrite drop_launch1d by lia. rewrite Hsd.
  unfold trace_stage, computeIntersections. cbn [dev_paths fst].
  by rewrite drop_launch1d by lia.
Qed.

Lemma bounce_ok sw scene iter st :
  loop_ok scene st →
  loop_ok scene (bounce sw scene iter st) ∧
  num_paths (bounce sw scene iter st) <= num_paths st.
Proof.
  intros [Hsized Hn].
  pose proof (trace_stage_sized sw scene st Hsized) as Hs1.
  pose proof (sort_stage_sized sw scene (num_paths st) _ Hs1) as Hs2.
  pose proof (shade_stage_sized scene iter (num_paths st) (wrap32 (depth st + 1)) _ Hs2)
    as Hs3.
  unfold bounce.
  set (d3 := shade_stage _ _ _ _ _) in *.
  assert (Hlen : (Z.to_nat (num_paths st) ≤ length (dev_paths d3))%nat).
  { destruct Hs3 as (_ & -> & _). lia. }
  destruct (compact_spec _ (dev_paths d3) Hlen) as (Hc & Hk & _ & _ & _ & _ & Hl).
  cbn [mem num_paths].
  assert (Hle : (compact (Z.to_nat (num_paths st)) (dev_paths d3)).2 <= num_paths st).
  { rewrite Hc in *. rewrite Nat2Z.id in Hk. lia. }
  split; [|done]. split.
  - destruct Hs3 as (? & ? & ? & ? & ?).
    unfold device_sized.
    cbn [mem dev_image dev_paths dev_intersections dev_isect_ids dev_ps_ids].
    rewrite Hl. done.
  - cbn [num_paths]. rewrite Hc in *. lia.
Qed.

End Stages.

(** ** The while loop *)

Section LoopFacts.
Context {F : Type} `{FloatOps F} `{Externals F}.

Lemma after_bounces_S sw scene iter k st :
  after_bounces sw scene iter (S k) st
  = bounce sw scene iter (after_bounces sw scene iter k st).
Proof. reflexivity. Qed.

Lemma after_bounces_S_r sw scene iter k st :
  after_bounces sw scene iter (S k) st
  = after_bounces sw scene iter k (bounce sw scene iter st).
Proof. unfold after_bounces. apply Nat.iter_succ_r. Qed.

Lemma after_bounces_ok sw scene iter k st :
  loop_ok scene st → loop_ok scene (after_bounces sw scene iter k st).
Proof.
  intros Hok. induction k as [|k IH]; [done|].
  rewrite after_bounces_S. by apply bounce_ok.
Qed.

Lemma after_bounces_num_paths sw scene iter k m st :
  loop_ok scene st → (k ≤ m)%nat →
  num_paths (after_bounces sw scene iter m st)
  <= num_paths (after_bounces sw scene iter k st).
Proof.
  intros Hok Hkm. induction Hkm as [|m Hkm IH]; [lia|].
  rewrite after_bounces_S.
  pose proof (bounce_ok sw scene iter _ (after_bounces_ok sw scene iter m st Hok)) as [_ Hle].
  lia.
Qed.

Lemma after_bounces_depth sw scene iter k st :
  0 <= depth st → depth st + Z.of_nat k <= INT_MAX →
  depth (after_bounces sw scene iter k st) = depth st + Z.of_nat k.
Proof.
  intros Hd Hmax. induction k as [|k IH]; [simpl; lia|].
  rewrite after_bounces_S. unfold bounce. cbn [depth]. rewrite IH by lia.
  rewrite wrap32_id; [lia|]. unfold int_range, INT_MIN, INT_MAX in *. lia.
Qed.

(** With enough fuel the loop returns after its last turn. *)
Lemma bounce_loop_run sw scene iter K : ∀ fuel st,
  ends_after sw scene iter st K → (K ≤ fuel)%nat →
  bounce_loop sw scene iter fuel st
  = Some (complete scene (after_bounces sw scene iter K st)).
Proof.
  induction K as [|K IH]; intros fuel st (HK & Hend & Hbefore) Hfuel; [lia|].
  destruct fuel as [|fuel]; [lia|]. cbn [bounce_loop].
  destruct K as [|K].
  - change (after_bounces sw scene iter 1 st) with (bounce sw scene iter st) in *.
    by rewrite Hend.
  - pose proof (Hbefore 1%nat ltac:(lia)) as Hfirst.
    change (after_bounces sw scene iter 1 st) with (bounce sw scene iter st) in Hfirst.
    rewrite Hfirst.
    rewrite IH with (st := bounce sw scene iter st); [|split; [lia|split]|lia].
    + by rewrite <- after_bounces_S_r.
    + by rewrite <- after_bounces_S_r.
    + intros j Hj. rewrite <- after_bounces_S_r. apply Hbefore. lia.
Qed.

(** The first turn, from 1 on, at which a test that holds at turn [n] holds. *)
Lemma first_turn (P : nat → bool) (n : nat) :
  (1 ≤ n)%nat → P n = true →
  ∃ K, (1 ≤ K ≤ n)%nat ∧ P K = true ∧ ∀ j, (1 ≤ j < K)%nat → P j = false.
Proof.
  intros Hn HP.
  assert (Hsearch : ∀ m,
            (∀ j, (1 ≤ j ≤ m)%nat → P j = false) ∨
            ∃ K, (1 ≤ K ≤ m)%nat ∧ P K = true ∧ ∀ j, (1 ≤ j < K)%nat → P j = false).
  { induction m as [|m [Hnone|(K & HK & HPK & Hleast)]].
    - left. intros j Hj. lia.
    - destruct (P (S m)) eqn:E.
      + right. exists (S m). split; [lia|]. split; [done|].
        intros j Hj. apply Hnone. lia.
      + left. intros j Hj. destruct (decide (j = S m)) as [->|]; [done|].
        apply Hnone. lia.
    - right. exists K. split; [lia|done]. }
  destruct (Hsearch n) as [Hnone|Hfound]; [|done].
  rewrite Hnone in HP by lia. done.
Qed.

Lemma pixelcount_ok scene :
  camera_ok (camera scene) →
  pixelcount scene
  = ix (resolution (camera scene)) * iy (resolution (camera scene)) ∧
  0 <= pixelcount scene.
Proof.
  intros (Hx & Hy & Hmax). unfold pixelcount.
  rewrite wrap32_id; [split; [done|nia]|].
  unfold int_range, INT_MIN. nia.
Qed.

Lemma loop_entry_ok scene iter d :
  camera_ok (camera scene) → device_sized scene d →
  loop_ok scene (loop_entry scene iter d).
Proof.
  intros Hcam (Hi & Hp & Hx & Hii & Hpi).
  destruct (pixelcount_ok scene Hcam) as [_ Hpos].
  split; [|simpl; lia].
  unfold device_sized, loop_entry, generateRayFromCamera.
  cbn [mem dev_image dev_paths dev_intersections dev_isect_ids dev_ps_ids].
  by rewrite generateRayFromCamera_on_length.
Qed.

(** What the loop is entered with: one path per pixel, in slot order, white,
    with [traceDepth] bounces. *)
Lemma loop_entry_paths scene iter d :
  camera_ok (camera scene) → device_sized scene d →
  let paths := dev_paths (mem (loop_entry scene iter d)) in
  pixelIndex <$> paths = seqZ 0 (pixelcount scene) ∧
  Forall (λ seg, remainingBounces seg = traceDepth scene ∧
                 color seg = Vec3 (lit 1) (lit 1) (lit 1)) paths.
Proof.
  intros Hcam (_ & Hp & _) paths.
  destruct (pixelcount_ok scene Hcam) as [Hpc _]. rewrite Hpc in *.
  by apply generateRayFromCamera_all.
Qed.

(** A turn entered with no path that has a bounce left ends with no
    active path. *)
Lemma bounce_all_spent sw scene iter st :
  loop_ok scene st →
  Forall (λ p, ¬ remainingBounces p > 0) (dev_paths (mem st)) →
  num_paths (bounce sw scene iter st) = 0.
Proof.
  intros Hok Hspent.
  assert (Hev : paths_evolve (λ p p' : PathSegment F,
                    ¬ remainingBounces p > 0 → ¬ remainingBounces p' > 0)
                  (dev_paths (mem st)) (dev_paths (mem (bounce sw scene iter st)))).
  { apply bounce_evolves; try done; try tauto.
    intros depth idx isect p Hp. by rewrite shadeMaterial_thread_spent. }
  assert (Hall : Forall (λ p, ¬ remainingBounces p > 0)
                   (dev_paths (mem (bounce sw scene iter st)))).
  { eapply paths_evolve_Forall; [|exact Hev|exact Hspent]. simpl. auto. }
  destruct Hok as [Hsized Hn].
  destruct (bounce_compacts sw scene iter st Hsized Hn)
    as (_ & _ & _ & Halive & _ & Hcount & _).
  rewrite Hcount.
  destruct (take _ _) as [|p l] eqn:E; [done|].
  apply Forall_cons in Halive as [Hp _].
  assert (Hin : p ∈ dev_paths (mem (bounce sw scene iter st))).
  { eapply subseteq_take. rewrite E. by left. }
  rewrite Forall_forall in Hall. by apply Hall in Hin.
Qed.

(** The loop of [pathtrace] ends, in at most [max 1 traceDepth] turns. *)
Lemma loop_ends sw scene iter d :
  camera_ok (camera scene) → device_sized scene d → int_range (traceDepth scene) →
  ∃ K, ends_after sw scene iter (loop_entry scene iter d) K ∧
       Z.of_nat K <= Z.max 1 (traceDepth scene).
Proof.
  intros Hcam Hsized Hrange.
  pose proof (loop_entry_ok scene iter d Hcam Hsized) as Hok.
  destruct (decide (1 <= traceDepth scene)) as [Hpos|Hnonpos].
  - destruct (first_turn
                (λ j, iterationComplete scene
                        (after_bounces sw scene iter j (loop_entry scene iter d)))
                (Z.to_nat (traceDepth scene))) as (K & HK & Hend & Hleast); [lia| |].
    + unfold iterationComplete. rewrite after_bounces_depth.
      * simpl. rewrite bool_decide_eq_true_2; [done|lia].
      * simpl. lia.
      * simpl. destruct Hrange. lia.
    + exists K. split; [split; [lia|done]|lia].
  - exists 1%nat. split; [|lia]. split; [lia|]. split; [|intros j Hj; lia].
    change (after_bounces sw scene iter 1 (loop_entry scene iter d))
      with (bounce sw scene iter (loop_entry scene iter d)).
    unfold iterationComplete. rewrite bounce_all_spent; [|done|].
    + by rewrite orb_true_r.
    + destruct (loop_entry_paths scene iter d Hcam Hsized) as [_ Hall].
      eapply Forall_impl; [exact Hall|]. simpl. intros p [-> _]. lia.
Qed.

End LoopFacts.

Section Termination.
Context {F : Type} `{FloatOps F} `{Externals F}.

Lemma shader_applications_le sw scene iter K st p :
  (shader_applications sw scene iter K st p ≤ K)%nat.
Proof.
  unfold shader_applications.
  etransitivity; [apply length_filter|]. by rewrite length_seq.
Qed.

(** C6: for a trace depth of 1 or more, which the spec requires of the
    caller, the while loop of [pathtrace] ends: there is a turn [K], at
    least the first and at most [traceDepth], such that any fuel from [K] on
    returns the state after [K] turns; the test
    [depth == traceDepth || num_paths == 0] holds after turn [K] and after
    no earlier turn; [depth] counts the turns, so that leaving through
    [depth == traceDepth] means exactly [traceDepth] launches of
    [shadeMaterial]; and the launches that ran a thread for a given path,
    whether or not the thread wrote to it, are at most [traceDepth]. *)
Theorem bounce_loop_terminates sw scene iter d :
  camera_ok (camera scene) → device_sized scene d → int_range (traceDepth scene) →
  1 <= traceDepth scene →
  let entry := loop_entry scene iter d in
  let after := λ k, after_bounces sw scene iter k entry in
  ∃ K : nat,
    (∀ fuel, (K ≤ fuel)%nat →
       bounce_loop sw scene iter fuel entry = Some (complete scene (after K))) ∧
    (1 ≤ K)%nat ∧
    (∀ j, (1 ≤ j < K)%nat →
       depth (after j) ≠ traceDepth scene ∧ num_paths (after j) ≠ 0) ∧
    (depth (after K) = traceDepth scene ∨ num_paths (after K) = 0) ∧
    depth (after K) = Z.of_nat K ∧
    (depth (after K) = traceDepth scene → Z.of_nat K = traceDepth scene) ∧
    Z.of_nat K <= traceDepth scene ∧
    ∀ p, Z.of_nat (shader_applications sw scene iter K entry p) <= traceDepth scene.
Proof.
  intros Hcam Hsized Hrange Hpos entry after.
  destruct (loop_ends sw scene iter d Hcam Hsized Hrange)
    as (K & (HK & Hend & Hbefore) & Hmax).
  assert (Hdepth : depth (after K) = Z.of_nat K).
  { assert (Hd0 : depth entry = 0) by reflexivity.
    destruct Hrange as [_ Hr]. unfold INT_MAX in *.
    unfold after. rewrite after_bounces_depth; rewrite Hd0; unfold INT_MAX; lia. }
  exists K. split; [|split; [done|split; [|split; [|split; [done|split; [|split; [lia|]]]]]]].
  - intros fuel Hfuel. by apply bounce_loop_run.
  - intros j Hj. specialize (Hbefore j Hj). unfold iterationComplete in Hbefore.
    apply orb_false_iff in Hbefore as [Hd Hn].
    apply bool_decide_eq_false in Hd. apply bool_decide_eq_false in Hn. done.
  - unfold iterationComplete in Hend. apply orb_true_iff in Hend as [Hd|Hn].
    + left. by apply bool_decide_eq_true in Hd.
    + right. by apply bool_decide_eq_true in Hn.
  - intros Hd. by rewrite <- Hdepth.
  - intros p. pose proof (shader_applications_le sw scene iter K entry p) as Hle. lia.
Qed.

End Termination.

(** [bounce_loop_terminates] on the small scene with a trace depth of 3:
    the loop returns within 3 turns. *)
Lemma bounce_loop_terminates_witness :
  let entry := @loop_entry Z ZFloat toy (toy_scene 3) 1 (toy_device 2) in
  ∃ K, (K ≤ 3)%nat ∧
    @bounce_loop Z ZFloat toy source_switches (toy_scene 3) 1 K entry
    = Some (complete (toy_scene 3)
              (@after_bounces Z ZFloat toy source_switches (toy_scene 3) 1 K entry)).
Proof.
  intros entry.
  destruct (@bounce_loop_terminates Z ZFloat toy source_switches (toy_scene 3) 1
              (toy_device 2))
    as (K & Hrun & _ & _ & _ & _ & _ & Hmax & _).
  - vm_compute. repeat split; discriminate.
  - vm_compute. repeat split.
  - vm_compute. split; discriminate.
  - simpl. lia.
  - exists K. split; [simpl in Hmax; lia|]. by apply Hrun.
Defined.

(** On the small scene at trace depth 3 the loop takes three turns, and
    the path of pixel 0 is shaded in each. *)
Example three_turns_at_depth_three :
  let entry := @loop_entry Z ZFloat toy (toy_scene 3) 1 (toy_device 2) in
  @bounce_loop Z ZFloat toy source_switches (toy_scene 3) 1 2 entry = None ∧
  is_Some (@bounce_loop Z ZFloat toy source_switches (toy_scene 3) 1 3 entry) ∧
  @shader_applications Z ZFloat toy source_switches (toy_scene 3) 1 3 entry 0 = 3%nat.
Proof.
  vm_compute. split; [reflexivity|]. split; [eexists; reflexivity | reflexivity].
Qed.

(** A trace depth of 0 is outside the contract of the caller.  The loop
    tests at the end of its body, so it still takes one turn there: the
    paths have no bounce left, the threads of [shadeMaterial] write nothing,
    and the loop ends on [num_paths == 0] with the paths as the generator
    wrote them. *)
Example one_turn_at_depth_zero :
  let entry := @loop_entry Z ZFloat toy (toy_scene 0) 1 (toy_device 2) in
  let last := @after_bounces Z ZFloat toy source_switches (toy_scene 0) 1 1 entry in
  @bounce_loop Z ZFloat toy source_switches (toy_scene 0) 1 1 entry
    = Some (complete (toy_scene 0) last) ∧
  depth last = 1 ∧ num_paths last = 0 ∧
  written_by_generator <$> dev_paths (mem last)
    = written_by_generator <$> dev_paths (mem entry).
Proof. vm_compute. repeat split. Qed.

(** ** The accumulator *)

Section Accumulator.
Context {F : Type} `{FloatOps F} `{Externals F}.
Implicit Types (image : list (vec3 F)) (paths : list (PathSegment F)).

Lemma finalGather_thread_length image (p : PathSegment F) :
  length (finalGather_thread image p) = length image.
Proof.
  unfold finalGather_thread, zalter. case_bool_decide; [apply length_alter | done].
Qed.

Lemma gather_fold_length paths image :
  length (foldl finalGather_thread image paths) = length image.
Proof.
  revert image. induction paths as [|p paths IH]; intros image; simpl; [done|].
  by rewrite IH, finalGather_thread_length.
Qed.

(** A pixel no gathered path names keeps its value. *)
Lemma gather_fold_other paths image (i : nat) :
  Z.of_nat i ∉ pixelIndex <$> paths →
  foldl finalGather_thread image paths !! i = image !! i.
Proof.
  revert image. induction paths as [|p paths IH]; intros image Hnot; simpl; [done|].
  rewrite fmap_cons in Hnot. apply not_elem_of_cons in Hnot as [Hne Hnot].
  rewrite IH by done. unfold finalGather_thread, zalter.
  case_bool_decide; [|done]. apply list_lookup_alter_ne. lia.
Qed.

(** A pixel that exactly one gathered path names gets that path's colour
    added, once. *)
Lemma gather_fold_pixel paths image (p : PathSegment F) :
  NoDup (pixelIndex <$> paths) → p ∈ paths → 0 <= pixelIndex p →
  foldl finalGather_thread image paths !! Z.to_nat (pixelIndex p)
  = (λ px, vadd px (color p)) <$> image !! Z.to_nat (pixelIndex p).
Proof.
  revert image. induction paths as [|q paths IH]; intros image Hnodup Hin Hpos.
  { by apply elem_of_nil in Hin. }
  rewrite fmap_cons in Hnodup. apply NoDup_cons in Hnodup as [Hq Hnodup].
  simpl. apply elem_of_cons in Hin as [->|Hin].
  - rewrite gather_fold_other by (rewrite Z2Nat.id; done).
    unfold finalGather_thread, zalter. rewrite bool_decide_eq_true_2 by done.
    apply list_lookup_alter_eq.
  - rewrite IH by done. f_equal.
    unfold finalGather_thread, zalter. case_bool_decide; [|done].
    apply list_lookup_alter_ne. intros Heq. apply Hq.
    apply Z2Nat.inj in Heq; [|done..]. rewrite Heq.
    by apply list_elem_of_fmap_2.
Qed.

Lemma NoDup_fmap_eq {A B} (f : A → B) (l : list A) x y :
  NoDup (f <$> l) → x ∈ l → y ∈ l → f x = f y → x = y.
Proof.
  induction l as [|a l IH]; intros Hnodup Hx Hy Hf.
  { by apply elem_of_nil in Hx. }
  rewrite fmap_cons in Hnodup. apply NoDup_cons in Hnodup as [Ha Hnodup].
  apply elem_of_cons in Hx as [->|Hx]; apply elem_of_cons in Hy as [->|Hy];
    try done.
  - exfalso. apply Ha. rewrite Hf. by apply list_elem_of_fmap_2.
  - exfalso. apply Ha. rewrite <- Hf. by apply list_elem_of_fmap_2.
  - by apply IH.
Qed.

Lemma same_pixel_shade iter depth materials idx isect (p : PathSegment F) :
  scatterRay_keeps_pixelIndex →
  same_pixel p (shadeMaterial_thread iter depth materials idx isect p).
Proof.
  intros Hpx. unfold same_pixel, shadeMaterial_thread.
  repeat case_match; simpl; try done.
Qed.

(** Through any number of turns the array holds the paths of the same
    pixels. *)
Lemma after_bounces_pixels sw scene iter k st :
  scatterRay_keeps_pixelIndex → loop_ok scene st →
  pixelIndex <$> dev_paths (mem (after_bounces sw scene iter k st))
  ≡ₚ pixelIndex <$> dev_paths (mem st).
Proof.
  intros Hpx Hok. induction k as [|k IH]; [done|].
  rewrite after_bounces_S, <- IH.
  apply paths_evolve_pixels, bounce_evolves.
  - done.
  - unfold same_pixel. congruence.
  - done.
  - intros. by apply same_pixel_shade.
  - by apply after_bounces_ok.
Qed.

(** The loop does not write the image. *)
Lemma bounce_image sw scene iter st :
  dev_image (mem (bounce sw scene iter st)) = dev_image (mem st).
Proof.
  unfold bounce, shade_stage, sort_stage, material_sort, trace_stage.
  by destruct (MATERIALS sw).
Qed.

Lemma after_bounces_image sw scene iter k st :
  dev_image (mem (after_bounces sw scene iter k st)) = dev_image (mem st).
Proof.
  induction k as [|k IH]; [done|]. by rewrite after_bounces_S, bounce_image.
Qed.

(** The iteration returns, and what it returns. *)
Lemma pathtrace_run sw scene iter d K fuel :
  ends_after sw scene iter (loop_entry scene iter d) K → (K ≤ fuel)%nat →
  pathtrace sw scene iter fuel d
  = Some (gather (complete scene
                    (after_bounces sw scene iter K (loop_entry scene iter d)))).
Proof.
  intros Hends Hfuel. unfold pathtrace. by rewrite (bounce_loop_run _ _ _ K).
Qed.

(** The final array: one path per pixel. *)
Lemma final_paths sw scene iter d K :
  camera_ok (camera scene) → device_sized scene d → scatterRay_keeps_pixelIndex →
  let paths := dev_paths (mem (after_bounces sw scene iter K (loop_entry scene iter d))) in
  length paths = Z.to_nat (pixelcount scene) ∧
  pixelIndex <$> paths ≡ₚ seqZ 0 (pixelcount scene) ∧
  NoDup (pixelIndex <$> paths).
Proof.
  intros Hcam Hsized Hpx paths.
  pose proof (loop_entry_ok scene iter d Hcam Hsized) as Hok.
  pose proof (after_bounces_ok sw scene iter K _ Hok) as [(_ & Hlen & _) _].
  pose proof (after_bounces_pixels sw scene iter K _ Hpx Hok) as Hperm.
  destruct (loop_entry_paths scene iter d Hcam Hsized) as [Hseq _].
  rewrite Hseq in Hperm.
  split; [done|]. split; [done|].
  unfold paths. rewrite Hperm. apply NoDup_seqZ.
Qed.

(** What [finalGather] over the whole final array does to a pixel. *)
Lemma gather_final sw scene iter d K p :
  camera_ok (camera scene) → device_sized scene d → scatterRay_keeps_pixelIndex →
  let final := complete scene (after_bounces sw scene iter K (loop_entry scene iter d)) in
  p ∈ dev_paths (mem final) →
  0 <= pixelIndex p < pixelcount scene ∧
  ∃ old, dev_image d !! Z.to_nat (pixelIndex p) = Some old ∧
         dev_image (gather final) !! Z.to_nat (pixelIndex p) = Some (vadd old (color p)).
Proof.
  intros Hcam Hsized Hpx final Hin.
  destruct (final_paths sw scene iter d K Hcam Hsized Hpx) as (Hlen & Hperm & Hnodup).
  pose proof (loop_entry_ok scene iter d Hcam Hsized) as Hok.
  pose proof (after_bounces_ok sw scene iter K _ Hok) as [(Himg & _) _].
  assert (Hrange : 0 <= pixelIndex p < pixelcount scene).
  { assert (Hp : pixelIndex p ∈ seqZ 0 (pixelcount scene)).
    { rewrite <- Hperm. by apply list_elem_of_fmap_2. }
    apply elem_of_seqZ in Hp. lia. }
  split; [done|].
  assert (Himg0 : dev_image (mem (after_bounces sw scene iter K (loop_entry scene iter d)))
                  = dev_image d).
  { by rewrite after_bounces_image. }
  destruct (lookup_lt_is_Some_2 (dev_image d) (Z.to_nat (pixelIndex p))) as [old Hold].
  { rewrite <- Himg0, Himg. lia. }
  exists old. split; [done|].
  unfold gather, finalGather, final, complete. cbn [dev_image mem num_paths dev_paths].
  rewrite take_ge by lia.
  rewrite gather_fold_pixel; [|done|done|lia].
  by rewrite Himg0, Hold.
Qed.

(** With one path per pixel the order of the gathering threads does not
    matter. *)
Lemma gather_fold_perm paths paths' image :
  NoDup (pixelIndex <$> paths) → paths ≡ₚ paths' →
  foldl finalGather_thread image paths = foldl finalGather_thread image paths'.
Proof.
  intros Hnodup Hperm.
  assert (Hnodup' : NoDup (pixelIndex <$> paths')) by (by rewrite <- Hperm).
  apply list_eq. intros i.
  destruct (decide (Z.of_nat i ∈ pixelIndex <$> paths)) as [Hin|Hnot].
  - apply list_elem_of_fmap in Hin as (p & Hp & Hin).
    assert (Hi : i = Z.to_nat (pixelIndex p)) by lia.
    rewrite Hi, !gather_fold_pixel; try done; try lia.
    by rewrite <- Hperm.
  - rewrite !gather_fold_other; [done| |done]. by rewrite <- Hperm.
Qed.

(** The indices [pathtrace] writes through are inside the arrays: the slot
    of every generator thread that passes the guard, and the pixel of every
    gathered path. *)
Lemma pathtrace_indices_in_range sw scene iter d K :
  camera_ok (camera scene) → device_sized scene d → scatterRay_keeps_pixelIndex →
  (∀ x y, (x, y) ∈ grid2d (camera scene) →
     x < ix (resolution (camera scene)) → y < iy (resolution (camera scene)) →
     0 <= pixel_slot (camera scene) x y < Z.of_nat (length (dev_paths d))) ∧
  Forall (λ p, 0 <= pixelIndex p < Z.of_nat (length (dev_image d)))
    (dev_paths (mem (complete scene
       (after_bounces sw scene iter K (loop_entry scene iter d))))).
Proof.
  intros Hcam Hsized Hpx.
  destruct (pixelcount_ok scene Hcam) as [Hpc Hpos].
  pose proof Hsized as (Himg & Hpaths & _).
  split.
  - intros x y Hin Hx Hy. apply elem_of_grid2d in Hin as [Hx0 Hy0].
    destruct (pixel_slot_in_range (camera scene) x y Hcam) as [-> Hr]; [lia..|].
    rewrite Hpaths. lia.
  - apply Forall_forall. intros p Hin.
    destruct (gather_final sw scene iter d K p Hcam Hsized Hpx Hin) as [Hr _].
    rewrite Himg. lia.
Qed.

(** C1: an iteration returns, and its [finalGather] runs over [pixelcount]
    slots whichever way the loop ended: the array then holds one path for
    every pixel, and every pixel of the image has had the colour of its one
    path added to what it held, once, in whatever order the gathering
    threads run. *)
Theorem pathtrace_accumulates sw scene iter d :
  camera_ok (camera scene) → device_sized scene d → int_range (traceDepth scene) →
  scatterRay_keeps_pixelIndex →
  ∃ K : nat, ∀ fuel, (K ≤ fuel)%nat →
    ∃ d', pathtrace sw scene iter fuel d = Some d' ∧
      dev_image d' = finalGather (pixelcount scene) (dev_image d) (dev_paths d') ∧
      length (dev_paths d') = Z.to_nat (pixelcount scene) ∧
      pixelIndex <$> dev_paths d' ≡ₚ seqZ 0 (pixelcount scene) ∧
      length (dev_image d') = length (dev_image d) ∧
      (∀ order, order ≡ₚ dev_paths d' →
         foldl finalGather_thread (dev_image d) order = dev_image d') ∧
      ∀ i : nat, Z.of_nat i < pixelcount scene →
        ∃ p old,
          p ∈ dev_paths d' ∧ pixelIndex p = Z.of_nat i ∧
          (∀ q, q ∈ dev_paths d' → pixelIndex q = Z.of_nat i → q = p) ∧
          dev_image d !! i = Some old ∧
          dev_image d' !! i = Some (vadd old (color p)).
Proof.
  intros Hcam Hsized Hrange Hpx.
  destruct (loop_ends sw scene iter d Hcam Hsized Hrange) as (K & Hends & _).
  exists K. intros fuel Hfuel. eexists. split; [by apply pathtrace_run|].
  destruct (final_paths sw scene iter d K Hcam Hsized Hpx) as (Hlen & Hperm & Hnodup).
  set (final := complete scene
                  (after_bounces sw scene iter K (loop_entry scene iter d))).
  assert (Himg0 : dev_image (mem (after_bounces sw scene iter K (loop_entry scene iter d)))
                  = dev_image d).
  { by rewrite after_bounces_image. }
  split; [|split; [done|split; [done|split; [|split]]]].
  - unfold gather, final, complete. cbn [dev_image dev_paths mem num_paths].
    by rewrite Himg0.
  - unfold gather, finalGather, final, complete. cbn [dev_image mem].
    by rewrite gather_fold_length, Himg0.
  - intros order Horder.
    unfold gather, finalGather, final, complete.
    cbn [dev_image dev_paths mem num_paths] in *.
    rewrite take_ge by lia. rewrite Himg0.
    symmetry. apply gather_fold_perm; [done|by symmetry].
  - intros i Hi.
    assert (Hin : Z.of_nat i ∈ pixelIndex <$> dev_paths (mem final)).
    { unfold final, complete. cbn [mem]. rewrite Hperm. apply elem_of_seqZ. lia. }
    apply list_elem_of_fmap in Hin as (p & Hp & Hin).
    destruct (gather_final sw scene iter d K p Hcam Hsized Hpx Hin)
      as (_ & old & Hold & Hnew).
    rewrite <- Hp, Nat2Z.id in Hold, Hnew.
    exists p, old. repeat split; try done.
    intros q Hq Hqi.
    apply (NoDup_fmap_eq pixelIndex (dev_paths (mem final))); try done.
    congruence.
Qed.

End Accumulator.

(** [pathtrace_accumulates] on the small scene: an iteration of trace
    depth 3 returns with a two-pixel image. *)
Lemma pathtrace_accumulates_witness :
  ∃ K d', @pathtrace Z ZFloat toy source_switches (toy_scene 3) 1 K (toy_device 2)
          = Some d' ∧ length (dev_image d') = 2%nat.
Proof.
  destruct (@pathtrace_accumulates Z ZFloat toy source_switches (toy_scene 3) 1
              (toy_device 2)) as (K & Hrun).
  - vm_compute. repeat split; discriminate.
  - vm_compute. repeat split.
  - vm_compute. split; discriminate.
  - intros seg i n m rng. reflexivity.
  - destruct (Hrun K (le_n K)) as (d' & Hd' & _ & _ & _ & Hlen & _ & _).
    exists K, d'. split; [exact Hd' | exact Hlen].
Defined.

(** ** The invariants of a path *)

Section Invariants.
Context {F : Type} `{FloatOps F} `{Externals F}.

Lemma vnotneg_channels (a : vec3 F) :
  vnotneg a = true ↔
  fnotneg (vx a) = true ∧ fnotneg (vy a) = true ∧ fnotneg (vz a) = true.
Proof. unfold vnotneg. rewrite !andb_true_iff. tauto. Qed.

(** A value [>= 0] is not negative. *)
Lemma fnotneg_nonneg (a : F) : fleb (lit 0) a = true → fnotneg a = true.
Proof. unfold fnotneg. by intros ->. Qed.

Lemma vnotneg_nonneg (a : vec3 F) : vnonneg a = true → vnotneg a = true.
Proof.
  unfold vnonneg. rewrite !andb_true_iff, vnotneg_channels.
  intros [[Hx Hy] Hz]. auto using fnotneg_nonneg.
Qed.

Lemma vnotneg_vscale (a : vec3 F) s :
  fmul_keeps_notneg → vnotneg a = true → fnotneg s = true →
  vnotneg (vscale a s) = true.
Proof.
  intros (_ & _ & Hmul). rewrite !vnotneg_channels. simpl.
  intros (Hx & Hy & Hz) Hs. auto.
Qed.

Lemma vnotneg_vmul (a b : vec3 F) :
  fmul_keeps_notneg → vnotneg a = true → vnotneg b = true →
  vnotneg (vmul a b) = true.
Proof.
  intros (_ & _ & Hmul). rewrite !vnotneg_channels. simpl.
  intros (Hx & Hy & Hz) (Hx' & Hy' & Hz'). auto.
Qed.

Lemma path_step_refl (p : PathSegment F) : path_step p p.
Proof. unfold path_step. split; [done|]. split; [lia|done]. Qed.

Lemma path_step_trans (p q r : PathSegment F) :
  path_step p q → path_step q r → path_step p r.
Proof.
  intros (Hpx & Hrb & Hc) (Hpx' & Hrb' & Hc'). unfold path_step.
  split; [congruence|]. split; [lia|auto].
Qed.

Lemma path_step_set_intersect (p : PathSegment F) v : path_step p (set_intersect p v).
Proof. unfold path_step, set_intersect. simpl. split; [done|]. split; [lia|done]. Qed.

(** What a shading thread does to its path keeps the invariant. *)
Lemma path_step_shade iter depth materials idx isect (p : PathSegment F) :
  fmul_keeps_notneg →
  scatterRay_keeps_pixelIndex → scatterRay_keeps_bounces → scatterRay_keeps_notneg →
  materials_nonneg materials →
  path_step p (shadeMaterial_thread iter depth materials idx isect p).
Proof.
  intros Hlaw Hpx Hrb Hnn Hmat. unfold shadeMaterial_thread.
  destruct (Hmat (materialId isect)) as [Hcol Hem].
  apply vnotneg_nonneg in Hcol. apply fnotneg_nonneg in Hem.
  destruct (fgtb (t isect) (lit 0) && bool_decide (remainingBounces p > 0)) eqn:Hhit.
  - apply andb_prop in Hhit as [_ Hpos]. apply bool_decide_eq_true_1 in Hpos.
    destruct (fgtb (emittance _) (lit 0)).
    + unfold path_step. simpl. split; [done|]. split; [lia|].
      intros Hc. apply vnotneg_vmul; [done..|]. by apply vnotneg_vscale.
    + unfold path_step. simpl. rewrite Hpx, Hrb. split; [done|]. split.
      * pose proof (wrap32_le_nonneg (remainingBounces p - 1)). lia.
      * intros Hc. by apply Hnn.
  - case_bool_decide as Hpos; [|apply path_step_refl].
    unfold path_step. simpl. split; [done|]. split; [lia|].
    intros _. destruct Hlaw as (H00 & _). apply vnotneg_channels. simpl.
    auto using fnotneg_nonneg.
Qed.

(** C5, amended: in every stage of an iteration, a path keeps its
    [pixelIndex], its [remainingBounces] does not grow, and no channel of
    its throughput becomes negative: each stays [>= 0] or becomes a NaN
    (for material colours and emittances [>= 0]).  The generator issues
    white paths; the intersection, sort, shading and compaction stages of
    any turn each change the array by [path_step] up to moving paths; the
    accumulation does not write paths; so after any number of turns every
    path has a throughput with no negative channel and at most [traceDepth]
    bounces left.  The law of the product assumed here is the one IEEE
    arithmetic has ([Binary32_mul_notneg]). *)
Theorem path_invariants sw scene iter d :
  camera_ok (camera scene) → device_sized scene d →
  fmul_keeps_notneg →
  scatterRay_keeps_pixelIndex → scatterRay_keeps_bounces → scatterRay_keeps_notneg →
  materials_nonneg (materials scene) →
  let entry := loop_entry scene iter d in
  Forall (λ p, vnonneg (color p) = true ∧ remainingBounces p = traceDepth scene)
    (dev_paths (mem entry)) ∧
  (∀ st, loop_ok scene st →
     let d1 := trace_stage sw scene st in
     let d2 := sort_stage sw (num_paths st) d1 in
     let d3 := shade_stage scene iter (num_paths st) (wrap32 (depth st + 1)) d2 in
     paths_evolve path_step (dev_paths (mem st)) (dev_paths d1) ∧
     paths_evolve path_step (dev_paths d1) (dev_paths d2) ∧
     paths_evolve path_step (dev_paths d2) (dev_paths d3) ∧
     paths_evolve path_step (dev_paths d3) (dev_paths (mem (bounce sw scene iter st)))) ∧
  (∀ st, dev_paths (gather st) = dev_paths (mem st)) ∧
  ∀ k,
    paths_evolve path_step (dev_paths (mem entry))
      (dev_paths (mem (after_bounces sw scene iter k entry))) ∧
    Forall (λ p, vnotneg (color p) = true ∧ remainingBounces p <= traceDepth scene)
      (dev_paths (mem (after_bounces sw scene iter k entry))).
Proof.
  intros Hcam Hsized Hlaw Hpx Hrb Hnn Hmat entry.
  assert (Hentry : Forall (λ p, vnonneg (color p) = true ∧
                                remainingBounces p = traceDepth scene)
                     (dev_paths (mem entry))).
  { destruct (loop_entry_paths scene iter d Hcam Hsized) as [_ Hall].
    eapply Forall_impl; [exact Hall|]. simpl. intros p [-> ->]. split; [|done].
    destruct Hlaw as (_ & H01 & _). unfold vnonneg. simpl. by rewrite H01. }
  assert (Hturn : ∀ st, loop_ok scene st →
            paths_evolve path_step (dev_paths (mem st))
              (dev_paths (mem (bounce sw scene iter st)))).
  { intros st Hok.
    apply bounce_evolves;
      [apply path_step_refl | apply path_step_trans | apply path_step_set_intersect
      | intros; by apply path_step_shade | done]. }
  split; [done|]. split; [|split; [done|]].
  - intros st [Hsized' Hn] d1 d2 d3.
    pose proof (trace_stage_sized sw scene st Hsized') as Hs1.
    pose proof (sort_stage_paths sw scene (num_paths st) _ Hs1) as [Hsp Hsd].
    fold d1 in Hs1, Hsp, Hsd. fold d2 in Hsp, Hsd.
    split; [|split; [|split]].
    + apply paths_evolve_pointwise, trace_stage_paths.
      * apply path_step_refl.
      * apply path_step_set_intersect.
    + apply paths_evolve_perm; [apply path_step_refl|].
      symmetry. by eapply take_drop_perm.
    + apply paths_evolve_pointwise, shade_stage_paths.
      * apply path_step_refl.
      * intros. by apply path_step_shade.
    + apply paths_evolve_perm; [apply path_step_refl|].
      assert (Hlen : (Z.to_nat (num_paths st) ≤ length (dev_paths d3))%nat).
      { unfold d3, d2, d1. rewrite shaded_paths_length by done. lia. }
      destruct (compact_spec _ (dev_paths d3) Hlen) as (_ & _ & _ & _ & Hd & Hp & _).
      symmetry. eapply take_drop_perm; [exact Hp | exact Hd].
  - intros k.
    assert (Hev : paths_evolve path_step (dev_paths (mem entry))
                    (dev_paths (mem (after_bounces sw scene iter k entry)))).
    { induction k as [|k IH]; [apply paths_evolve_refl, path_step_refl|].
      eapply paths_evolve_trans; [apply path_step_trans | exact IH |].
      rewrite after_bounces_S. apply Hturn, after_bounces_ok.
      by apply loop_entry_ok. }
    split; [done|].
    eapply (paths_evolve_Forall path_step
              (λ p, vnotneg (color p) = true ∧ remainingBounces p <= traceDepth scene));
      [|exact Hev|].
    + simpl. intros p p' (_ & Hle & Hc) [Hp Hb]. split; [auto|lia].
    + eapply Forall_impl; [exact Hentry|]. simpl. intros p [Hc Hb].
      split; [by apply vnotneg_nonneg|lia].
Qed.

End Invariants.

(** *** The laws on IEEE single precision *)

(** Not negative: a zero of either sign, a positive number, the positive
    infinity, or the NaN. *)
Lemma Binary32_notneg (a : binary32) :
  @fnotneg binary32 Binary32 a
  = match a with
    | SpecFloat.S754_infinity true | SpecFloat.S754_finite true _ _ => false
    | _ => true
    end.
Proof.
  destruct a as [[]|[]| |[] m e]; try reflexivity.
  unfold fnotneg. cbn [fleb Binary32].
  change (@lit binary32 Binary32 0) with (SpecFloat.S754_zero false).
  unfold SpecFloat.SFleb, SpecFloat.SFcompare.
  by rewrite Z.compare_refl, Pos.compare_cont_refl.
Qed.

(** The product of [binary32] keeps values not negative: it rounds to a
    zero, a number or an infinity of the sign of the exact product, and gives
    the NaN for a zero times an infinity. *)
Lemma Binary32_mul_notneg : @fmul_keeps_notneg binary32 Binary32.
Proof.
  split; [reflexivity|]. split; [reflexivity|].
  intros a b. rewrite !Binary32_notneg. cbn [fmul Binary32].
  destruct a as [[]|[]| |[] m e], b as [[]|[]| |[] m' e']; try done.
  intros _ _. cbn [SpecFloat.SFmul xorb]. unfold SpecFloat.binary_round_aux.
  destruct (SpecFloat.shr_fexp _ _ _ _ _) as [mrs1 e1].
  destruct (SpecFloat.shr_fexp _ _ _ _ _) as [mrs2 e2].
  destruct (SpecFloat.shr_m mrs2); [done| |done].
  by destruct (_ <=? _).
Qed.

Lemma b32_scatter_notneg : @scatterRay_keeps_notneg binary32 Binary32 b32_externals.
Proof.
  intros seg i n m rng Hm Hc. simpl. unfold b32_scatter. cbn [color].
  by apply (@vnotneg_vmul binary32 Binary32); [apply Binary32_mul_notneg|..].
Qed.

Lemma b32_materials_nonneg :
  @materials_nonneg binary32 Binary32 b32_externals b32_materials.
Proof.
  intros id. unfold b32_materials. repeat case_bool_decide; by vm_compute.
Qed.

(** [path_invariants] on single precision: after the two turns of the
    iteration on [b32_scene], the throughput of the path has no negative
    channel. *)
Lemma path_invariants_witness :
  Forall (λ p, @vnotneg binary32 Binary32 (color p) = true ∧ remainingBounces p <= 2)
    (dev_paths (mem (@after_bounces binary32 Binary32 b32_externals source_switches
                       b32_scene 1 2
                       (@loop_entry binary32 Binary32 b32_externals b32_scene 1
                          b32_device)))).
Proof.
  destruct (@path_invariants binary32 Binary32 b32_externals source_switches b32_scene 1
              b32_device) as (_ & _ & _ & Hall).
  - vm_compute. repeat split; discriminate.
  - vm_compute. repeat split.
  - apply Binary32_mul_notneg.
  - intros seg i n m rng. reflexivity.
  - intros seg i n m rng. reflexivity.
  - apply b32_scatter_notneg.
  - apply b32_materials_nonneg.
  - destruct (Hall 2%nat) as [_ Hres]. exact Hres.
Defined.

(** C5 as stated fails on single precision, with material colours and
    emittances that are finite and [>= 0]: the path of the one pixel of
    [b32_scene] is issued with the throughput (1, 1, 1); it scatters off the
    red sphere, which leaves (1, 0, 0); it then hits the light, whose colour
    times emittance, 2 * [FLT_MAX], overflows to the infinity, and the
    channels 0 * infinity are the NaN, for which [0 <= c] fails.  The image
    gets them. *)
Lemma throughput_becomes_nan :
  let inf := SpecFloat.S754_infinity false in
  let nan := SpecFloat.S754_nan in
  let entry := @loop_entry binary32 Binary32 b32_externals b32_scene 1 b32_device in
  let after := λ k, @after_bounces binary32 Binary32 b32_externals source_switches
                      b32_scene 1 k entry in
  @materials_nonneg binary32 Binary32 b32_externals (materials b32_scene) ∧
  color <$> dev_paths (mem entry) = [Vec3 (b32_of_Z 1) (b32_of_Z 1) (b32_of_Z 1)] ∧
  color <$> dev_paths (mem (after 1%nat))
    = [Vec3 (b32_of_Z 1) (b32_of_Z 0) (b32_of_Z 0)] ∧
  color <$> dev_paths (mem (after 2%nat)) = [Vec3 inf nan nan] ∧
  Forall (λ p, @vnonneg binary32 Binary32 (color p) = true) (dev_paths (mem (after 1%nat))) ∧
  ¬ Forall (λ p, @vnonneg binary32 Binary32 (color p) = true)
      (dev_paths (mem (after 2%nat))) ∧
  dev_image <$> @pathtrace binary32 Binary32 b32_externals source_switches b32_scene 1 2
                  b32_device
    = Some [Vec3 inf nan nan].
Proof.
  intros inf nan entry after.
  split; [apply b32_materials_nonneg|].
  split; [by vm_compute|]. split; [by vm_compute|]. split; [by vm_compute|].
  split; [by vm_compute; repeat constructor|]. split; [|by vm_compute].
  intros Hall. vm_compute in Hall. apply Forall_inv in Hall. discriminate.
Qed.

(** ** Paths that have ended *)

Section Terminated.
Context {F : Type} `{FloatOps F} `{Externals F}.

(** Once a turn [k] has set [num_paths], no later turn reaches the slots
    from there on. *)
Lemma after_bounces_tail sw scene iter k m st :
  loop_ok scene st → (k ≤ m)%nat →
  let n := Z.to_nat (num_paths (after_bounces sw scene iter k st)) in
  drop n (dev_paths (mem (after_bounces sw scene iter m st)))
  = drop n (dev_paths (mem (after_bounces sw scene iter k st))).
Proof.
  intros Hok Hkm n. induction Hkm as [|m Hkm IH]; [done|].
  rewrite <- IH, after_bounces_S.
  pose proof (after_bounces_ok sw scene iter m st Hok) as Hokm.
  pose proof (after_bounces_num_paths sw scene iter k m st Hok Hkm) as Hle.
  pose proof (bounce_tail sw scene iter _ Hokm) as Htail.
  destruct Hokm as [_ Hpos].
  set (nm := Z.to_nat (num_paths (after_bounces sw scene iter m st))) in *.
  replace n with (nm + (n - nm))%nat by (unfold n, nm; lia).
  by rewrite <- !drop_drop, Htail.
Qed.

(** After a turn, a path without a bounce left sits at or after
    [num_paths]. *)
Lemma spent_in_tail sw scene iter st slot (p : PathSegment F) :
  loop_ok scene st →
  dev_paths (mem (bounce sw scene iter st)) !! slot = Some p →
  ¬ remainingBounces p > 0 →
  (Z.to_nat (num_paths (bounce sw scene iter st)) ≤ slot)%nat.
Proof.
  intros [Hsized Hn] Hslot Hspent.
  destruct (bounce_compacts sw scene iter st Hsized Hn)
    as (_ & _ & _ & Halive & _).
  destruct (decide (Z.to_nat (num_paths (bounce sw scene iter st)) ≤ slot)%nat)
    as [|Hlt]; [done|].
  exfalso. apply Hspent.
  rewrite Forall_lookup in Halive. apply (Halive slot).
  rewrite lookup_take_lt by lia. done.
Qed.

(** The compaction of a turn keeps the paths its shading launch left. *)
Lemma bounce_shaded_perm sw scene iter st :
  loop_ok scene st →
  dev_paths (mem (bounce sw scene iter st))
  ≡ₚ dev_paths (shade_stage scene iter (num_paths st) (wrap32 (depth st + 1))
                  (sort_stage sw (num_paths st) (trace_stage sw scene st))).
Proof.
  intros [Hsized Hn].
  destruct (bounce_compacts sw scene iter st Hsized Hn) as (Hperm & Hdrop & _).
  by eapply take_drop_perm.
Qed.

(** C10: a path that the shading launch of some turn of the loop leaves
    without a bounce is written by no later stage: no branch of
    [shadeMaterial] changes it; the compaction of that turn puts it in a slot
    at or after [num_paths], which holds it, whole, after that turn, after
    every later turn and when the loop returns; and [finalGather] adds its
    colour as it was then to the pixel it names. *)
Theorem terminated_path_frozen sw scene iter d K j (p : PathSegment F) :
  camera_ok (camera scene) → device_sized scene d →
  scatterRay_keeps_pixelIndex →
  let entry := loop_entry scene iter d in
  let after := λ j, after_bounces sw scene iter j entry in
  let st := after j in
  let k := S j in
  ends_after sw scene iter entry K →
  (k ≤ K)%nat →
  p ∈ dev_paths (shade_stage scene iter (num_paths st) (wrap32 (depth st + 1))
                   (sort_stage sw (num_paths st) (trace_stage sw scene st))) →
  ¬ remainingBounces p > 0 →
  (∀ it depth materials idx isect,
     shadeMaterial_thread it depth materials idx isect p = p) ∧
  ∃ slot : nat,
    (Z.to_nat (num_paths (after k)) ≤ slot)%nat ∧
    (∀ m, (k ≤ m ≤ K)%nat → dev_paths (mem (after m)) !! slot = Some p) ∧
    ∀ fuel, (K ≤ fuel)%nat →
      ∃ d' old,
        pathtrace sw scene iter fuel d = Some d' ∧
        dev_paths d' !! slot = Some p ∧
        dev_image d !! Z.to_nat (pixelIndex p) = Some old ∧
        dev_image d' !! Z.to_nat (pixelIndex p) = Some (vadd old (color p)).
Proof.
  intros Hcam Hsized Hpx entry after st k Hends Hk Hshaded Hspent.
  split. { intros. by apply shadeMaterial_thread_spent. }
  pose proof (loop_entry_ok scene iter d Hcam Hsized) as Hok.
  assert (Hin : p ∈ dev_paths (mem (after k))).
  { unfold after, k. rewrite after_bounces_S.
    rewrite bounce_shaded_perm; [exact Hshaded|]. by apply after_bounces_ok. }
  assert (Hk1 : (1 ≤ k ≤ K)%nat) by (unfold k in *; lia).
  clearbody k. clear Hshaded Hk st. rename Hk1 into Hk.
  apply list_elem_of_lookup in Hin as [slot Hslot].
  assert (Htail : (Z.to_nat (num_paths (after k)) ≤ slot)%nat).
  { unfold after in *. destruct k as [|k]; [lia|].
    rewrite after_bounces_S in *.
    eapply spent_in_tail; [|exact Hslot|exact Hspent].
    by apply after_bounces_ok. }
  assert (Hlater : ∀ m, (k ≤ m ≤ K)%nat → dev_paths (mem (after m)) !! slot = Some p).
  { intros m Hm.
    pose proof (after_bounces_tail sw scene iter k m entry Hok ltac:(lia)) as Hdrop.
    cbv zeta in Hdrop. fold (after k) in Hdrop. fold (after m) in Hdrop.
    replace slot with (Z.to_nat (num_paths (after k))
                       + (slot - Z.to_nat (num_paths (after k))))%nat by lia.
    rewrite <- !lookup_drop, Hdrop, lookup_drop.
    replace (Z.to_nat (num_paths (after k))
             + (slot - Z.to_nat (num_paths (after k))))%nat with slot by lia.
    done. }
  exists slot. split; [done|]. split; [done|].
  intros fuel Hfuel.
  assert (Hfinal : p ∈ dev_paths (mem (complete scene (after K)))).
  { apply list_elem_of_lookup. exists slot. apply Hlater. lia. }
  destruct (gather_final sw scene iter d K p Hcam Hsized Hpx Hfinal)
    as (_ & old & Hold & Hnew).
  eexists _, old. split; [by apply pathtrace_run|].
  split; [|done]. apply Hlater. lia.
Qed.

End Terminated.

(** [terminated_path_frozen] on the small scene at trace depth 1: the path
    of pixel 0 ends in the first turn with colour (2, 2, 2), which is what
    the image gets. *)
Lemma terminated_path_frozen_witness :
  let p := {| ray := {| origin := Vec3 3 0 0; direction := Vec3 0 1 0;
                        intersect := Vec3 3 0 0 |};
              color := Vec3 2 2 2; pixelIndex := 0; remainingBounces := 0 |} in
  ∃ d', @pathtrace Z ZFloat toy source_switches (toy_scene 1) 1 1 (toy_device 2) = Some d' ∧
        dev_image d' !! 0%nat = Some (@vadd Z ZFloat (Vec3 0 0 0) (color p)).
Proof.
  intros p.
  destruct (@terminated_path_frozen Z ZFloat toy source_switches (toy_scene 1) 1
              (toy_device 2) 1 0 p) as (_ & slot & _ & _ & Hfinal).
  - vm_compute. repeat split; discriminate.
  - vm_compute. repeat split.
  - intros seg i n m rng. reflexivity.
  - split; [lia|]. split; [reflexivity|]. intros j Hj. lia.
  - lia.
  - vm_compute. left.
  - simpl. lia.
  - destruct (Hfinal 1%nat (le_n 1)) as (d' & old & Hrun & _ & Hold & Hnew).
    exists d'. split; [exact Hrun|].
    change (Z.to_nat (pixelIndex p)) with 0%nat in *.
    vm_compute in Hold. injection Hold as <-. exact Hnew.
Defined.

(** ** The material sort *)

Section MaterialSort.
Context {F : Type} `{FloatOps F} `{Externals F}.

Lemma insert_by_key_fmap {A B} (f : A → B) tie k v (l : list (Z * A)) :
  prod_map id f <$> insert_by_key tie k v l
  = insert_by_key tie k (f v) (prod_map id f <$> l).
Proof.
  induction l as [|[k' v'] l IH]; [done|].
  rewrite fmap_cons. cbn [insert_by_key prod_map id fst snd]. rewrite length_fmap.
  destruct (_ || _); [done|]. by rewrite fmap_cons, IH.
Qed.

Lemma sort_pairs_fmap {A B} (f : A → B) tie (l : list (Z * A)) :
  foldr (λ kv acc, insert_by_key (tie (length acc)) kv.1 kv.2 acc) [] (prod_map id f <$> l)
  = prod_map id f
      <$> foldr (λ kv acc, insert_by_key (tie (length acc)) kv.1 kv.2 acc) [] l.
Proof.
  induction l as [|[k v] l IH]; [done|].
  rewrite fmap_cons. cbn [foldr prod_map id fst snd]. rewrite IH, length_fmap.
  symmetry. apply (insert_by_key_fmap f _ k v).
Qed.

(** Where one call of [sort_by_key] puts a value is decided by the keys:
    sorting the images of the values under [f] is sorting the values. *)
Lemma sort_by_key_fmap {A B} (f : A → B) tie keys (vals : list A) :
  (sort_by_key tie keys (f <$> vals)).2 = f <$> (sort_by_key tie keys vals).2.
Proof.
  unfold sort_by_key. cbn [snd].
  assert (Hzip : zip keys (f <$> vals) = prod_map id f <$> zip keys vals).
  { revert vals. induction keys as [|k keys IH]; intros [|v vals]; simpl; try done.
    by rewrite IH. }
  rewrite Hzip, sort_pairs_fmap.
  rewrite <- !list_fmap_compose. apply list_fmap_ext. by intros ? [??].
Qed.

(** Two buffers sorted with the same keys, equal keys settled alike, stay
    paired. *)
Lemma sort_by_key_zip {A B} tie keys (a : list A) (b : list B) :
  length keys = length a → length a = length b →
  zip (sort_by_key tie keys a).2 (sort_by_key tie keys b).2 ≡ₚ zip a b.
Proof.
  intros Hka Hab.
  assert (Ha : a = (zip a b).*1) by (rewrite fst_zip; [done|lia]).
  assert (Hb : b = (zip a b).*2) by (rewrite snd_zip; [done|lia]).
  rewrite Ha at 1. rewrite Hb at 2.
  rewrite !sort_by_key_fmap, zip_fst_snd.
  apply sort_by_key_perm. rewrite length_zip. lia.
Qed.

Lemma sort_by_key_alike {A} tie tie' keys (vals : list A) :
  length keys = length vals →
  NoDup keys ∨ (∀ m r, tie m r = tie' m r) →
  sort_by_key tie keys vals = sort_by_key tie' keys vals.
Proof.
  intros Hlen Hk. unfold sort_by_key.
  assert (Hk' : NoDup (zip keys vals).*1 ∨ (∀ m r, tie m r = tie' m r)).
  { by rewrite fst_zip by lia. }
  clear Hk Hlen.
  enough (Heq : foldr (λ kv acc, insert_by_key (tie (length acc)) kv.1 kv.2 acc) []
                  (zip keys vals)
                = foldr (λ kv acc, insert_by_key (tie' (length acc)) kv.1 kv.2 acc) []
                    (zip keys vals)) by (by rewrite Heq).
  induction (zip keys vals) as [|[k v] l IH]; [done|].
  cbn [foldr fst snd]. rewrite <- IH.
  - apply insert_by_key_fresh. destruct Hk' as [Hnd|Hties]; [left|right; apply Hties].
    rewrite fmap_cons in Hnd. apply NoDup_cons in Hnd as [Hk _]. cbn [fst] in Hk.
    by rewrite sort_by_key_pairs_perm.
  - destruct Hk' as [Hnd|Hties]; [left|by right].
    rewrite fmap_cons in Hnd. by apply NoDup_cons in Hnd as [_ Hnd].
Qed.

(** [setMaterialIds] leaves the same keys in both id buffers. *)
Lemma setMaterialIds_keys n (ids1 ids2 : list Z) (isects : list (ShadeableIntersection F)) :
  (Z.to_nat n ≤ length ids1)%nat → (Z.to_nat n ≤ length ids2)%nat →
  (Z.to_nat n ≤ length isects)%nat → 0 <= n →
  take (Z.to_nat n) (setMaterialIds n ids1 ids2 isects).1
  = take (Z.to_nat n) (setMaterialIds n ids1 ids2 isects).2.
Proof.
  intros H1 H2 H3 Hn. unfold setMaterialIds. cbn [fst snd].
  apply list_eq. intros i.
  destruct (decide (i < Z.to_nat n)%nat) as [Hi|Hi].
  - rewrite !lookup_take_lt by done.
    destruct (lookup_lt_is_Some_2 ids1 i) as [a Ha]; [lia|].
    destruct (lookup_lt_is_Some_2 ids2 i) as [b Hb]; [lia|].
    destruct (lookup_lt_is_Some_2 isects i) as [c Hc]; [lia|].
    rewrite !lookup_launch1d, Ha, Hb. simpl.
    rewrite bool_decide_eq_true_2 by lia. by rewrite Hc.
  - rewrite !lookup_take_ge by lia. done.
Qed.

(** What [setMaterialIds] writes to either id buffer. *)
Lemma setMaterialIds_prefix n (ids1 ids2 : list Z) (isects : list (ShadeableIntersection F)) :
  (Z.to_nat n ≤ length ids1)%nat → (Z.to_nat n ≤ length ids2)%nat →
  (Z.to_nat n ≤ length isects)%nat → 0 <= n →
  take (Z.to_nat n) (setMaterialIds n ids1 ids2 isects).1
    = materialId <$> take (Z.to_nat n) isects ∧
  take (Z.to_nat n) (setMaterialIds n ids1 ids2 isects).2
    = materialId <$> take (Z.to_nat n) isects.
Proof.
  intros H1 H2 H3 Hn.
  assert (Hone : ∀ ids : list Z, (Z.to_nat n ≤ length ids)%nat →
            take (Z.to_nat n)
              (launch1d n (λ i (old : Z), match isects !! i with
                                          | Some isect => materialId isect
                                          | None => old
                                          end) ids)
            = materialId <$> take (Z.to_nat n) isects).
  { intros ids Hids. apply list_eq. intros i. rewrite list_lookup_fmap.
    destruct (decide (i < Z.to_nat n)%nat) as [Hi|Hi].
    - rewrite !lookup_take_lt by done.
      destruct (lookup_lt_is_Some_2 ids i) as [a Ha]; [lia|].
      destruct (lookup_lt_is_Some_2 isects i) as [c Hc]; [lia|].
      rewrite lookup_launch1d, Ha, Hc. cbn.
      by rewrite bool_decide_eq_true_2 by lia.
    - by rewrite !lookup_take_ge by lia. }
  unfold setMaterialIds. cbn [fst snd]. split; by apply Hone.
Qed.

(** The two sorted prefixes, as sorts of the paths and of the intersections
    by the material ids of the intersections. *)
Lemma material_sort_prefixes scene n d :
  device_sized scene d → 0 <= n <= pixelcount scene →
  let d2 := material_sort n d in
  let k := Z.to_nat n in
  let keys := materialId <$> take k (dev_intersections d) in
  take k (dev_paths d2)
    = (sort_by_key (sort_tie SortPaths keys) keys (take k (dev_paths d))).2 ∧
  take k (dev_intersections d2)
    = (sort_by_key (sort_tie SortIntersections keys) keys
         (take k (dev_intersections d))).2 ∧
  drop k (dev_paths d2) = drop k (dev_paths d) ∧
  drop k (dev_intersections d2) = drop k (dev_intersections d).
Proof.
  intros (Hi & Hp & Hx & Hii & Hpi) Hn d2 k keys.
  destruct (setMaterialIds_prefix n (dev_ps_ids d) (dev_isect_ids d)
              (dev_intersections d)) as [K1 K2]; [lia..|].
  fold k in K1, K2. fold keys in K1, K2.
  assert (Hk : (k ≤ Z.to_nat (pixelcount scene))%nat) by (unfold k; lia).
  assert (Hlk : length keys = k).
  { unfold keys. rewrite length_fmap, length_take. lia. }
  unfold d2, material_sort. cbv zeta. fold k.
  cbn [dev_paths dev_intersections]. unfold sort_prefix_by_key. cbv zeta. cbn [fst snd].
  rewrite K1, K2.
  destruct (sort_by_key_length (sort_tie SortPaths keys) keys (take k (dev_paths d)))
    as [_ Hlp]; [rewrite Hlk, length_take; lia|].
  destruct (sort_by_key_length (sort_tie SortIntersections keys) keys
              (take k (dev_intersections d))) as [_ Hli]; [rewrite Hlk, length_take; lia|].
  rewrite length_take in Hlp. rewrite length_take in Hli.
  by rewrite !take_app_length', !drop_app_length' by lia.
Qed.

(** The two calls settle the equal keys among [keys] alike, or there are
    none: what keeps the pairs of the two sorted buffers. *)
Lemma material_sort_pairs scene n d :
  device_sized scene d → 0 <= n <= pixelcount scene →
  let d2 := material_sort n d in
  let k := Z.to_nat n in
  let keys := materialId <$> take k (dev_intersections d) in
  NoDup keys ∨ sort_ties_agree keys →
  zip (take k (dev_paths d2)) (take k (dev_intersections d2))
  ≡ₚ zip (take k (dev_paths d)) (take k (dev_intersections d)).
Proof.
  intros Hsized Hn d2 k keys Hties.
  destruct (material_sort_prefixes scene n d Hsized Hn) as (Hp2 & Hi2 & _).
  subst d2 k keys. rewrite Hp2, Hi2.
  set (k := Z.to_nat n) in *.
  set (keys := materialId <$> take k (dev_intersections d)) in *.
  destruct Hsized as (Hi & Hp & Hx & Hii & Hpi).
  assert (Hk : (k ≤ Z.to_nat (pixelcount scene))%nat) by (unfold k; lia).
  assert (Hlk : length keys = k).
  { unfold keys. rewrite length_fmap, length_take. lia. }
  rewrite (sort_by_key_alike (sort_tie SortIntersections keys) (sort_tie SortPaths keys));
    [|rewrite Hlk, length_take; lia
     |destruct Hties as [?|Hties]; [by left|right; intros m r; symmetry; apply Hties]].
  apply sort_by_key_zip; rewrite ?Hlk, !length_take; lia.
Qed.

(** However the two calls settle equal keys, a path ends in a slot whose
    intersection has the material of its own. *)
Lemma material_sort_materials scene n d :
  device_sized scene d → 0 <= n <= pixelcount scene →
  let d2 := material_sort n d in
  let k := Z.to_nat n in
  zip (take k (dev_paths d2)) (materialId <$> take k (dev_intersections d2))
  ≡ₚ zip (take k (dev_paths d)) (materialId <$> take k (dev_intersections d)).
Proof.
  intros Hsized Hn d2 k.
  destruct (material_sort_prefixes scene n d Hsized Hn) as (Hp2 & Hi2 & _).
  subst d2 k. rewrite Hp2, Hi2.
  set (k := Z.to_nat n) in *.
  set (keys := materialId <$> take k (dev_intersections d)) in *.
  destruct Hsized as (Hi & Hp & Hx & Hii & Hpi).
  assert (Hk : (k ≤ Z.to_nat (pixelcount scene))%nat) by (unfold k; lia).
  assert (Hlk : length keys = k).
  { unfold keys. rewrite length_fmap, length_take. lia. }
  pose proof (sort_by_key_keyed (sort_tie SortIntersections keys) materialId
                (take k (dev_intersections d))) as Hkeyed.
  fold keys in Hkeyed. rewrite <- Hkeyed.
  rewrite (sort_by_key_keys (sort_tie SortIntersections keys) (sort_tie SortPaths keys)
             keys (take k (dev_intersections d)) (take k (dev_paths d)))
    by (rewrite ?Hlk, !length_take; lia).
  apply sort_by_key_keeps_keys. rewrite Hlk, length_take. lia.
Qed.

(** The slot of a shading thread reaches its result through the engine
    for [scatterRay] only. *)
Lemma shadeMaterial_thread_slot iter depth materials slot slot' isect (p : PathSegment F) :
  makeSeededRandomEngine iter (Z.of_nat slot) depth
    = makeSeededRandomEngine iter (Z.of_nat slot') depth ∨
  ¬ (fgtb (t isect) (lit 0) = true ∧ remainingBounces p > 0 ∧
     fgtb (emittance (materials (materialId isect))) (lit 0) = false) →
  shadeMaterial_thread iter depth materials slot isect p
  = shadeMaterial_thread iter depth materials slot' isect p.
Proof.
  intros Hcase. unfold shadeMaterial_thread.
  destruct (fgtb (t isect) (lit 0)) eqn:Ht; [|done].
  case_bool_decide as Hrb; [|done]. simpl.
  destruct (fgtb (emittance _) (lit 0)) eqn:Hem; [done|].
  destruct Hcase as [->|Hno]; [done|]. exfalso. by apply Hno.
Qed.

(** C7, amended: with [MATERIALS] on, the sort rearranges the first
    [num_paths] paths and the first [num_paths] intersections and leaves
    the other slots; however the library orders equal keys, a path ends in
    a slot whose intersection has the material of its own; it ends with its
    own intersection when no two of the sorted intersections have the same
    material, or when the two [thrust::sort_by_key] calls order equal keys
    alike.  [shadeMaterial] then runs in each slot the thread it runs
    without the sort, on the path and the intersection of that slot, and
    the result of the thread depends on the slot only where it scatters,
    through the engine seeded with the slot index. *)
Theorem material_sort_effect sw scene iter depth n d :
  MATERIALS sw = true →
  device_sized scene d → 0 <= n <= pixelcount scene →
  let d2 := sort_stage sw n d in
  let k := Z.to_nat n in
  let keys := materialId <$> take k (dev_intersections d) in
  take k (dev_paths d2) ≡ₚ take k (dev_paths d) ∧
  take k (dev_intersections d2) ≡ₚ take k (dev_intersections d) ∧
  drop k (dev_paths d2) = drop k (dev_paths d) ∧
  drop k (dev_intersections d2) = drop k (dev_intersections d) ∧
  zip (take k (dev_paths d2)) (materialId <$> take k (dev_intersections d2))
    ≡ₚ zip (take k (dev_paths d)) keys ∧
  (NoDup keys ∨ sort_ties_agree keys →
   zip (take k (dev_paths d2)) (take k (dev_intersections d2))
   ≡ₚ zip (take k (dev_paths d)) (take k (dev_intersections d))) ∧
  (∀ slot p isect,
     (slot < k)%nat →
     dev_paths d2 !! slot = Some p → dev_intersections d2 !! slot = Some isect →
     dev_paths (shade_stage scene iter n depth d2) !! slot
     = Some (shadeMaterial_thread iter depth (materials scene) slot isect p)) ∧
  (∀ slot slot' isect (p : PathSegment F),
     makeSeededRandomEngine iter (Z.of_nat slot) depth
       = makeSeededRandomEngine iter (Z.of_nat slot') depth ∨
     ¬ (fgtb (t isect) (lit 0) = true ∧ remainingBounces p > 0 ∧
        fgtb (emittance (materials scene (materialId isect))) (lit 0) = false) →
     shadeMaterial_thread iter depth (materials scene) slot isect p
     = shadeMaterial_thread iter depth (materials scene) slot' isect p).
Proof.
  intros Hon Hsized Hn d2 k keys.
  pose proof (material_sort_pairs scene n d Hsized Hn) as Hpairs.
  pose proof (material_sort_materials scene n d Hsized Hn) as Hmat.
  destruct (material_sort_prefixes scene n d Hsized Hn) as (Hp2 & Hi2 & Hdp & Hdi).
  cbv zeta in Hpairs, Hmat.
  assert (Hd2 : d2 = material_sort n d) by (unfold d2, sort_stage; by rewrite Hon).
  clearbody d2. subst d2.
  fold k in Hpairs, Hmat, Hp2, Hi2, Hdp, Hdi.
  fold keys in Hpairs, Hmat, Hp2, Hi2.
  destruct Hsized as (Hi & Hp & Hx & Hii & Hpi).
  assert (Hk : (k ≤ Z.to_nat (pixelcount scene))%nat) by (unfold k; lia).
  assert (Hlk : length keys = k).
  { unfold keys. rewrite length_fmap, length_take. lia. }
  split.
  { rewrite Hp2. apply sort_by_key_perm. rewrite Hlk, length_take. lia. }
  split.
  { rewrite Hi2. apply sort_by_key_perm. rewrite Hlk, length_take. lia. }
  split; [done|]. split; [done|].
  split; [exact Hmat|]. split; [exact Hpairs|]. split.
  - intros slot p isect Hslot Hpath Hisect.
    unfold shade_stage, shadeMaterial. cbn [dev_paths].
    erewrite lookup_launch1d_in; [|exact Hpath|unfold k in Hslot; lia].
    by rewrite Hisect.
  - intros. by apply shadeMaterial_thread_slot.
Qed.

End MaterialSort.

(** [material_sort_effect] on the aimed scene: after the first
    intersection stage the sort swaps the two paths and their
    intersections. *)
Lemma material_sort_effect_witness :
  let st := @loop_entry Z ZFloat aimed aimed_scene 1 (toy_device 2) in
  let d1 := @trace_stage Z ZFloat aimed sort_on aimed_scene st in
  let d2 := @sort_stage Z aimed sort_on 2 d1 in
  zip (dev_paths d2) (dev_intersections d2)
  ≡ₚ zip (dev_paths d1) (dev_intersections d1).
Proof.
  intros st d1 d2.
  destruct (@material_sort_effect Z ZFloat aimed sort_on aimed_scene 1 1 2 d1)
    as (_ & _ & _ & _ & _ & Hpairs & _).
  - reflexivity.
  - vm_compute. repeat split.
  - vm_compute. split; discriminate.
  - apply Hpairs. right. intros m r. reflexivity.
Defined.

(** The pairs do not stay where the two calls order equal keys
    differently: the ray of pixel 0 hits a light of material 0 and the ray
    of pixel 1 misses, its intersection keeping the [materialId] 0 of the
    cleared buffer; the paths stay in their slots, the two intersections
    change places, and the iteration gives the light to the pixel whose ray
    missed. *)
Example material_sort_unpairs :
  let st := @loop_entry Z ZFloat aimed_untied light_and_miss_scene 1 (toy_device 2) in
  let d1 := @trace_stage Z ZFloat aimed_untied sort_on light_and_miss_scene st in
  let d2 := @sort_stage Z aimed_untied sort_on 2 d1 in
  materialId <$> dev_intersections d1 = [0; 0] ∧
  dev_paths d2 = dev_paths d1 ∧
  dev_intersections d2 = reverse (dev_intersections d1) ∧
  dev_intersections d2 ≠ dev_intersections d1 ∧
  dev_image <$> @pathtrace Z ZFloat aimed_untied sort_on light_and_miss_scene 1 1
                  (toy_device 2)
    = Some [Vec3 0 0 0; Vec3 5 5 5] ∧
  dev_image <$> @pathtrace Z ZFloat aimed_untied source_switches light_and_miss_scene 1 1
                  (toy_device 2)
    = Some [Vec3 5 5 5; Vec3 0 0 0].
Proof.
  intros st d1 d2. repeat split; try by vm_compute.
Qed.

(** C7 as stated fails: on the aimed scene, an iteration with the sort
    leaves another image than the iteration without it; the two paths
    scatter, and each takes the sample of the slot the sort moved it to. *)
Lemma material_sort_changes_image :
  dev_image <$> @pathtrace Z ZFloat aimed sort_on aimed_scene 1 1 (toy_device 2)
    = Some [Vec3 2 2 2; Vec3 4 4 4] ∧
  dev_image <$> @pathtrace Z ZFloat aimed source_switches aimed_scene 1 1 (toy_device 2)
    = Some [Vec3 4 4 4; Vec3 2 2 2] ∧
  dev_image <$> @pathtrace Z ZFloat aimed sort_on aimed_scene 1 1 (toy_device 2)
    ≠ dev_image <$> @pathtrace Z ZFloat aimed source_switches aimed_scene 1 1 (toy_device 2).
Proof.
  split; [by vm_compute|]. split; [by vm_compute|]. by vm_compute.
Qed.

(** ** The intersection engine *)

Section Intersections.
Context {F : Type} `{FloatOps F} `{Externals F}.
Implicit Types (st : @IsectLocals F) (geoms triangles : list (Geom Shape)).

Lemma foldl_invariant {A B} (I : A → Prop) (f : A → B → A) (l : list B) (a : A) :
  I a → (∀ a x, x ∈ l → I a → I (f a x)) → I (foldl f a l).
Proof.
  revert a. induction l as [|x l IH]; intros a Ha Hf; simpl; [done|].
  apply IH.
  - apply Hf; [by left | done].
  - intros a' y Hy. apply Hf. by right.
Qed.

Lemma elem_of_imap_pair {A} (l : list A) (i : nat) (x : A) :
  (i, x) ∈ imap pair l → l !! i = Some x.
Proof.
  intros Hin. apply list_elem_of_lookup in Hin as [j Hj].
  rewrite list_lookup_imap in Hj.
  destruct (l !! j) eqn:E; simpl in Hj; [|done]. by simplify_eq.
Qed.

(** The thread of slot [path_index] writes [intersections[path_index]]
    from its own scan. *)
Lemma computeIntersections_lookup sw depth n paths geoms triangles isects idx seg old :
  paths !! idx = Some seg → isects !! idx = Some old → Z.of_nat idx < n →
  (computeIntersections sw depth n paths geoms triangles isects).2 !! idx
  = Some (write_intersection geoms triangles
            (computeIntersections_thread sw geoms triangles (uninit_locals depth idx) seg)
            old).
Proof.
  intros Hseg Hold Hidx. unfold computeIntersections. cbn [snd].
  erewrite lookup_launch1d_in by done. by rewrite Hseg.
Qed.

(** Without a recorded hit the thread writes [t = -1] and nothing else. *)
Lemma write_intersection_miss geoms triangles st (old : ShadeableIntersection F) :
  l_hit_geom_index st = -1 →
  write_intersection geoms triangles st old
  = {| t := lit (-1); surfaceNormal := surfaceNormal old; materialId := materialId old |}.
Proof.
  intros Hmiss. unfold write_intersection. by rewrite bool_decide_eq_true_2.
Qed.

(** With a recorded hit it writes the nearest distance, the normal, and the
    material of the primitive the hit names, in the collection [hitmesh]
    selects. *)
Lemma write_intersection_hit geoms triangles st (old : ShadeableIntersection F) :
  hit_owned geoms triangles st → l_hit_geom_index st ≠ -1 →
  ∃ g, (if l_hitmesh st then triangles else geoms) !! Z.to_nat (l_hit_geom_index st)
       = Some g ∧
    write_intersection geoms triangles st old
    = {| t := l_t_min st; surfaceNormal := l_normal st; materialId := materialid g |}.
Proof.
  intros [[Hmiss _]|[Hpos Hlt]] Hhit; [done|].
  destruct (lookup_lt_is_Some_2 (if l_hitmesh st then triangles else geoms)
              (Z.to_nat (l_hit_geom_index st))) as [g Hg]; [lia|].
  exists g. split; [done|].
  unfold write_intersection, zlookup. rewrite bool_decide_eq_false_2 by done.
  rewrite bool_decide_eq_true_2 by done. by rewrite Hg.
Qed.

Lemma triangle_step_owned r geoms triangles st (pg : nat * Geom Shape) :
  pg ∈ imap pair triangles →
  hit_owned geoms triangles st →
  hit_owned geoms triangles (triangle_step r st pg).
Proof.
  destruct pg as [p g]. intros Hin Howned.
  apply elem_of_imap_pair, lookup_lt_Some in Hin.
  unfold triangle_step. destruct (closer _); [|exact Howned].
  right. simpl. lia.
Qed.

Lemma triangle_scan_owned r geoms triangles st :
  hit_owned geoms triangles st →
  hit_owned geoms triangles (triangle_scan r triangles st).
Proof.
  intros Howned. unfold triangle_scan. apply foldl_invariant; [done|].
  intros. by apply triangle_step_owned.
Qed.

(** Whatever the scan finds, the recorded index is one of the collection
    the material is then read from. *)
Lemma geom_scan_owned sw r geoms triangles st :
  hit_owned geoms triangles st →
  hit_owned geoms triangles (geom_scan sw r geoms triangles st).
Proof.
  intros Howned. unfold geom_scan. apply foldl_invariant; [done|].
  intros st' [i g] Hin Hst'. apply elem_of_imap_pair, lookup_lt_Some in Hin.
  unfold geom_step. cbn [fst snd].
  set (st1 := match type g with
              | SPHERE => _ | CUBE => _ | TRIANGLE => _ | BV => _ end).
  assert (H1 : hit_owned geoms triangles st1).
  { unfold st1. destruct (type g); try done.
    repeat case_match; try done; by apply triangle_scan_owned. }
  destruct (closer st1 && negb (l_hitmesh st1)) eqn:Hc; [|done].
  apply andb_prop in Hc as [_ Hmesh]. apply negb_true_iff in Hmesh.
  right. simpl. rewrite Hmesh. lia.
Qed.

(** After a hit is recorded, [t] is not nearer than [t_min]. *)
Lemma closer_record_hit st i mesh :
  flt_irreflexive → closer (record_hit st i mesh) = false.
Proof.
  intros Hirr. unfold closer, record_hit, fgtb. simpl.
  by rewrite Hirr, andb_false_r.
Qed.

Lemma triangle_step_settled r st pg :
  flt_irreflexive → settled (triangle_step r st pg).
Proof.
  intros Hirr. unfold settled, triangle_step.
  destruct (closer (assign_test _ _)) eqn:Hc.
  - simpl. by rewrite andb_false_r.
  - by rewrite Hc.
Qed.

Lemma triangle_scan_settled r triangles st :
  flt_irreflexive → settled st → settled (triangle_scan r triangles st).
Proof.
  intros Hirr Hst. unfold triangle_scan.
  apply foldl_invariant; [done|]. intros. by apply triangle_step_settled.
Qed.

Lemma analytic_settled st i :
  flt_irreflexive →
  settled (if closer st && negb (l_hitmesh st)
           then record_hit st i (l_hitmesh st) else st).
Proof.
  intros Hirr. destruct (closer st && negb (l_hitmesh st)) eqn:Hc; [|done].
  unfold settled. by rewrite closer_record_hit.
Qed.

(** One turn of the loop over the primitives is one step of the rule, once
    the [t] it starts with would not pass for a hit. *)
Lemma geom_step_nearest_hit sw r triangles st ig :
  flt_irreflexive → settled st →
  geom_step sw r triangles st ig = nearest_hit_step sw r triangles st ig ∧
  settled (geom_step sw r triangles st ig).
Proof.
  intros Hirr Hst. unfold geom_step, nearest_hit_step.
  destruct (type ig.2).
  - split; [done|]. by apply analytic_settled.
  - split; [done|]. by apply analytic_settled.
  - unfold settled in Hst. by rewrite Hst.
  - assert (Hscan : settled (triangle_scan r triangles st))
      by (by apply triangle_scan_settled).
    unfold settled in Hscan, Hst.
    destruct (BOUNDINGVOLUME sw); [destruct (boundingVolumeIntersectionTest _ _)|];
      by rewrite ?Hscan, ?Hst.
Qed.

(** The scan of [computeIntersections] is the nearest-hit rule of the
    spec, provided what the uninitialised [t] holds would not pass for a
    hit. *)
Lemma geom_scan_nearest_hit sw geoms triangles u (seg : PathSegment F) :
  flt_irreflexive → uninit_harmless u →
  computeIntersections_thread sw geoms triangles u seg
  = nearest_hit_scan sw (ray seg) geoms triangles (isect_init u seg).
Proof.
  intros Hirr Hu. unfold computeIntersections_thread, geom_scan, nearest_hit_scan.
  assert (Hinit : settled (isect_init u seg)).
  { unfold settled, closer, isect_init. simpl. unfold uninit_harmless in Hu.
    by rewrite Hu. }
  revert Hinit. generalize (isect_init u seg). generalize (imap pair geoms).
  induction l as [|ig l IH]; intros st Hst; simpl; [done|].
  destruct (geom_step_nearest_hit sw (ray seg) triangles st ig Hirr Hst) as [Heq Hnext].
  rewrite <- Heq. by apply IH.
Qed.

Lemma closer_assign_miss st (res : F * TestOut F) :
  fgtb res.1 (lit 0) = false → closer (assign_test st res) = false.
Proof. intros Hres. unfold closer, assign_test. simpl. by rewrite Hres. Qed.

Lemma elem_of_imap_pair_2 {A} (l : list A) (i : nat) (x : A) :
  (i, x) ∈ imap pair l → x ∈ l.
Proof. intros Hin. apply list_elem_of_lookup. exists i. by apply elem_of_imap_pair. Qed.

(** When every test misses, the rule records no hit. *)
Lemma nearest_hit_scan_miss sw r geoms triangles st :
  all_miss r geoms triangles →
  l_hit_geom_index st = -1 →
  l_hit_geom_index (nearest_hit_scan sw r geoms triangles st) = -1.
Proof.
  intros [Hanalytic Hmesh] Hst. unfold nearest_hit_scan.
  assert (Hscan : ∀ st', l_hit_geom_index st' = -1 →
            l_hit_geom_index (triangle_scan r triangles st') = -1).
  { intros st' Hst'. unfold triangle_scan.
    apply (foldl_invariant (λ s, l_hit_geom_index s = -1)); [done|].
    intros s [p g] Hin Hs. apply elem_of_imap_pair_2 in Hin.
    unfold triangle_step. by rewrite closer_assign_miss by (by apply Hmesh). }
  apply (foldl_invariant (λ s, l_hit_geom_index s = -1)); [done|].
  intros s [i g] Hin Hs. apply elem_of_imap_pair_2 in Hin.
  destruct (Hanalytic g (l_out s) Hin) as [Hbox Hsphere].
  unfold nearest_hit_step. cbn [fst snd].
  destruct (type g).
  - by rewrite closer_assign_miss.
  - by rewrite closer_assign_miss.
  - done.
  - repeat case_match; auto.
Qed.

(** A recorded hit has a positive distance. *)
Lemma geom_scan_positive sw r geoms triangles st :
  l_hit_geom_index st = -1 →
  let st' := geom_scan sw r geoms triangles st in
  l_hit_geom_index st' = -1 ∨ fgtb (l_t_min st') (lit 0) = true.
Proof.
  intros Hst. cbv zeta. unfold geom_scan.
  set (I := λ s : @IsectLocals F,
         l_hit_geom_index s = -1 ∨ fgtb (l_t_min s) (lit 0) = true).
  assert (Hrecord : ∀ s i mesh, closer s = true → I (record_hit s i mesh)).
  { intros s i mesh Hc. right. unfold closer in Hc. apply andb_prop in Hc as [Hpos _].
    done. }
  assert (Hscan : ∀ s, I s → I (triangle_scan r triangles s)).
  { intros s Hs. unfold triangle_scan. apply foldl_invariant; [done|].
    intros s' pg _ Hs'. unfold triangle_step.
    destruct (closer _) eqn:Hc; [by apply Hrecord | exact Hs']. }
  apply (foldl_invariant I); [by left|].
  intros s ig _ Hs. unfold geom_step.
  set (s1 := match type ig.2 with
             | SPHERE => _ | CUBE => _ | TRIANGLE => _ | BV => _ end).
  assert (H1 : I s1).
  { unfold s1. destruct (type ig.2); try exact Hs.
    repeat case_match; try exact Hs; by apply Hscan. }
  destruct (closer s1 && negb (l_hitmesh s1)) eqn:Hc; [|done].
  apply andb_prop in Hc as [Hc _]. by apply Hrecord.
Qed.

Lemma not_farther_trans (a b c : F) :
  flt_transitive → not_farther a b → not_farther b c → not_farther a c.
Proof.
  intros Htrans [->|Hab] [->|Hbc]; unfold not_farther; eauto.
Qed.

(** A candidate the nearest distance was not farther than stays so when the
    nearest distance moves nearer. *)
Lemma not_farther_candidate (c a b : F) :
  flt_transitive → not_farther a b → fltb c b = false → fltb c a = false.
Proof.
  intros Htrans [->|Hab] Hcb; [done|].
  destruct (fltb c a) eqn:Hca; [|done].
  by rewrite (Htrans _ _ _ Hca Hab) in Hcb.
Qed.

Lemma triangle_step_nearer r st pg :
  not_farther (l_t_min (triangle_step r st pg)) (l_t_min st).
Proof.
  unfold triangle_step. destruct (closer _) eqn:Hc; [|by left].
  right. unfold closer, fgtb in Hc. apply andb_prop in Hc as [_ Hc]. exact Hc.
Qed.

Lemma triangle_steps_nearer r pgs st :
  flt_transitive →
  not_farther (l_t_min (foldl (triangle_step r) st pgs)) (l_t_min st).
Proof.
  intros Htrans. revert st. induction pgs as [|pg pgs IH]; intros st; [by left|].
  simpl. eapply not_farther_trans; [done|apply IH|apply triangle_step_nearer].
Qed.

Lemma nearest_hit_step_nearer sw r triangles st ig :
  flt_transitive →
  not_farther (l_t_min (nearest_hit_step sw r triangles st ig)) (l_t_min st).
Proof.
  intros Htrans.
  assert (Hanalytic : ∀ res,
            not_farther
              (l_t_min (let st1 := assign_test st res in
                        if closer st1 && negb (l_hitmesh st1)
                        then record_hit st1 (Z.of_nat ig.1) (l_hitmesh st1) else st1))
              (l_t_min st)).
  { intros res. cbv zeta. destruct (closer _ && _) eqn:Hc; [|by left].
    apply andb_prop in Hc as [Hc _]. unfold closer, fgtb in Hc.
    apply andb_prop in Hc as [_ Hc]. right. exact Hc. }
  unfold nearest_hit_step. destruct (type ig.2).
  - apply Hanalytic.
  - apply Hanalytic.
  - by left.
  - unfold triangle_scan.
    repeat case_match; try (by left); by apply triangle_steps_nearer.
Qed.

Lemma nearest_hit_steps_nearer sw r triangles igs st :
  flt_transitive →
  not_farther (l_t_min (foldl (nearest_hit_step sw r triangles) st igs)) (l_t_min st).
Proof.
  intros Htrans. revert st. induction igs as [|ig igs IH]; intros st; [by left|].
  simpl. eapply not_farther_trans; [done|apply IH|by apply nearest_hit_step_nearer].
Qed.

(** The rule keeps the nearest positive distance of the analytic
    primitives: a sphere or box tested while no triangle is the recorded hit,
    with a positive distance, is not nearer than the distance the scan ends
    with. *)
Lemma nearest_hit_scan_analytic sw r triangles igs1 (i : nat) g igs2 st0 :
  flt_irreflexive → flt_transitive →
  let st := foldl (nearest_hit_step sw r triangles) st0 igs1 in
  let final := foldl (nearest_hit_step sw r triangles) st0 (igs1 ++ (i, g) :: igs2) in
  l_hitmesh st = false →
  (type g = CUBE →
   fgtb (boxIntersectionTest g r (l_out st)).1 (lit 0) = true →
   fltb (boxIntersectionTest g r (l_out st)).1 (l_t_min final) = false) ∧
  (type g = SPHERE →
   fgtb (sphereIntersectionTest g r (l_out st)).1 (lit 0) = true →
   fltb (sphereIntersectionTest g r (l_out st)).1 (l_t_min final) = false).
Proof.
  intros Hirr Htrans st final Hmesh.
  assert (Hstep : ∀ res,
            fgtb res.1 (lit 0) = true →
            fltb res.1
              (l_t_min (let st1 := assign_test st res in
                        if closer st1 && negb (l_hitmesh st1)
                        then record_hit st1 (Z.of_nat i) (l_hitmesh st1) else st1))
            = false).
  { intros res Hpos. cbv zeta. unfold closer, fgtb in *. simpl.
    rewrite Hmesh, Hpos. simpl.
    destruct (fltb res.1 (l_t_min st)) eqn:Hc; simpl; [apply Hirr | exact Hc]. }
  unfold final. rewrite foldl_app. cbn [foldl]. fold st.
  split; intros Hty Hpos.
  - eapply not_farther_candidate; [done|by apply nearest_hit_steps_nearer|].
    unfold nearest_hit_step. cbn [fst snd]. rewrite Hty. by apply Hstep.
  - eapply not_farther_candidate; [done|by apply nearest_hit_steps_nearer|].
    unfold nearest_hit_step. cbn [fst snd]. rewrite Hty. by apply Hstep.
Qed.

(** And of the triangles: a triangle tested with a positive distance, behind
    a bounding-volume node whose test passes, is not nearer than the
    distance the scan ends with. *)
Lemma nearest_hit_scan_triangle sw r triangles igs1 (i : nat) g igs2 st0
    pgs1 (p : nat) tri pgs2 :
  flt_irreflexive → flt_transitive →
  let st := foldl (nearest_hit_step sw r triangles) st0 igs1 in
  let stp := foldl (triangle_step r) st pgs1 in
  let res := triangleIntersectionTest tri r (l_out stp) in
  let final := foldl (nearest_hit_step sw r triangles) st0 (igs1 ++ (i, g) :: igs2) in
  type g = BV →
  (BOUNDINGVOLUME sw = true → boundingVolumeIntersectionTest g r = true) →
  imap pair triangles = pgs1 ++ (p, tri) :: pgs2 →
  fgtb res.1 (lit 0) = true →
  fltb res.1 (l_t_min final) = false.
Proof.
  intros Hirr Htrans st stp res final Hty Hgate Htris Hpos.
  unfold final. rewrite foldl_app. cbn [foldl]. fold st.
  eapply not_farther_candidate; [done|by apply nearest_hit_steps_nearer|].
  assert (Hscan : nearest_hit_step sw r triangles st (i, g)
                  = foldl (triangle_step r) st (pgs1 ++ (p, tri) :: pgs2)).
  { unfold nearest_hit_step, triangle_scan. cbn [fst snd]. rewrite Hty, Htris.
    destruct (BOUNDINGVOLUME sw); [|done]. by rewrite Hgate. }
  rewrite Hscan, foldl_app. cbn [foldl]. fold stp.
  eapply not_farther_candidate; [done|by apply triangle_steps_nearer|].
  unfold triangle_step. cbn [fst snd]. fold res.
  unfold closer, fgtb in *. simpl. rewrite Hpos. simpl.
  destruct (fltb res.1 (l_t_min stp)) eqn:Hc; simpl; [apply Hirr | exact Hc].
Qed.

(** What the thread of slot [idx] leaves in [intersections[idx]], stated on
    the rule: [t = -1] and the rest as it was when the rule recorded no hit;
    the nearest distance, its normal and the material of the owning
    primitive when it did. *)
Lemma computeIntersections_record sw depth n paths geoms triangles isects idx seg old :
  flt_irreflexive → uninit_harmless (uninit_locals depth idx) →
  paths !! idx = Some seg → isects !! idx = Some old → Z.of_nat idx < n →
  let st := nearest_hit_scan sw (ray seg) geoms triangles
              (isect_init (uninit_locals depth idx) seg) in
  ∃ isect,
    (computeIntersections sw depth n paths geoms triangles isects).2 !! idx = Some isect ∧
    (all_miss (ray seg) geoms triangles → l_hit_geom_index st = -1) ∧
    (l_hit_geom_index st = -1 →
       isect = {| t := lit (-1); surfaceNormal := surfaceNormal old;
                  materialId := materialId old |}) ∧
    (l_hit_geom_index st ≠ -1 →
       ∃ g, (if l_hitmesh st then triangles else geoms) !! Z.to_nat (l_hit_geom_index st)
            = Some g ∧
         isect = {| t := l_t_min st; surfaceNormal := l_normal st;
                    materialId := materialid g |}).
Proof.
  intros Hirr Hu Hseg Hold Hidx st. eexists. split.
  { by apply computeIntersections_lookup. }
  rewrite geom_scan_nearest_hit by done. fold st.
  split; [|split].
  - intros Hall. by apply nearest_hit_scan_miss.
  - intros Hmiss. by apply write_intersection_miss.
  - intros Hhit. apply write_intersection_hit; [|done].
    unfold st. rewrite <- geom_scan_nearest_hit by done.
    apply geom_scan_owned. left. done.
Qed.

End Intersections.

(** C2 fails on the code where [t] is read before it is assigned: the
    only primitive is a bounding-volume node whose test the ray fails, so no
    intersection test runs, and the uninitialised [t] holds 1.  The thread
    records a hit at distance 1 on the node itself and writes the node's
    material, 7, where a zero in [t] gives [t = -1]. *)
Theorem computeIntersections_uninitialised_t :
  let node := mkGeom BV 7 0 in
  let old := mkShadeableIntersection 0 (Vec3 0 0 0) 0 in
  @boundingVolumeIntersectionTest Z (toy_externals (λ _, 1) 1) node
    (ray (toy_segment 0 1)) = false ∧
  (@computeIntersections Z ZFloat (toy_externals (λ _, 1) 1) source_switches 0 1
     [toy_segment 0 1] [node] [mkGeom TRIANGLE 1 5] [old]).2
  = [mkShadeableIntersection 1 (Vec3 0 0 0) 7] ∧
  (@computeIntersections Z ZFloat (toy_externals (λ _, 1) 0) source_switches 0 1
     [toy_segment 0 1] [node] [mkGeom TRIANGLE 1 5] [old]).2
  = [mkShadeableIntersection (-1) (Vec3 0 0 0) 0].
Proof. by vm_compute. Qed.

(** ** The seed word of [makeSeededRandomEngine] *)

Lemma lor_disjoint a b : Z.land a b = 0 → Z.lor a b = a + b.
Proof. intros Hd. rewrite <- Z.add_lor_land, Hd. lia. Qed.

(** Bit 31 and above against a value below [2 ^ 31]. *)
Lemma land_sign_low m : 0 <= m < 2 ^ 31 → Z.land (- 2 ^ 31) m = 0.
Proof.
  intros Hm. apply Z.bits_inj'. intros n Hn.
  rewrite Z.land_spec, Z.bits_0.
  destruct (decide (n < 31)) as [Hlt|Hge].
  - change (- 2 ^ 31) with (Z.shiftl (-1) 31).
    by rewrite Z.shiftl_spec_low.
  - rewrite <- (Z.mod_small m (2 ^ 31)) by done.
    rewrite Z.mod_pow2_bits_high by lia. apply andb_false_r.
Qed.

Lemma wrap32_mod z :
  wrap32 z = z mod 2 ^ 31 ∨ wrap32 z = z mod 2 ^ 31 - 2 ^ 31.
Proof.
  unfold wrap32.
  pose proof (Z.div_mod z (2 ^ 31) ltac:(lia)).
  pose proof (Z.mod_pos_bound z (2 ^ 31) ltac:(lia)).
  pose proof (Z.div_mod (z + 2 ^ 31) (2 ^ 32) ltac:(lia)).
  pose proof (Z.mod_pos_bound (z + 2 ^ 31) (2 ^ 32) ltac:(lia)).
  lia.
Qed.

(** Under [(1 << 31) | _] only the low 31 bits of a word count. *)
Lemma lor_sign_wrap32 z :
  Z.lor (- 2 ^ 31) (wrap32 z) = - 2 ^ 31 + z mod 2 ^ 31.
Proof.
  pose proof (Z.mod_pos_bound z (2 ^ 31) ltac:(lia)) as Hm.
  pose proof (lor_disjoint _ _ (land_sign_low _ Hm)) as Hlor.
  destruct (wrap32_mod z) as [->| ->]; [done|].
  replace (z mod 2 ^ 31 - 2 ^ 31) with (- 2 ^ 31 + z mod 2 ^ 31) by lia.
  by rewrite <- Hlor, Z.lor_assoc, Z.lor_diag.
Qed.

Lemma seed_key_low_bits iter depth :
  seed_key iter depth = Z.lor (- 2 ^ 31 + (depth * 2 ^ 22) mod 2 ^ 31) iter.
Proof.
  unfold seed_key. change (wrap32 (Z.shiftl 1 31)) with (- 2 ^ 31).
  by rewrite lor_sign_wrap32, Z.shiftl_mul_pow2.
Qed.

(** X1: for an iteration below [2 ^ 22] and a depth below [2 ^ 9] the seed
    word [(1 << 31) | (depth << 22) | iter] holds the two in fields of their
    own, under the sign bit: it is [INT_MIN + depth * 2 ^ 22 + iter], so two
    such pairs with the same word are the same pair. *)
Theorem seed_key_fields iter depth iter' depth' :
  0 <= iter < 2 ^ 22 → 0 <= depth < 2 ^ 9 →
  0 <= iter' < 2 ^ 22 → 0 <= depth' < 2 ^ 9 →
  seed_key iter depth = INT_MIN + depth * 2 ^ 22 + iter ∧
  (seed_key iter depth = seed_key iter' depth' → iter = iter' ∧ depth = depth').
Proof.
  assert (Hpack : ∀ i d, 0 <= i < 2 ^ 22 → 0 <= d < 2 ^ 9 →
            seed_key i d = INT_MIN + d * 2 ^ 22 + i).
  { intros i d Hi Hd. rewrite seed_key_low_bits.
    rewrite Z.mod_small by lia.
    rewrite lor_disjoint; [unfold INT_MIN; lia|].
    apply Z.bits_inj'. intros n Hn. rewrite Z.land_spec, Z.bits_0.
    destruct (decide (n < 22)) as [Hlt|Hge].
    - replace (- 2 ^ 31 + d * 2 ^ 22) with (Z.shiftl (d - 2 ^ 9) 22)
        by (rewrite Z.shiftl_mul_pow2; lia).
      by rewrite Z.shiftl_spec_low.
    - rewrite <- (Z.mod_small i (2 ^ 22)) by done.
      rewrite Z.mod_pow2_bits_high by lia. apply andb_false_r. }
  intros Hi Hd Hi' Hd'. split; [by apply Hpack|].
  rewrite !Hpack by done. lia.
Qed.

(** [seed_key_fields] at iteration 5 and depth 3. *)
Lemma seed_key_fields_witness :
  seed_key 5 3 = INT_MIN + 3 * 2 ^ 22 + 5 ∧
  (seed_key 5 3 = seed_key 5 3 → 5 = 5 ∧ 3 = 3).
Proof. apply seed_key_fields; lia. Defined.

(** X2: the depth reaches the seed word through 9 bits only.  [depth << 22]
    puts bit 9 of the depth on the sign bit, which [1 << 31] sets anyway, and
    the bits above it are shifted out of the [int]: a depth and the depth
    512 later give the same word, hence the same engine.  In
    [generateRayFromCamera], where the row [y] is passed for the depth, the
    pixels (x, y) and (x, y + 512) draw the same two offsets. *)
Theorem seed_key_depth_period iter index depth :
  seed_key iter (depth + 512) = seed_key iter depth ∧
  (∀ F (ext : Externals F),
     @makeSeededRandomEngine F ext iter index (depth + 512)
     = @makeSeededRandomEngine F ext iter index depth) ∧
  (∀ F (ops : FloatOps F) (ext : Externals F),
     @jitter F ops ext iter index (depth + 512) = @jitter F ops ext iter index depth).
Proof.
  assert (Hkey : seed_key iter (depth + 512) = seed_key iter depth).
  { rewrite !seed_key_low_bits. do 2 f_equal.
    replace ((depth + 512) * 2 ^ 22) with (depth * 2 ^ 22 + 1 * 2 ^ 31) by lia.
    apply Z_mod_plus_full. }
  split; [done|]. split.
  - intros F ext. unfold makeSeededRandomEngine. by rewrite Hkey.
  - intros F ops ext. unfold jitter, makeSeededRandomEngine. by rewrite Hkey.
Qed.

(** ** More on the intersection engine *)

Section IntersectionFacts.
Context {F : Type} `{FloatOps F} `{Externals F}.
Implicit Types (st : @IsectLocals F) (geoms triangles : list (Geom Shape)).

Lemma triangle_scan_hitmesh r triangles st :
  l_hitmesh st = true → l_hitmesh (triangle_scan r triangles st) = true.
Proof.
  intros Hst. unfold triangle_scan.
  apply (foldl_invariant (λ s, l_hitmesh s = true)); [done|].
  intros s pg _ Hs. unfold triangle_step. by destruct (closer _).
Qed.

(** With [hitmesh] set, the test after the branches fails: the turn of the
    loop ends in the state its branch left. *)
Lemma geom_step_hitmesh sw r triangles st ig :
  l_hitmesh st = true →
  l_hitmesh (geom_step sw r triangles st ig) = true ∧
  (type ig.2 ≠ BV →
   l_t_min (geom_step sw r triangles st ig) = l_t_min st ∧
   l_hit_geom_index (geom_step sw r triangles st ig) = l_hit_geom_index st ∧
   l_normal (geom_step sw r triangles st ig) = l_normal st ∧
   l_seg_intersect (geom_step sw r triangles st ig) = l_seg_intersect st).
Proof.
  intros Hst. unfold geom_step.
  destruct (type ig.2) eqn:Hty.
  - cbn [assign_test l_hitmesh]. rewrite Hst, andb_false_r. by cbn.
  - cbn [assign_test l_hitmesh]. rewrite Hst, andb_false_r. by cbn.
  - rewrite Hst, andb_false_r. done.
  - assert (Hscan : l_hitmesh (triangle_scan r triangles st) = true)
      by (by apply triangle_scan_hitmesh).
    destruct (BOUNDINGVOLUME sw); [destruct (boundingVolumeIntersectionTest _ _)|];
      rewrite ?Hscan, ?Hst, andb_false_r; done.
Qed.

(** X3: [hitmesh] is never cleared, and while it is set the test
    [t > 0.0f && t_min > t && !hitmesh] fails: once a triangle is the recorded
    hit, the turns of the loop for spheres, boxes and unknown types leave the
    recorded distance, index, normal and intersection point as they are,
    whatever distance their tests return; only the triangles behind a
    bounding-volume node can replace the hit. *)
Theorem mesh_hit_shadows_analytic sw r triangles igs st :
  l_hitmesh st = true →
  let st' := foldl (geom_step sw r triangles) st igs in
  l_hitmesh st' = true ∧
  (Forall (λ ig, type ig.2 ≠ BV) igs →
   l_t_min st' = l_t_min st ∧ l_hit_geom_index st' = l_hit_geom_index st ∧
   l_normal st' = l_normal st ∧ l_seg_intersect st' = l_seg_intersect st).
Proof.
  revert st. induction igs as [|ig igs IH]; intros st Hst; [done|].
  cbn [foldl]. cbv zeta.
  destruct (geom_step_hitmesh sw r triangles st ig Hst) as [Hmesh Hsame].
  destruct (IH _ Hmesh) as [Hmesh' Hsame'].
  split; [done|]. intros Hall. apply Forall_cons in Hall as [Hig Hall].
  destruct (Hsame' Hall) as (-> & -> & -> & ->). by apply Hsame.
Qed.

Lemma geom_scan_miss_intersect sw r geoms triangles st :
  let st' := geom_scan sw r geoms triangles st in
  l_hit_geom_index st = -1 →
  l_hit_geom_index st' = -1 → l_seg_intersect st' = l_seg_intersect st.
Proof.
  intros st' Hst. unfold st', geom_scan.
  set (I := λ s : @IsectLocals F,
         l_hit_geom_index s = -1 → l_seg_intersect s = l_seg_intersect st).
  assert (Hscan : ∀ s, I s → I (triangle_scan r triangles s)).
  { intros s Hs. unfold triangle_scan. apply (foldl_invariant I); [done|].
    intros s' [p g] _ Hs'. unfold triangle_step, I.
    destruct (closer _); cbn; [lia|exact Hs']. }
  apply (foldl_invariant I); [done|].
  intros s [i g] _ Hs. unfold geom_step. cbn [fst snd].
  set (s1 := match type g with
             | SPHERE => _ | CUBE => _ | TRIANGLE => _ | BV => _ end).
  assert (H1 : I s1).
  { unfold s1. destruct (type g); try exact Hs.
    repeat case_match; try exact Hs; by apply Hscan. }
  destruct (closer s1 && negb (l_hitmesh s1)); [|exact H1].
  unfold I. cbn. lia.
Qed.

(** X4: what the intersection stage of a turn leaves in
    [dev_intersections].  A slot below [num_paths] holds either the miss
    record, [t = -1] over the zeroes of the [cudaMemset], or a hit whose
    [t] is positive and whose [materialId] is the [materialid] of a primitive
    of the scene, whatever the uninitialised locals held; a slot from
    [num_paths] on holds zeroes.  No record of an earlier turn survives, and
    the shader's test [t > 0.0f] never reads a stale distance. *)
Theorem trace_stage_intersections sw scene (ls : Loop) (i : nat) :
  loop_ok scene ls → Z.of_nat i < pixelcount scene →
  ∃ isect, dev_intersections (trace_stage sw scene ls) !! i = Some isect ∧
    if bool_decide (Z.of_nat i < num_paths ls) then
      isect = {| t := lit (-1); surfaceNormal := vsplat (lit 0); materialId := 0 |} ∨
      (fgtb (t isect) (lit 0) = true ∧
       ∃ g, (g ∈ geoms scene ∨ g ∈ triangles scene) ∧ materialId isect = materialid g)
    else isect = zero_intersection.
Proof.
  intros [(_ & Hp & Hx & _) Hn] Hi.
  destruct (lookup_lt_is_Some_2 (dev_intersections (mem ls)) i) as [old Hold]; [lia|].
  assert (Hzero : memset_intersections (pixelcount scene) (dev_intersections (mem ls)) !! i
                  = Some zero_intersection).
  { unfold memset_intersections. by erewrite lookup_launch1d_in. }
  unfold trace_stage. cbn [dev_intersections].
  case_bool_decide as Hact.
  - destruct (lookup_lt_is_Some_2 (dev_paths (mem ls)) i) as [seg Hseg]; [lia|].
    eexists. split; [by apply computeIntersections_lookup|].
    set (u := uninit_locals (depth ls) i).
    pose proof (geom_scan_owned sw (ray seg) (geoms scene) (triangles scene)
                  (isect_init u seg) ltac:(by left)) as Howned.
    pose proof (geom_scan_positive sw (ray seg) (geoms scene) (triangles scene)
                  (isect_init u seg) ltac:(done)) as Hpos.
    cbv zeta in Hpos.
    change (geom_scan sw (ray seg) (geoms scene) (triangles scene) (isect_init u seg))
      with (computeIntersections_thread sw (geoms scene) (triangles scene) u seg) in *.
    set (fin := computeIntersections_thread sw (geoms scene) (triangles scene) u seg) in *.
    destruct (decide (l_hit_geom_index fin = -1)) as [Hmiss|Hhit].
    + left. by rewrite write_intersection_miss.
    + right.
      destruct (write_intersection_hit (geoms scene) (triangles scene) fin
                  zero_intersection Howned Hhit) as (g & Hg & ->).
      cbn [t materialId]. split; [by destruct Hpos|].
      exists g. split; [|done]. apply list_elem_of_lookup_2 in Hg.
      destruct (l_hitmesh fin); auto.
  - exists zero_intersection. split; [|done].
    unfold computeIntersections. cbn [snd].
    rewrite lookup_launch1d_out by lia. done.
Qed.

(** X5: [computeIntersections] changes nothing of a path but
    [ray.intersect], and that only in a thread that records a hit; neither
    array changes length, and the slots from [num_paths] on are left as they
    are in both. *)
Theorem computeIntersections_frame sw depth n (paths : list (PathSegment F))
    geoms triangles (isects : list (ShadeableIntersection F)) :
  let out := computeIntersections sw depth n paths geoms triangles isects in
  written_by_generator <$> out.1 = written_by_generator <$> paths ∧
  length out.1 = length paths ∧ length out.2 = length isects ∧
  (∀ idx : nat, n <= Z.of_nat idx →
     out.1 !! idx = paths !! idx ∧ out.2 !! idx = isects !! idx) ∧
  (∀ (idx : nat) seg,
     paths !! idx = Some seg →
     l_hit_geom_index
       (computeIntersections_thread sw geoms triangles (uninit_locals depth idx) seg) = -1 →
     out.1 !! idx = Some seg).
Proof.
  intros out. unfold out, computeIntersections. cbn [fst snd].
  split; [|split; [|split; [|split]]].
  - apply fmap_launch1d. intros i a. reflexivity.
  - apply length_launch1d.
  - apply length_launch1d.
  - intros idx Hidx. by rewrite !lookup_launch1d_out.
  - intros idx seg Hseg Hmiss. rewrite lookup_launch1d, Hseg. cbn.
    f_equal. case_bool_decide; [|done].
    pose proof (geom_scan_miss_intersect sw (ray seg) geoms triangles
                  (isect_init (uninit_locals depth idx) seg)) as Hkeep.
    cbv zeta in Hkeep. unfold computeIntersections_thread in Hmiss |- *.
    rewrite Hkeep by done. by destruct seg as [[]].
Qed.

End IntersectionFacts.

(** [mesh_hit_shadows_analytic] with the stand-ins: a triangle at distance
    5 behind a bounding-volume node is the recorded hit; the sphere at
    distance 1 that the loop meets next does not replace it. *)
Lemma mesh_hit_shadows_analytic_witness :
  let seg := toy_segment 0 1 in
  let st := @computeIntersections_thread Z ZFloat toy source_switches
              [mkGeom BV 0 1] [mkGeom TRIANGLE 2 5] (@uninit_locals Z toy 0 0%nat) seg in
  let st' := foldl (@geom_step Z ZFloat toy source_switches (ray seg) [mkGeom TRIANGLE 2 5])
               st [(1%nat, mkGeom SPHERE 1 1)] in
  l_t_min st' = 5 ∧ l_hit_geom_index st' = 0.
Proof.
  intros seg st st'.
  destruct (@mesh_hit_shadows_analytic Z ZFloat toy source_switches (ray seg)
              [mkGeom TRIANGLE 2 5] [(1%nat, mkGeom SPHERE 1 1)] st) as [_ Hsame].
  - reflexivity.
  - destruct Hsame as (Ht & Hi & _).
    + repeat constructor. discriminate.
    + split; [exact Ht | exact Hi].
Defined.

(** [trace_stage_intersections] for slot 0 of the first turn on the small
    scene: the sphere is hit at distance 3. *)
Lemma trace_stage_intersections_witness :
  ∃ isect,
    dev_intersections (@trace_stage Z ZFloat toy source_switches (toy_scene 1)
                         (@loop_entry Z ZFloat toy (toy_scene 1) 1 (toy_device 2))) !! 0%nat
    = Some isect ∧ t isect = 3 ∧ materialId isect = 1.
Proof.
  destruct (@trace_stage_intersections Z ZFloat toy source_switches (toy_scene 1)
              (@loop_entry Z ZFloat toy (toy_scene 1) 1 (toy_device 2)) 0)
    as (isect & Hget & _).
  - vm_compute. repeat split; discriminate.
  - reflexivity.
  - exists isect. split; [exact Hget|].
    vm_compute in Hget. injection Hget as <-. split; reflexivity.
Defined.

(** ** How the loop leaves the paths *)

Section Spent.
Context {F : Type} `{FloatOps F} `{Externals F}.
Implicit Types (P Q : PathSegment F → Prop).

(** The material sort moves intersections within the first [num_paths]
    slots. *)
Lemma sort_stage_intersections sw scene n d :
  device_sized scene d →
  take (Z.to_nat n) (dev_intersections (sort_stage sw n d))
  ≡ₚ take (Z.to_nat n) (dev_intersections d).
Proof.
  intros (Hi & Hp & Hx & Hii & Hpi). unfold sort_stage.
  destruct (MATERIALS sw); [|done].
  unfold material_sort. cbv zeta. cbn [dev_intersections].
  apply sort_prefix_by_key_perm.
  destruct (setMaterialIds_length n (dev_ps_ids d) (dev_isect_ids d)
              (dev_intersections d)) as [_ L2].
  lia.
Qed.

(** One turn, on the slots below [num_paths]: the paths the shader leaves
    with a bounce come first, the others after them, and the slots from the
    old [num_paths] on stay.  [I] is what is known of the intersections the
    turn computes. *)
Lemma bounce_split_isect sw scene iter st P Q (I : ShadeableIntersection F → Prop) :
  loop_ok scene st →
  (∀ p v, P p → P (set_intersect p v)) →
  Forall I (take (Z.to_nat (num_paths st)) (dev_intersections (trace_stage sw scene st))) →
  (∀ idx isect p,
     I isect → P p →
     Q (shadeMaterial_thread iter (wrap32 (depth st + 1)) (materials scene)
          idx isect p)) →
  Forall P (take (Z.to_nat (num_paths st)) (dev_paths (mem st))) →
  let st' := bounce sw scene iter st in
  let n := Z.to_nat (num_paths st) in
  let k := Z.to_nat (num_paths st') in
  (k ≤ n)%nat ∧
  Forall (λ p, Q p ∧ remainingBounces p > 0) (take k (dev_paths (mem st'))) ∧
  Forall (λ p, Q p ∧ ¬ remainingBounces p > 0) (drop k (take n (dev_paths (mem st')))) ∧
  drop n (dev_paths (mem st')) = drop n (dev_paths (mem st)).
Proof.
  intros Hok Hset HI Hshade HP st' n k.
  pose proof Hok as [Hsized Hn].
  pose proof (trace_stage_sized sw scene st Hsized) as Hs1.
  pose proof (sort_stage_sized sw scene (num_paths st) _ Hs1) as Hs2.
  pose proof (sort_stage_paths sw scene (num_paths st) _ Hs1) as [Hsp _].
  pose proof (sort_stage_intersections sw scene (num_paths st) _ Hs1) as Hsi.
  fold n in Hsp, Hsi, HI.
  assert (H1 : Forall P (take n (dev_paths (trace_stage sw scene st)))).
  { apply Forall_lookup. intros i p Hp.
    apply lookup_take_Some in Hp as [Hp Hi].
    unfold trace_stage, computeIntersections in Hp. cbn [dev_paths fst] in Hp.
    rewrite lookup_launch1d in Hp.
    destruct (dev_paths (mem st) !! i) as [q|] eqn:Hq; [|done].
    cbn in Hp. injection Hp as <-.
    assert (HPq : P q).
    { rewrite Forall_lookup in HP. apply (HP i). by rewrite lookup_take_lt. }
    case_bool_decide; [by apply Hset | done]. }
  assert (H2 : Forall P (take n (dev_paths (sort_stage sw (num_paths st)
                                              (trace_stage sw scene st))))).
  { by rewrite Hsp. }
  rewrite <- Hsi in HI.
  set (d2 := sort_stage sw (num_paths st) (trace_stage sw scene st)) in *.
  assert (H3 : Forall Q (take n (dev_paths (shade_stage scene iter (num_paths st)
                                              (wrap32 (depth st + 1)) d2)))).
  { apply Forall_lookup. intros i p Hp.
    apply lookup_take_Some in Hp as [Hp Hi].
    unfold shade_stage, shadeMaterial in Hp. cbn [dev_paths] in Hp.
    rewrite lookup_launch1d in Hp.
    destruct (dev_paths d2 !! i) as [q|] eqn:Hq; [|done].
    cbn in Hp. injection Hp as <-.
    assert (HPq : P q).
    { rewrite Forall_lookup in H2. apply (H2 i). by rewrite lookup_take_lt. }
    rewrite bool_decide_eq_true_2 by (unfold n in Hi; lia).
    destruct (lookup_lt_is_Some_2 (dev_intersections d2) i) as [isect Hisect].
    { destruct Hs2 as (_ & _ & -> & _). unfold n in Hi. lia. }
    rewrite Hisect. apply Hshade; [|done].
    rewrite Forall_lookup in HI. apply (HI i). by rewrite lookup_take_lt. }
  destruct (bounce_compacts sw scene iter st Hsized Hn)
    as (Hperm & _ & _ & Halive & Hdead & _ & _ & _).
  fold st' n k d2 in Hperm, Halive, Hdead.
  destruct (bounce_ok sw scene iter st Hok) as [[_ Hpos] Hle]. fold st' in Hpos, Hle.
  assert (Hk : (k ≤ n)%nat) by (unfold k, n; lia).
  rewrite <- Hperm in H3.
  split; [done|]. split; [|split].
  - apply Forall_and. split; [|done].
    replace (take k (dev_paths (mem st'))) with (take k (take n (dev_paths (mem st'))))
      by (rewrite take_take; f_equal; lia).
    by apply Forall_take.
  - apply Forall_and. split; [|done]. by apply Forall_drop.
  - by apply bounce_tail.
Qed.

Lemma bounce_split sw scene iter st P Q :
  loop_ok scene st →
  (∀ p v, P p → P (set_intersect p v)) →
  (∀ idx isect p,
     P p → Q (shadeMaterial_thread iter (wrap32 (depth st + 1)) (materials scene)
                idx isect p)) →
  Forall P (take (Z.to_nat (num_paths st)) (dev_paths (mem st))) →
  let st' := bounce sw scene iter st in
  let n := Z.to_nat (num_paths st) in
  let k := Z.to_nat (num_paths st') in
  (k ≤ n)%nat ∧
  Forall (λ p, Q p ∧ remainingBounces p > 0) (take k (dev_paths (mem st'))) ∧
  Forall (λ p, Q p ∧ ¬ remainingBounces p > 0) (drop k (take n (dev_paths (mem st')))) ∧
  drop n (dev_paths (mem st')) = drop n (dev_paths (mem st)).
Proof.
  intros Hok Hset Hshade HP.
  apply (bounce_split_isect sw scene iter st P Q (λ _, True)); try done.
  - by apply Forall_true.
  - intros idx isect p _. apply Hshade.
Qed.

(** A shading thread on a path with [v > 0] bounces leaves it with none
    or with [v - 1]. *)
Lemma shadeMaterial_thread_bounces iter depth materials idx isect (p : PathSegment F) :
  scatterRay_keeps_bounces → int_range (remainingBounces p) →
  remainingBounces p > 0 →
  let p' := shadeMaterial_thread iter depth materials idx isect p in
  remainingBounces p' = 0 ∨ remainingBounces p' = remainingBounces p - 1.
Proof.
  intros Hkeep Hr Hpos. cbv zeta. unfold shadeMaterial_thread.
  rewrite (bool_decide_eq_true_2 _ Hpos).
  destruct (fgtb (t isect) (lit 0)); cbn [andb]; [|by left].
  destruct (fgtb (emittance _) (lit 0)); [by left|].
  right. cbn. rewrite Hkeep. apply wrap32_id.
  unfold int_range, INT_MIN, INT_MAX in *. lia.
Qed.

(** With a trace depth of 1 or more, the paths below [num_paths] after
    [k] turns have [traceDepth - k] bounces left, and the others none. *)
Lemma after_bounces_countdown sw scene iter d (k : nat) :
  camera_ok (camera scene) → device_sized scene d → int_range (traceDepth scene) →
  scatterRay_keeps_bounces →
  1 <= traceDepth scene → Z.of_nat k <= traceDepth scene →
  let st := after_bounces sw scene iter k (loop_entry scene iter d) in
  Forall (λ p, remainingBounces p = traceDepth scene - Z.of_nat k)
    (take (Z.to_nat (num_paths st)) (dev_paths (mem st))) ∧
  Forall (λ p, remainingBounces p = 0)
    (drop (Z.to_nat (num_paths st)) (dev_paths (mem st))).
Proof.
  intros Hcam Hsized Hrange Hkeep Hpos Hk. cbv zeta.
  pose proof (loop_entry_ok scene iter d Hcam Hsized) as Hok.
  induction k as [|k IH].
  - destruct (loop_entry_paths scene iter d Hcam Hsized) as [_ Hall].
    destruct Hok as [(_ & Hlen & _) _].
    change (after_bounces sw scene iter 0 (loop_entry scene iter d))
      with (loop_entry scene iter d).
    assert (Hn : num_paths (loop_entry scene iter d) = pixelcount scene) by done.
    rewrite Hn, take_ge, drop_ge by lia. split; [|constructor].
    eapply Forall_impl; [exact Hall|]. cbn. intros p [-> _]. lia.
  - destruct IH as [Hfront Hback]; [lia|].
    pose proof (after_bounces_ok sw scene iter k _ Hok) as Hokk.
    rewrite after_bounces_S.
    set (st := after_bounces sw scene iter k (loop_entry scene iter d)) in *.
    destruct (bounce_split sw scene iter st
                (λ p, remainingBounces p = traceDepth scene - Z.of_nat k)
                (λ p, remainingBounces p = 0 ∨
                      remainingBounces p = traceDepth scene - Z.of_nat k - 1)
                Hokk) as (Hle & Halive & Hdead & Htail); [done| |done|].
    { intros idx isect p Hp.
      destruct (shadeMaterial_thread_bounces iter (wrap32 (depth st + 1)) (materials scene)
                  idx isect p Hkeep) as [Hz|Hd].
      - rewrite Hp. unfold int_range, INT_MIN, INT_MAX in *. lia.
      - lia.
      - by left.
      - right. lia. }
    cbv zeta in Hle, Halive, Hdead, Htail.
    split.
    + eapply Forall_impl; [exact Halive|]. cbn. lia.
    + rewrite <- (drop_take_drop _ _ _ Hle). apply Forall_app. split.
      * eapply Forall_impl; [exact Hdead|]. cbn. lia.
      * by rewrite Htail.
Qed.

(** X6: if [scatterRay] leaves [remainingBounces] alone, the loop always
    ends with [num_paths == 0], at the latest in turn [traceDepth], where
    [depth == traceDepth] holds as well; and every path that [finalGather]
    then adds has run out of bounces: its [remainingBounces] is 0, or
    [traceDepth] itself when that is negative. *)
Theorem pathtrace_ends_spent sw scene iter d :
  camera_ok (camera scene) → device_sized scene d → int_range (traceDepth scene) →
  scatterRay_keeps_bounces →
  ∃ K : nat,
    ends_after sw scene iter (loop_entry scene iter d) K ∧
    Z.of_nat K <= Z.max 1 (traceDepth scene) ∧
    num_paths (after_bounces sw scene iter K (loop_entry scene iter d)) = 0 ∧
    ∀ fuel, (K ≤ fuel)%nat →
      ∃ d', pathtrace sw scene iter fuel d = Some d' ∧
            Forall (λ p, remainingBounces p = Z.min 0 (traceDepth scene)) (dev_paths d').
Proof.
  intros Hcam Hsized Hrange Hkeep.
  destruct (loop_ends sw scene iter d Hcam Hsized Hrange) as (K & Hends & Hmax).
  pose proof (loop_entry_ok scene iter d Hcam Hsized) as Hok.
  set (entry := loop_entry scene iter d) in *.
  assert (Hfinal : num_paths (after_bounces sw scene iter K entry) = 0 ∧
            Forall (λ p, remainingBounces p = Z.min 0 (traceDepth scene))
              (dev_paths (mem (after_bounces sw scene iter K entry)))).
  { destruct Hends as (HK & Hend & Hbefore).
    destruct (decide (1 <= traceDepth scene)) as [Hpos|Hneg].
    - destruct (after_bounces_countdown sw scene iter d K Hcam Hsized Hrange Hkeep Hpos)
        as [Hfront Hback]; [lia|].
      fold entry in Hfront, Hback.
      assert (Hzero : num_paths (after_bounces sw scene iter K entry) = 0).
      { unfold iterationComplete in Hend. apply orb_true_iff in Hend as [Hd|Hn];
          [|by apply bool_decide_eq_true in Hn].
        apply bool_decide_eq_true in Hd.
        assert (HKT : Z.of_nat K = traceDepth scene).
        { rewrite <- Hd. unfold entry. rewrite after_bounces_depth; cbn; [lia|lia|].
          destruct Hrange. lia. }
        destruct K as [|K]; [lia|]. rewrite after_bounces_S in *.
        pose proof (after_bounces_ok sw scene iter K _ Hok) as [Hs Hn].
        destruct (bounce_compacts sw scene iter _ Hs Hn)
          as (_ & _ & _ & Halive & _ & Hcount & _).
        rewrite Hcount.
        destruct (take _ _) as [|p l]; [done|].
        apply Forall_cons in Halive as [Hp _]. apply Forall_cons in Hfront as [Hp' _].
        lia. }
      split; [done|]. rewrite Hzero in Hback. cbn in Hback.
      eapply Forall_impl; [exact Hback|]. cbn. lia.
    - assert (HK1 : K = 1%nat) by lia. subst K.
      change (after_bounces sw scene iter 1 entry) with (bounce sw scene iter entry).
      destruct (loop_entry_paths scene iter d Hcam Hsized) as [_ Hall].
      split.
      + apply bounce_all_spent; [done|].
        eapply Forall_impl; [exact Hall|]. cbn. intros p [-> _]. lia.
      + assert (Hev : paths_evolve
                        (λ p p' : PathSegment F,
                           remainingBounces p = traceDepth scene →
                           remainingBounces p' = traceDepth scene)
                        (dev_paths (mem entry)) (dev_paths (mem (bounce sw scene iter entry)))).
        { apply bounce_evolves; try done.
          - intros p q r Hpq Hqr Hp. auto.
          - intros depth idx isect p Hp. rewrite shadeMaterial_thread_spent; [done|lia]. }
        eapply paths_evolve_Forall; [|exact Hev|exact Hall].
        cbn. intros p p' Hstep [Hp _]. rewrite (Hstep Hp). lia. }
  destruct Hfinal as [Hzero Hall].
  exists K. split; [done|]. split; [done|]. split; [done|].
  intros fuel Hfuel. eexists. split; [by apply pathtrace_run|]. exact Hall.
Qed.

End Spent.

(** [pathtrace_ends_spent] on the small scene at trace depth 3: the two
    paths bounce off the grey sphere three times and end with no bounce
    left. *)
Lemma pathtrace_ends_spent_witness :
  ∃ K d', @pathtrace Z ZFloat toy source_switches (toy_scene 3) 1 K (toy_device 2) = Some d' ∧
          Forall (λ p, remainingBounces p = 0) (dev_paths d').
Proof.
  destruct (@pathtrace_ends_spent Z ZFloat toy source_switches (toy_scene 3) 1
              (toy_device 2)) as (K & _ & _ & _ & Hrun).
  - vm_compute. repeat split; discriminate.
  - vm_compute. repeat split.
  - vm_compute. split; discriminate.
  - intros seg i n m rng. reflexivity.
  - destruct (Hrun K (le_n K)) as (d' & Hd' & Hall).
    exists K, d'. split; [exact Hd' | exact Hall].
Defined.

(** ** The order the material sort leaves *)

Section SortedIds.
Context {F : Type} `{FloatOps F} `{Externals F}.

(** X7: with [MATERIALS] on, after [setMaterialIds] and the two
    [thrust::sort_by_key] calls the first [num_paths] intersections are in
    ascending order of [materialId], so that paths of one material sit in
    adjacent slots; the first [num_paths] entries of both id buffers are
    those ids, and they are the ids the intersections had, rearranged. *)
Theorem material_sort_groups scene n d :
  device_sized scene d → 0 <= n <= pixelcount scene →
  let d2 := material_sort n d in
  let k := Z.to_nat n in
  let ids := materialId <$> take k (dev_intersections d2) in
  StronglySorted Z.le ids ∧
  take k (dev_isect_ids d2) = ids ∧
  take k (dev_ps_ids d2) = ids ∧
  ids ≡ₚ materialId <$> take k (dev_intersections d).
Proof.
  intros (Hi & Hp & Hx & Hii & Hpi) Hn d2 k ids.
  destruct (setMaterialIds_prefix n (dev_ps_ids d) (dev_isect_ids d)
              (dev_intersections d)) as [K1 K2]; [lia..|].
  fold k in K1, K2.
  set (keys := materialId <$> take k (dev_intersections d)) in *.
  assert (Hk : (k ≤ Z.to_nat (pixelcount scene))%nat) by (unfold k; lia).
  assert (Hlk : length keys = k).
  { unfold keys. rewrite length_fmap, length_take. lia. }
  destruct (sort_by_key_length (sort_tie SortIntersections keys) keys
              (take k (dev_intersections d))) as [Li1 Li2].
  { rewrite Hlk, length_take. lia. }
  destruct (sort_by_key_length (sort_tie SortPaths keys) keys (take k (dev_paths d)))
    as [Lp1 _].
  { rewrite Hlk, length_take. lia. }
  assert (Hids : ids = (sort_by_key (sort_tie SortIntersections keys) keys
                          (take k (dev_intersections d))).1).
  { unfold ids, d2, material_sort. cbv zeta. cbn [dev_intersections].
    unfold sort_prefix_by_key. cbv zeta. cbn [snd]. fold k. rewrite K2.
    rewrite take_app_length' by (rewrite Li2, length_take; lia).
    unfold keys. by rewrite <- sort_by_key_keyed. }
  split; [|split; [|split]].
  - rewrite Hids. apply sort_by_key_sorted.
  - rewrite Hids. unfold d2, material_sort. cbv zeta. cbn [dev_isect_ids].
    unfold sort_prefix_by_key. cbv zeta. cbn [fst]. fold k. rewrite K2.
    by rewrite take_app_length' by lia.
  - rewrite Hids. unfold d2, material_sort. cbv zeta. cbn [dev_ps_ids].
    unfold sort_prefix_by_key. cbv zeta. cbn [fst]. fold k. rewrite K1.
    rewrite take_app_length' by lia.
    apply sort_by_key_keys; rewrite ?Hlk, !length_take; lia.
  - rewrite Hids. apply sort_by_key_perm. rewrite Hlk, length_take. lia.
Qed.

End SortedIds.

(** [material_sort_groups] on the aimed scene: the first intersection
    stage leaves the materials 2 and 1, the sort leaves 1 and 2. *)
Lemma material_sort_groups_witness :
  let st := @loop_entry Z ZFloat aimed aimed_scene 1 (toy_device 2) in
  let d1 := @trace_stage Z ZFloat aimed sort_on aimed_scene st in
  materialId <$> dev_intersections d1 = [2; 1] ∧
  StronglySorted Z.le (materialId <$> dev_intersections (@material_sort Z aimed 2 d1)).
Proof.
  intros st d1. split; [reflexivity|].
  destruct (@material_sort_groups Z aimed aimed_scene 2 d1) as (Hsorted & _).
  - vm_compute. repeat split.
  - vm_compute. split; discriminate.
  - exact Hsorted.
Defined.

(** ** The buffers between calls *)

Section HostFacts.
Context {F : Type} `{FloatOps F} `{Externals F}.

(** A loop that returns has made a last turn. *)
Lemma bounce_loop_Some sw scene iter : ∀ fuel st st',
  bounce_loop sw scene iter fuel st = Some st' →
  ∃ K, (1 ≤ K ≤ fuel)%nat ∧ st' = complete scene (after_bounces sw scene iter K st).
Proof.
  induction fuel as [|fuel IH]; intros st st' Hrun; [done|].
  cbn [bounce_loop] in Hrun.
  destruct (iterationComplete scene (bounce sw scene iter st)) eqn:Hend.
  - injection Hrun as <-. exists 1%nat. split; [lia|done].
  - destruct (IH _ _ Hrun) as (K & HK & ->). exists (S K). split; [lia|].
    by rewrite after_bounces_S_r.
Qed.

Lemma gather_sized scene (st : Loop) :
  device_sized scene (mem st) → device_sized scene (gather (complete scene st)).
Proof.
  unfold device_sized, gather, complete, finalGather.
  cbn [mem num_paths dev_image dev_paths dev_intersections dev_isect_ids dev_ps_ids].
  by rewrite gather_fold_length.
Qed.

(** Without [MATERIALS] a turn of the loop neither reads nor writes the id
    buffers. *)
Lemma bounce_with_ids sw scene iter a b (st : Loop) :
  MATERIALS sw = false →
  bounce sw scene iter {| mem := with_ids a b (mem st);
                          num_paths := num_paths st; depth := depth st |}
  = let st' := bounce sw scene iter st in
    {| mem := with_ids a b (mem st'); num_paths := num_paths st'; depth := depth st' |}.
Proof.
  intros Hoff. unfold bounce, sort_stage. rewrite Hoff. reflexivity.
Qed.

Lemma bounce_loop_with_ids sw scene iter a b : ∀ fuel (st : Loop),
  MATERIALS sw = false →
  bounce_loop sw scene iter fuel {| mem := with_ids a b (mem st);
                                    num_paths := num_paths st; depth := depth st |}
  = (λ st', {| mem := with_ids a b (mem st'); num_paths := num_paths st';
               depth := depth st' |}) <$> bounce_loop sw scene iter fuel st.
Proof.
  induction fuel as [|fuel IH]; intros st Hoff; [done|].
  cbn [bounce_loop]. rewrite bounce_with_ids by done. cbv zeta.
  change (iterationComplete scene
            {| mem := with_ids a b (mem (bounce sw scene iter st));
               num_paths := num_paths (bounce sw scene iter st);
               depth := depth (bounce sw scene iter st) |})
    with (iterationComplete scene (bounce sw scene iter st)).
  destruct (iterationComplete scene (bounce sw scene iter st)); [done|].
  by apply IH.
Qed.

Lemma pathtrace_with_ids sw scene iter fuel a b d :
  MATERIALS sw = false →
  pathtrace sw scene iter fuel (with_ids a b d)
  = with_ids a b <$> pathtrace sw scene iter fuel d.
Proof.
  intros Hoff. unfold pathtrace.
  change (loop_entry scene iter (with_ids a b d))
    with {| mem := with_ids a b (mem (loop_entry scene iter d));
            num_paths := num_paths (loop_entry scene iter d);
            depth := depth (loop_entry scene iter d) |}.
  rewrite bounce_loop_with_ids by done.
  by destruct (bounce_loop sw scene iter fuel (loop_entry scene iter d)).
Qed.

(** X8: with [MATERIALS] off, as the source has it, [pathtrace] neither
    reads nor writes [dev_isect_ids] and [dev_ps_ids]: whatever the two
    buffers are (the source leaves them null), the call returns or not alike,
    with the same image, paths and intersections, and hands the two buffers
    back as they were. *)
Theorem pathtrace_ignores_ids sw scene iter fuel a b d :
  MATERIALS sw = false →
  pathtrace sw scene iter fuel (with_ids a b d)
  = with_ids a b <$> pathtrace sw scene iter fuel d.
Proof. apply pathtrace_with_ids. Qed.

(** The buffers [pathtraceInit] sizes are those of a fully sized device,
    up to the id buffers when [MATERIALS] is off. *)
Lemma buffers_ready_sized sw scene d :
  buffers_ready sw scene d →
  ∃ dS, device_sized scene dS ∧
        d = with_ids (dev_isect_ids d) (dev_ps_ids d) dS ∧
        (MATERIALS sw = true → dS = d).
Proof.
  intros (Hi & Hp & Hx & Hids).
  destruct (MATERIALS sw) eqn:Hsw.
  - destruct (Hids eq_refl) as [H1 H2]. exists d. split; [done|]. split; [|done].
    by destruct d.
  - exists (with_ids (replicate (Z.to_nat (pixelcount scene)) 0)
                     (replicate (Z.to_nat (pixelcount scene)) 0) d).
    split; [|split; [by destruct d|done]].
    unfold device_sized, with_ids.
    cbn [dev_image dev_paths dev_intersections dev_isect_ids dev_ps_ids].
    by rewrite !length_replicate.
Qed.

Lemma device_sized_ready sw scene d : device_sized scene d → buffers_ready sw scene d.
Proof. unfold device_sized, buffers_ready. cbv zeta. tauto. Qed.

(** A call on buffers of those sizes returns, in at most
    [max 1 traceDepth] turns, the device the loop on them leaves; the
    buffers keep their sizes. *)
Lemma pathtrace_ready_returns sw scene iter d :
  camera_ok (camera scene) → buffers_ready sw scene d → int_range (traceDepth scene) →
  ∃ K : nat, Z.of_nat K <= Z.max 1 (traceDepth scene) ∧
    ∀ fuel, (K ≤ fuel)%nat →
      ∃ d', pathtrace sw scene iter fuel d = Some d' ∧ buffers_ready sw scene d' ∧
            length (dev_image d') = length (dev_image d).
Proof.
  intros Hcam Hready Hrange.
  destruct (buffers_ready_sized sw scene d Hready) as (dS & Hsized & Hd & Hsame).
  destruct (loop_ends sw scene iter dS Hcam Hsized Hrange) as (K & Hends & Hmax).
  exists K. split; [done|]. intros fuel Hfuel.
  pose proof (pathtrace_run sw scene iter dS K fuel Hends Hfuel) as Hrun.
  pose proof (loop_entry_ok scene iter dS Hcam Hsized) as Hok.
  pose proof (after_bounces_ok sw scene iter K _ Hok) as [HsK _].
  pose proof (gather_sized scene _ HsK) as Hg.
  assert (Himg : length (dev_image (gather (complete scene
                    (after_bounces sw scene iter K (loop_entry scene iter dS)))))
                 = length (dev_image dS)).
  { destruct Hg as (-> & _). by destruct Hsized as (-> & _). }
  destruct (MATERIALS sw) eqn:Hsw.
  - rewrite <- (Hsame eq_refl) in *. eexists. split; [exact Hrun|].
    split; [by apply device_sized_ready | done].
  - rewrite Hd, pathtrace_with_ids, Hrun by done. eexists. split; [done|].
    split; [|done].
    destruct Hg as (G1 & G2 & G3 & _). unfold buffers_ready. rewrite Hsw.
    cbn [with_ids dev_image dev_paths dev_intersections]. done.
Qed.

(** X9: calls of [pathtrace] can follow one another.  On buffers of the
    sizes [pathtraceInit] gives (the id buffers only under [MATERIALS]),
    any sequence of iterations returns with a fuel of [max 1 traceDepth]
    turns for each, and leaves the buffers with the same sizes. *)
Theorem pathtrace_calls_return sw scene fuel iters d :
  camera_ok (camera scene) → buffers_ready sw scene d → int_range (traceDepth scene) →
  Z.max 1 (traceDepth scene) <= Z.of_nat fuel →
  ∃ d', pathtrace_calls sw scene fuel iters d = Some d' ∧ buffers_ready sw scene d' ∧
        length (dev_image d') = length (dev_image d).
Proof.
  intros Hcam Hready Hrange Hfuel. revert d Hready.
  unfold pathtrace_calls.
  induction iters as [|iter iters IH]; intros d Hready.
  { exists d. done. }
  cbn [foldl mbind option_bind].
  destruct (pathtrace_ready_returns sw scene iter d Hcam Hready Hrange)
    as (K & HK & Hrun).
  destruct (Hrun fuel ltac:(lia)) as (d1 & -> & Hready1 & Hlen1).
  destruct (IH d1 Hready1) as (d' & Hcalls & Hready' & Hlen').
  exists d'. split; [done|]. split; [done|]. congruence.
Qed.

(** X10: [pathtraceInit] leaves buffers on which the first call of
    [pathtrace] returns, whatever the allocated memory held and for either
    setting of [MATERIALS]: the image is [pixelcount] zeroes, and after the
    call every pixel holds zero plus the colour of the one path of that
    pixel. *)
Theorem pathtraceInit_first_call sw scene fresh iter :
  camera_ok (camera scene) → int_range (traceDepth scene) →
  scatterRay_keeps_pixelIndex →
  let d0 := device (pathtraceInit sw scene fresh) in
  buffers_ready sw scene d0 ∧
  dev_image d0 = replicate (Z.to_nat (pixelcount scene)) (vsplat (lit 0)) ∧
  ∃ K : nat, Z.of_nat K <= Z.max 1 (traceDepth scene) ∧
    ∀ fuel, (K ≤ fuel)%nat →
      ∃ d', pathtrace sw scene iter fuel d0 = Some d' ∧
        buffers_ready sw scene d' ∧
        ∀ i : nat, Z.of_nat i < pixelcount scene →
          ∃ p, p ∈ dev_paths d' ∧ pixelIndex p = Z.of_nat i ∧
               dev_image d' !! i = Some (vadd (vsplat (lit 0)) (color p)).
Proof.
  intros Hcam Hrange Hpx d0.
  assert (Hready : buffers_ready sw scene d0).
  { unfold buffers_ready, d0, pathtraceInit. cbv zeta.
    cbn [device dev_image dev_paths dev_intersections dev_isect_ids dev_ps_ids].
    rewrite !length_replicate, length_fmap, length_seq.
    split; [done|]. split; [done|]. split; [done|].
    intros ->. by rewrite !length_fmap, !length_seq. }
  split; [done|]. split; [done|].
  destruct (buffers_ready_sized sw scene d0 Hready) as (dS & Hsized & Hd & Hsame).
  destruct (loop_ends sw scene iter dS Hcam Hsized Hrange) as (K & Hends & Hmax).
  exists K. split; [done|]. intros fuel Hfuel.
  pose proof (pathtrace_run sw scene iter dS K fuel Hends Hfuel) as Hrun.
  set (final := complete scene (after_bounces sw scene iter K (loop_entry scene iter dS)))
    in *.
  assert (Himg : dev_image dS = dev_image d0) by (by rewrite Hd).
  assert (Hpixels : ∀ i : nat, Z.of_nat i < pixelcount scene →
            ∃ p, p ∈ dev_paths (gather final) ∧ pixelIndex p = Z.of_nat i ∧
                 dev_image (gather final) !! i = Some (vadd (vsplat (lit 0)) (color p))).
  { intros i Hi.
    destruct (final_paths sw scene iter dS K Hcam Hsized Hpx) as (_ & Hperm & _).
    assert (Hin : Z.of_nat i ∈ pixelIndex <$> dev_paths (mem final)).
    { unfold final, complete. cbn [mem]. rewrite Hperm. apply elem_of_seqZ. lia. }
    apply list_elem_of_fmap in Hin as (p & Hp & Hin).
    destruct (gather_final sw scene iter dS K p Hcam Hsized Hpx Hin)
      as (_ & old & Hold & Hnew).
    rewrite <- Hp, Nat2Z.id in Hold, Hnew.
    exists p. split; [done|]. split; [done|].
    fold final in Hnew. rewrite Hnew. do 2 f_equal.
    rewrite Himg in Hold. unfold d0, pathtraceInit in Hold. cbn [device dev_image] in Hold.
    apply lookup_replicate in Hold as [-> _]. done. }
  pose proof (loop_entry_ok scene iter dS Hcam Hsized) as Hok.
  pose proof (after_bounces_ok sw scene iter K _ Hok) as [HsK _].
  pose proof (gather_sized scene _ HsK) as Hg. fold final in Hg.
  destruct (MATERIALS sw) eqn:Hsw.
  - rewrite <- (Hsame eq_refl) in *. exists (gather final).
    split; [exact Hrun|]. split; [by apply device_sized_ready | exact Hpixels].
  - rewrite Hd, pathtrace_with_ids, Hrun by done. eexists. split; [done|]. split.
    + destruct Hg as (G1 & G2 & G3 & _). unfold buffers_ready. rewrite Hsw.
      cbn [with_ids dev_image dev_paths dev_intersections]. done.
    + exact Hpixels.
Qed.

End HostFacts.

(** [pathtrace_ignores_ids] on the small scene, with null id buffers. *)
Lemma pathtrace_ignores_ids_witness :
  @pathtrace Z ZFloat toy source_switches (toy_scene 1) 1 1 (with_ids [] [] (toy_device 2))
  = with_ids [] [] <$>
      @pathtrace Z ZFloat toy source_switches (toy_scene 1) 1 1 (toy_device 2).
Proof. apply (@pathtrace_ignores_ids Z ZFloat toy). reflexivity. Defined.

(** [pathtrace_calls_return] on the small scene at trace depth 3: three
    iterations after [pathtraceInit], in the source's configuration. *)
Lemma pathtrace_calls_return_witness :
  ∃ d', @pathtrace_calls Z ZFloat toy source_switches (toy_scene 3) 3 [1; 2; 3]
          (device (@pathtraceInit Z ZFloat toy source_switches (toy_scene 3) toy_fresh))
        = Some d' ∧ length (dev_image d') = 2%nat.
Proof.
  destruct (@pathtrace_calls_return Z ZFloat toy source_switches (toy_scene 3) 3 [1; 2; 3]
              (device (@pathtraceInit Z ZFloat toy source_switches (toy_scene 3) toy_fresh)))
    as (d' & Hrun & _ & Hlen).
  - vm_compute. repeat split; discriminate.
  - vm_compute. repeat split; easy.
  - vm_compute. split; discriminate.
  - vm_compute. discriminate.
  - exists d'. split; [exact Hrun | exact Hlen].
Defined.

(** [pathtraceInit_first_call] on the small scene at trace depth 3. *)
Lemma pathtraceInit_first_call_witness :
  ∃ K d', @pathtrace Z ZFloat toy source_switches (toy_scene 3) 1 K
            (device (@pathtraceInit Z ZFloat toy source_switches (toy_scene 3) toy_fresh))
          = Some d' ∧
          ∃ p, p ∈ dev_paths d' ∧ pixelIndex p = 0 ∧
               dev_image d' !! 0%nat = Some (@vadd Z ZFloat (Vec3 0 0 0) (color p)).
Proof.
  destruct (@pathtraceInit_first_call Z ZFloat toy source_switches (toy_scene 3)
              toy_fresh 1) as (_ & _ & K & _ & Hrun).
  - vm_compute. repeat split; discriminate.
  - vm_compute. split; discriminate.
  - intros seg i n m rng. reflexivity.
  - destruct (Hrun K (le_n K)) as (d' & Hd' & _ & Hpix).
    exists K, d'. split; [exact Hd'|]. apply (Hpix 0%nat). reflexivity.
Defined.

(** ** The display buffer *)

Section Display.
Context {F : Type} `{FloatOps F} `{Externals F} `{DisplayOps F}.
Implicit Types (cam : Camera F) (image : list (vec3 F)) (pbo : list uchar4).

Lemma clamp_byte x : 0 <= clamp x 0 255 <= 255 ∧ to_uchar (clamp x 0 255) = clamp x 0 255.
Proof.
  assert (Hr : 0 <= clamp x 0 255 <= 255) by (unfold clamp; lia).
  split; [done|]. unfold to_uchar. by apply Z.mod_small; lia.
Qed.

Lemma sendImageToPBO_thread_length resolution iter image pbo xy :
  length (sendImageToPBO_thread resolution iter image pbo xy) = length pbo.
Proof.
  unfold sendImageToPBO_thread, zalter. destruct xy as [x y].
  repeat case_match; by rewrite ?length_alter.
Qed.

Lemma sendImageToPBO_on_length threads resolution iter image pbo :
  length (sendImageToPBO_on threads resolution iter image pbo) = length pbo.
Proof.
  unfold sendImageToPBO_on. revert pbo.
  induction threads as [|xy threads IH]; intros pbo; simpl; [done|].
  by rewrite IH, sendImageToPBO_thread_length.
Qed.

(** After the threads [threads] have run, in that order, the slot of pixel
    (x, y) holds what its own thread wrote, if that thread was among them,
    and what it held before if not. *)
Lemma sendImageToPBO_on_lookup threads cam iter image pbo x y :
  camera_ok cam →
  Forall (λ xy, 0 <= xy.1 ∧ 0 <= xy.2) threads →
  0 <= x < ix (resolution cam) → 0 <= y < iy (resolution cam) →
  let slot := x + y * ix (resolution cam) in
  sendImageToPBO_on threads (resolution cam) iter image pbo !! Z.to_nat slot =
  (if bool_decide ((x, y) ∈ threads)
   then λ old, match zlookup image slot with
               | Some pix => display_pixel iter pix
               | None => old
               end
   else id) <$> pbo !! Z.to_nat slot.
Proof.
  intros Hcam Hpos Hx Hy slot. unfold sendImageToPBO_on.
  induction threads as [|[a b] threads IH] using rev_ind.
  - rewrite bool_decide_eq_false_2 by apply not_elem_of_nil.
    cbn [foldl]. by destruct (pbo !! _).
  - apply Forall_app in Hpos as [Hpos Hab].
    apply Forall_singleton in Hab as [Ha Hb]. simpl in Ha, Hb.
    rewrite foldl_app. cbn [foldl]. specialize (IH Hpos).
    set (prev := foldl (sendImageToPBO_thread (resolution cam) iter image) pbo threads) in *.
    unfold sendImageToPBO_thread.
    destruct (bool_decide (a < ix (resolution cam)) &&
              bool_decide (b < iy (resolution cam))) eqn:Hguard.
    + apply andb_prop in Hguard as [Ga Gb].
      apply bool_decide_eq_true_1 in Ga. apply bool_decide_eq_true_1 in Gb.
      change (wrap32 (a + wrap32 (b * ix (resolution cam)))) with (pixel_slot cam a b).
      destruct (pixel_slot_in_range cam a b Hcam) as [-> Hrange]; [lia..|].
      unfold zalter. rewrite bool_decide_eq_true_2 by lia.
      destruct (decide ((a, b) = (x, y))) as [Heq|Hne].
      * inversion Heq; subst a b. fold slot.
        rewrite list_lookup_alter_eq, IH.
        rewrite (bool_decide_eq_true_2 ((x, y) ∈ threads ++ [(x, y)]))
          by (apply elem_of_app; right; apply list_elem_of_singleton; done).
        destruct (pbo !! Z.to_nat slot) as [old|]; simpl; [|done].
        case_bool_decide; simpl; [|done].
        by destruct (zlookup image slot).
      * rewrite list_lookup_alter_ne.
        2:{ intros Hslot. apply Hne.
            apply Z2Nat.inj in Hslot; [|lia|unfold slot; nia].
            destruct (pixel_slot_inj cam a b x y) as [-> ->]; [lia..|done|done]. }
        rewrite IH. f_equal.
        rewrite (bool_decide_ext ((x, y) ∈ threads ++ [(a, b)]) ((x, y) ∈ threads)); [done|].
        rewrite elem_of_app, list_elem_of_singleton. intuition congruence.
    + rewrite IH. f_equal.
      rewrite (bool_decide_ext ((x, y) ∈ threads ++ [(a, b)]) ((x, y) ∈ threads)); [done|].
      rewrite elem_of_app, list_elem_of_singleton.
      split; [|tauto]. intros [Hin|Heq]; [done|].
      inversion Heq; subst a b.
      rewrite !bool_decide_eq_true_2 in Hguard by lia. done.
Qed.

(** No thread writes a slot from the pixel count on. *)
Lemma sendImageToPBO_on_beyond threads cam iter image pbo (i : nat) :
  camera_ok cam →
  Forall (λ xy, 0 <= xy.1 ∧ 0 <= xy.2) threads →
  ix (resolution cam) * iy (resolution cam) <= Z.of_nat i →
  sendImageToPBO_on threads (resolution cam) iter image pbo !! i = pbo !! i.
Proof.
  intros Hcam Hpos Hi. unfold sendImageToPBO_on. revert pbo.
  induction Hpos as [|[a b] threads [Ha Hb] _ IH]; intros pbo; [done|].
  cbn [foldl]. rewrite IH. unfold sendImageToPBO_thread.
  destruct (bool_decide (a < ix (resolution cam)) &&
            bool_decide (b < iy (resolution cam))) eqn:Hguard; [|done].
  apply andb_prop in Hguard as [Ga Gb].
  apply bool_decide_eq_true_1 in Ga. apply bool_decide_eq_true_1 in Gb.
  simpl in Ha, Hb.
  change (wrap32 (a + wrap32 (b * ix (resolution cam)))) with (pixel_slot cam a b).
  destruct (pixel_slot_in_range cam a b Hcam) as [-> Hrange]; [lia..|].
  unfold zalter. rewrite bool_decide_eq_true_2 by lia.
  apply list_lookup_alter_ne. lia.
Qed.

(** What the launch of [sendImageToPBO] leaves in the buffer. *)
Lemma sendImageToPBO_on_pixels threads cam iter image pbo :
  camera_ok cam →
  threads ≡ₚ grid2d cam →
  (Z.to_nat (ix (resolution cam) * iy (resolution cam)) ≤ length image)%nat →
  (Z.to_nat (ix (resolution cam) * iy (resolution cam)) ≤ length pbo)%nat →
  let out := sendImageToPBO_on threads (resolution cam) iter image pbo in
  length out = length pbo ∧
  (∀ i : nat, Z.of_nat i < ix (resolution cam) * iy (resolution cam) →
     ∃ pix, image !! i = Some pix ∧
       out !! i = Some {| c_x := display_channel iter (vx pix);
                          c_y := display_channel iter (vy pix);
                          c_z := display_channel iter (vz pix);
                          c_w := 0 |} ∧
       0 <= display_channel iter (vx pix) <= 255 ∧
       0 <= display_channel iter (vy pix) <= 255 ∧
       0 <= display_channel iter (vz pix) <= 255) ∧
  (∀ i : nat, ix (resolution cam) * iy (resolution cam) <= Z.of_nat i →
     out !! i = pbo !! i).
Proof.
  intros Hcam Hperm Himage Hpbo out.
  assert (Hpos : Forall (λ xy, 0 <= xy.1 ∧ 0 <= xy.2) threads)
    by (rewrite Hperm; apply grid2d_nonneg).
  split; [apply sendImageToPBO_on_length|]. split.
  - intros i Hi.
    destruct (slot_pixel cam i Hcam Hi) as (Hx & Hy & Hback).
    destruct (lookup_lt_is_Some_2 image i) as [pix Hpix]; [lia|].
    destruct (lookup_lt_is_Some_2 pbo i) as [old Hold]; [lia|].
    exists pix. split; [done|].
    pose proof (sendImageToPBO_on_lookup threads cam iter image pbo _ _
                  Hcam Hpos Hx Hy) as Hget.
    cbv zeta in Hget. rewrite Hback in Hget.
    rewrite bool_decide_eq_true_2 in Hget by (rewrite Hperm; by apply grid2d_covers).
    assert (Hslot : zlookup image
                      (Z.of_nat i mod ix (resolution cam)
                       + Z.of_nat i / ix (resolution cam) * ix (resolution cam))
                    = Some pix).
    { unfold zlookup. rewrite Hback.
      assert (0 <= Z.of_nat i / ix (resolution cam) * ix (resolution cam))
        by (apply Z.mul_nonneg_nonneg; lia).
      by rewrite bool_decide_eq_true_2 by lia. }
    rewrite Hslot, Hold in Hget. cbn in Hget.
    unfold out. rewrite Hget. unfold display_pixel, display_channel.
    destruct (clamp_byte (double_to_int (dmul (to_double (fdiv (vx pix) (of_int iter)))
                                              (dlit 255)))) as [Rx ->].
    destruct (clamp_byte (double_to_int (dmul (to_double (fdiv (vy pix) (of_int iter)))
                                              (dlit 255)))) as [Ry ->].
    destruct (clamp_byte (double_to_int (dmul (to_double (fdiv (vz pix) (of_int iter)))
                                              (dlit 255)))) as [Rz ->].
    done.
  - intros i Hi. by apply sendImageToPBO_on_beyond.
Qed.

(** X11: [sendImageToPBO] writes the slot of every pixel, in whatever
    order its threads run and whatever the buffer held: the three colour
    bytes are [clamp((int) (c / iter * 255.0), 0, 255)] of the pixel's
    channels, each between 0 and 255, so that the narrowing of the [int] to
    [unsigned char] loses nothing, and [w] is 0.  The buffer keeps its
    length, and slots from the pixel count on are not written. *)
Theorem sendImageToPBO_pixels threads cam iter image pbo :
  camera_ok cam →
  threads ≡ₚ grid2d cam →
  (Z.to_nat (ix (resolution cam) * iy (resolution cam)) ≤ length image)%nat →
  (Z.to_nat (ix (resolution cam) * iy (resolution cam)) ≤ length pbo)%nat →
  let out := sendImageToPBO_on threads (resolution cam) iter image pbo in
  length out = length pbo ∧
  (∀ i : nat, Z.of_nat i < ix (resolution cam) * iy (resolution cam) →
     ∃ pix, image !! i = Some pix ∧
       out !! i = Some {| c_x := display_channel iter (vx pix);
                          c_y := display_channel iter (vy pix);
                          c_z := display_channel iter (vz pix);
                          c_w := 0 |} ∧
       0 <= display_channel iter (vx pix) <= 255 ∧
       0 <= display_channel iter (vy pix) <= 255 ∧
       0 <= display_channel iter (vz pix) <= 255) ∧
  (∀ i : nat, ix (resolution cam) * iy (resolution cam) <= Z.of_nat i →
     out !! i = pbo !! i).
Proof. apply sendImageToPBO_on_pixels. Qed.

End Display.

(** [sendImageToPBO_pixels] on a 2 x 1 image at iteration 2: the channel
    1 becomes 0 (one half, rounded down, times 255), the channel 2 becomes
    255, and the channel 6 is clamped to 255. *)
Lemma sendImageToPBO_pixels_witness :
  @sendImageToPBO Z ZFloat ZDisplay (toy_camera 2 1) 2 [Vec3 1 2 6; Vec3 0 0 0]
    [mkUchar4 9 9 9 9; mkUchar4 9 9 9 9] !! 0%nat
  = Some (mkUchar4 0 255 255 0).
Proof.
  destruct (@sendImageToPBO_pixels Z ZFloat ZDisplay (grid2d (toy_camera 2 1))
              (toy_camera 2 1) 2 [Vec3 1 2 6; Vec3 0 0 0]
              [mkUchar4 9 9 9 9; mkUchar4 9 9 9 9]) as (_ & Hpix & _).
  - vm_compute. repeat split; discriminate.
  - reflexivity.
  - vm_compute. lia.
  - vm_compute. lia.
  - destruct (Hpix 0%nat) as (pix & Hin & Hout & _); [reflexivity|].
    vm_compute in Hin. injection Hin as <-. exact Hout.
Defined.

(** ** The first-bounce cache *)

Section CacheFacts.
Context {F : Type} `{FloatOps F} `{Externals F}.

Lemma memset_intersections_idem n (buf : list (ShadeableIntersection F)) :
  memset_intersections n (memset_intersections n buf) = memset_intersections n buf.
Proof.
  unfold memset_intersections. apply list_eq. intros i.
  rewrite !lookup_launch1d. destruct (buf !! i); cbn; [|done].
  by case_bool_decide.
Qed.

Lemma memset_intersections_sized n (buf : list (ShadeableIntersection F)) :
  length buf = Z.to_nat n →
  memset_intersections n buf = replicate (Z.to_nat n) zero_intersection.
Proof.
  intros Hlen. unfold memset_intersections. apply list_eq. intros i.
  rewrite lookup_launch1d.
  destruct (decide (i < length buf)%nat) as [Hi|Hi].
  - destruct (lookup_lt_is_Some_2 buf i Hi) as [a ->]. cbn.
    rewrite bool_decide_eq_true_2 by lia.
    symmetry. apply lookup_replicate_2. lia.
  - rewrite lookup_ge_None_2 by lia. cbn. symmetry.
    apply lookup_ge_None_2. rewrite length_replicate. lia.
Qed.

(** A copy of [count] slots between buffers of [count] slots. *)
Lemma cudaMemcpy_sized {A} n (dst src : list A) :
  length dst = Z.to_nat n → length src = Z.to_nat n → cudaMemcpy n dst src = src.
Proof.
  intros Hd Hs. unfold cudaMemcpy. apply list_eq. intros i.
  rewrite lookup_launch1d.
  destruct (decide (i < length dst)%nat) as [Hi|Hi].
  - destruct (lookup_lt_is_Some_2 dst i Hi) as [a ->].
    destruct (lookup_lt_is_Some_2 src i ltac:(lia)) as [b Hb]. cbn.
    rewrite bool_decide_eq_true_2 by lia. by rewrite Hb.
  - rewrite !lookup_ge_None_2 by lia. done.
Qed.

(** With the cache, a turn entered at another depth than 0 is a turn of
    the loop without it: the second [cudaMemset] changes nothing. *)
Lemma cached_bounce_bounce sw scene iter (st : Loop) :
  cached_bounce sw scene iter st = bounce sw scene iter st.
Proof.
  unfold cached_bounce, bounce, trace_stage.
  cbn [mem num_paths depth set_intersections dev_image dev_paths dev_intersections
       dev_isect_ids dev_ps_ids].
  by rewrite memset_intersections_idem.
Qed.

(** With enough fuel the cached loop, entered past depth 0, returns
    after the last turn of the loop without the cache. *)
Lemma cached_loop_run sw scene iter first K : ∀ fuel st,
  ends_after sw scene iter st K →
  (∀ j, (j < K)%nat → depth (after_bounces sw scene iter j st) ≠ 0) →
  (K ≤ fuel)%nat →
  cached_loop sw scene iter first fuel st
  = Some (complete scene (after_bounces sw scene iter K st)).
Proof.
  induction K as [|K IH]; intros fuel st (HK & Hend & Hbefore) Hdepth Hfuel; [lia|].
  destruct fuel as [|fuel]; [lia|]. cbn [cached_loop].
  rewrite bool_decide_eq_false_2 by (apply (Hdepth 0%nat); lia).
  rewrite cached_bounce_bounce.
  destruct K as [|K].
  - change (after_bounces sw scene iter 1 st) with (bounce sw scene iter st) in *.
    by rewrite Hend.
  - pose proof (Hbefore 1%nat ltac:(lia)) as Hfirst.
    change (after_bounces sw scene iter 1 st) with (bounce sw scene iter st) in Hfirst.
    rewrite Hfirst.
    rewrite IH with (st := bounce sw scene iter st); [| | |lia].
    + by rewrite <- after_bounces_S_r.
    + split; [lia|]. split.
      * by rewrite <- after_bounces_S_r.
      * intros j Hj. rewrite <- after_bounces_S_r. apply Hbefore. lia.
    + intros j Hj. rewrite <- after_bounces_S_r. apply Hdepth. lia.
Qed.

(** From a state whose active paths have [v] bounces and whose other
    paths have none, [k] turns leave [v - k] bounces to the active paths. *)
Lemma bounces_countdown sw scene iter (st : Loop) v (k : nat) :
  scatterRay_keeps_bounces → loop_ok scene st → int_range v →
  Forall (λ p, remainingBounces p = v)
    (take (Z.to_nat (num_paths st)) (dev_paths (mem st))) →
  Forall (λ p, remainingBounces p = 0)
    (drop (Z.to_nat (num_paths st)) (dev_paths (mem st))) →
  Z.of_nat k <= v →
  let st' := after_bounces sw scene iter k st in
  Forall (λ p, remainingBounces p = v - Z.of_nat k)
    (take (Z.to_nat (num_paths st')) (dev_paths (mem st'))) ∧
  Forall (λ p, remainingBounces p = 0)
    (drop (Z.to_nat (num_paths st')) (dev_paths (mem st'))).
Proof.
  intros Hkeep Hok Hrange Hfront0 Hback0 Hk. cbv zeta.
  induction k as [|k IH].
  - change (after_bounces sw scene iter 0 st) with st. split; [|done].
    eapply Forall_impl; [exact Hfront0|]. cbn. lia.
  - destruct IH as [Hfront Hback]; [lia|].
    pose proof (after_bounces_ok sw scene iter k _ Hok) as Hokk.
    rewrite after_bounces_S.
    set (stk := after_bounces sw scene iter k st) in *.
    destruct (bounce_split sw scene iter stk
                (λ p, remainingBounces p = v - Z.of_nat k)
                (λ p, remainingBounces p = 0 ∨ remainingBounces p = v - Z.of_nat k - 1)
                Hokk) as (Hle & Halive & Hdead & Htail); [done| |done|].
    { intros idx isect p Hp.
      destruct (shadeMaterial_thread_bounces iter (wrap32 (depth stk + 1)) (materials scene)
                  idx isect p Hkeep) as [Hz|Hd].
      - rewrite Hp. unfold int_range, INT_MIN, INT_MAX in *. lia.
      - lia.
      - by left.
      - right. lia. }
    cbv zeta in Hle, Halive, Hdead, Htail.
    split.
    + eapply Forall_impl; [exact Halive|]. cbn. lia.
    + rewrite <- (drop_take_drop _ _ _ Hle). apply Forall_app. split.
      * eapply Forall_impl; [exact Hdead|]. cbn. lia.
      * by rewrite Htail.
Qed.

(** What the first shading turn of the cached loop is entered with. *)
Lemma cached_entry_state sw scene iter b :
  camera_ok (camera scene) → device_sized scene (device b) →
  length (dev_first_paths b) = Z.to_nat (pixelcount scene) →
  let b1 := cache_first_bounce sw scene iter b in
  let st := cached_entry sw scene iter b in
  loop_ok scene st ∧ depth st = 1 ∧ num_paths st = pixelcount scene ∧
  length (dev_first_paths b1) = Z.to_nat (pixelcount scene) ∧
  dev_paths (mem st) = dev_first_paths b1 ∧
  dev_intersections (mem st) = replicate (Z.to_nat (pixelcount scene)) zero_intersection ∧
  dev_image (mem st) = dev_image (device b).
Proof.
  intros Hcam (Hi & Hp & Hx & Hii & Hpi) Hfirst b1 st.
  destruct (pixelcount_ok scene Hcam) as [_ Hpos].
  assert (Hlen1 : length (dev_first_paths b1) = Z.to_nat (pixelcount scene)).
  { unfold b1, cache_first_bounce. case_bool_decide; [|done].
    cbn [dev_first_paths]. unfold computeIntersections. cbn [fst].
    rewrite length_launch1d. unfold generateRayFromCamera.
    by rewrite generateRayFromCamera_on_length. }
  assert (Hlenp : length (dev_paths (device b1)) = Z.to_nat (pixelcount scene)).
  { unfold b1, cache_first_bounce. case_bool_decide; [done|].
    cbn [device set_paths dev_paths]. unfold cudaMemcpy. by rewrite length_launch1d. }
  assert (Hlenx : length (dev_intersections (device b1)) = Z.to_nat (pixelcount scene)).
  { unfold b1, cache_first_bounce. case_bool_decide; [|done].
    cbn [device set_intersections dev_intersections]. unfold computeIntersections.
    cbn [snd]. by rewrite length_launch1d. }
  assert (Hsame : dev_image (device b1) = dev_image (device b) ∧
                  dev_isect_ids (device b1) = dev_isect_ids (device b) ∧
                  dev_ps_ids (device b1) = dev_ps_ids (device b)).
  { unfold b1, cache_first_bounce. by case_bool_decide. }
  destruct Hsame as (Himg & Hids1 & Hids2).
  assert (Hpaths : dev_paths (mem st) = dev_first_paths b1).
  { unfold st, cached_entry, use_cache. fold b1.
    cbn [mem set_paths dev_paths]. by apply cudaMemcpy_sized. }
  assert (Hisects : dev_intersections (mem st)
                    = replicate (Z.to_nat (pixelcount scene)) zero_intersection).
  { unfold st, cached_entry, use_cache. fold b1.
    cbn [mem set_paths set_intersections dev_intersections].
    by apply memset_intersections_sized. }
  split; [|done]. split; [|cbn; lia].
  unfold device_sized. rewrite Hpaths, Hisects, length_replicate.
  unfold st, cached_entry, use_cache. fold b1.
  cbn [mem set_paths set_intersections dev_image dev_isect_ids dev_ps_ids].
  rewrite Himg, Hids1, Hids2. done.
Qed.

(** The cached call is the one copy turn and then the loop without the
    cache, from [cached_entry]. *)
Lemma pathtrace_cached_run sw scene iter b K fuel :
  ends_after sw scene iter (cached_entry sw scene iter b) K →
  (∀ j, (j < K)%nat →
     depth (after_bounces sw scene iter j (cached_entry sw scene iter b)) ≠ 0) →
  (S K ≤ fuel)%nat →
  pathtrace_cached sw scene iter fuel b
  = Some {| device := gather (complete scene
                        (after_bounces sw scene iter K (cached_entry sw scene iter b)));
            dev_first_paths := dev_first_paths (cache_first_bounce sw scene iter b) |}.
Proof.
  intros Hends Hdepth Hfuel. unfold pathtrace_cached. cbv zeta.
  destruct fuel as [|fuel]; [lia|]. cbn [cached_loop depth].
  rewrite bool_decide_eq_true_2 by done.
  change (use_cache scene (dev_first_paths (cache_first_bounce sw scene iter b))
            {| mem := device (cache_first_bounce sw scene iter b);
               num_paths := pixelcount scene; depth := 0 |})
    with (cached_entry sw scene iter b).
  rewrite (cached_loop_run sw scene iter _ K) by (done || lia). done.
Qed.

(** X12: with [CACHEBOUNCE] set and a trace depth of 2 or more, the turn
    of the loop entered with [depth == 0] only copies the cache and counts
    as a depth: the loop ends after at most [traceDepth - 1] further turns,
    so [shadeMaterial] is launched at most [traceDepth - 1] times, one less
    than the trace depth, whatever the cache holds; the call returns with
    fuel for those turns and the copy turn. *)
Theorem cached_loop_ends sw scene iter b :
  camera_ok (camera scene) → device_sized scene (device b) →
  length (dev_first_paths b) = Z.to_nat (pixelcount scene) →
  int_range (traceDepth scene) → 2 <= traceDepth scene →
  let entry := cached_entry sw scene iter b in
  ∃ K : nat,
    ends_after sw scene iter entry K ∧
    Z.of_nat K <= traceDepth scene - 1 ∧
    depth (after_bounces sw scene iter K entry) = Z.of_nat K + 1 ∧
    ∀ fuel, (S K ≤ fuel)%nat →
      pathtrace_cached sw scene iter fuel b
      = Some {| device := gather (complete scene (after_bounces sw scene iter K entry));
                dev_first_paths := dev_first_paths (cache_first_bounce sw scene iter b) |}.
Proof.
  intros Hcam Hsized Hfirst Hrange Hdeep entry.
  destruct (cached_entry_state sw scene iter b Hcam Hsized Hfirst)
    as (Hok & Hd1 & _). fold entry in Hok, Hd1.
  assert (Hdepth : ∀ j : nat, Z.of_nat j <= traceDepth scene - 1 →
            depth (after_bounces sw scene iter j entry) = Z.of_nat j + 1).
  { intros j Hj. rewrite after_bounces_depth; rewrite Hd1; [lia|lia|].
    destruct Hrange as [_ Hmax]. lia. }
  destruct (first_turn
              (λ j, iterationComplete scene (after_bounces sw scene iter j entry))
              (Z.to_nat (traceDepth scene - 1))) as (K & HK & Hend & Hleast); [lia| |].
  { unfold iterationComplete. rewrite Hdepth by lia.
    rewrite bool_decide_eq_true_2; [done|lia]. }
  exists K. split; [split; [lia|done]|]. split; [lia|]. split; [apply Hdepth; lia|].
  intros fuel Hfuel. apply pathtrace_cached_run; [split; [lia|done]| |done].
  intros j Hj. rewrite Hdepth by lia. lia.
Qed.

Lemma use_cache_ok scene first (st : Loop) :
  loop_ok scene st → loop_ok scene (use_cache scene first st).
Proof.
  intros [(Hi & Hp & Hx & Hii & Hpi) Hn]. split; [|done].
  unfold device_sized, use_cache, cudaMemcpy, memset_intersections.
  cbn [mem set_paths set_intersections dev_image dev_paths dev_intersections
       dev_isect_ids dev_ps_ids].
  by rewrite !length_launch1d.
Qed.

(** Whatever the cached loop returns, the buffers have kept their sizes. *)
Lemma cached_loop_sized sw scene iter first : ∀ fuel (st st' : Loop),
  loop_ok scene st →
  cached_loop sw scene iter first fuel st = Some st' →
  device_sized scene (mem st').
Proof.
  induction fuel as [|fuel IH]; intros st st' Hok Hrun; [done|].
  cbn [cached_loop] in Hrun. case_bool_decide.
  - eapply IH; [|exact Hrun]. by apply use_cache_ok.
  - rewrite cached_bounce_bounce in Hrun.
    destruct (bounce_ok sw scene iter st Hok) as [Hok' _].
    destruct (iterationComplete scene (bounce sw scene iter st)).
    + injection Hrun as <-. by destruct Hok'.
    + by eapply IH.
Qed.

(** What the first iteration leaves in the cache: the rays of the
    generator at iteration 1, with the intersection points of the launch
    before the loop. *)
Lemma cache_first_bounce_fills sw scene b :
  let b1 := cache_first_bounce sw scene 1 b in
  let generated := generateRayFromCamera (camera scene) 1 (traceDepth scene)
                     (dev_first_paths b) in
  written_by_generator <$> dev_first_paths b1 = written_by_generator <$> generated.
Proof.
  cbv zeta. unfold cache_first_bounce. rewrite bool_decide_eq_true_2 by done.
  cbn [dev_first_paths]. unfold computeIntersections. cbn [fst].
  apply fmap_launch1d. intros i a. reflexivity.
Qed.

(** X13: with [CACHEBOUNCE] set, an iteration other than the first traces
    the rays of the first.  After a call for iteration 1 has returned, a call
    for any other iteration enters its first shading turn with [dev_paths]
    a copy of [dev_first_paths]: the origins, directions, colours, pixel
    indices and bounce counts that [generateRayFromCamera] wrote at
    iteration 1, jitter included; the generator is not launched, and the
    cache is left as it is.  The intersections are all zeroes there: those
    of the launch before the loop are cleared unread. *)
Theorem cache_reuses_first_rays sw scene fuel iter b b1 :
  camera_ok (camera scene) → device_sized scene (device b) →
  length (dev_first_paths b) = Z.to_nat (pixelcount scene) →
  pathtrace_cached sw scene 1 fuel b = Some b1 →
  iter ≠ 1 →
  let st := cached_entry sw scene iter b1 in
  dev_paths (mem st) = dev_first_paths b1 ∧
  written_by_generator <$> dev_paths (mem st)
  = written_by_generator <$>
      generateRayFromCamera (camera scene) 1 (traceDepth scene) (dev_first_paths b) ∧
  dev_intersections (mem st)
  = replicate (Z.to_nat (pixelcount scene)) zero_intersection ∧
  dev_first_paths (cache_first_bounce sw scene iter b1) = dev_first_paths b1.
Proof.
  intros Hcam Hsized Hfirst Hrun Hiter st.
  destruct (cached_entry_state sw scene 1 b Hcam Hsized Hfirst)
    as (Hok1 & _ & _ & Hlen1 & _).
  unfold pathtrace_cached in Hrun. cbv zeta in Hrun.
  destruct (cached_loop sw scene 1 _ fuel _) as [last|] eqn:Hloop; [|done].
  injection Hrun as <-.
  assert (Hsized1 : device_sized scene (gather last)).
  { destruct fuel as [|fuel]; [done|]. cbn [cached_loop depth] in Hloop.
    rewrite bool_decide_eq_true_2 in Hloop by done.
    pose proof (cached_loop_sized sw scene 1 _ fuel _ last Hok1 Hloop) as Hs.
    unfold device_sized, gather, finalGather in *.
    cbn [dev_image dev_paths dev_intersections dev_isect_ids dev_ps_ids].
    by rewrite gather_fold_length. }
  set (b1 := {| device := gather last;
                dev_first_paths := dev_first_paths (cache_first_bounce sw scene 1 b) |}) in *.
  destruct (cached_entry_state sw scene iter b1 Hcam Hsized1 Hlen1)
    as (_ & _ & _ & _ & Hpaths & Hisects & _).
  fold st in Hpaths, Hisects.
  assert (Hkeep : dev_first_paths (cache_first_bounce sw scene iter b1) = dev_first_paths b1).
  { unfold cache_first_bounce. by rewrite bool_decide_eq_false_2. }
  rewrite Hkeep in Hpaths.
  split; [done|]. split; [|done].
  etransitivity; [exact (f_equal (fmap written_by_generator) Hpaths)|].
  apply cache_first_bounce_fills.
Qed.

(** X14: with [CACHEBOUNCE] set, a trace depth of 2 or more, and a
    [scatterRay] that leaves [remainingBounces] alone, the first iteration
    ends with every path that is still active holding exactly one bounce:
    a path that scatters in every turn is cut one bounce short of the trace
    depth, and [finalGather] adds its colour as it then is.  The other paths
    have no bounce left. *)
Theorem cached_paths_cut_short sw scene b :
  camera_ok (camera scene) → device_sized scene (device b) →
  length (dev_first_paths b) = Z.to_nat (pixelcount scene) →
  int_range (traceDepth scene) → 2 <= traceDepth scene →
  scatterRay_keeps_bounces →
  let entry := cached_entry sw scene 1 b in
  ∃ K : nat,
    ends_after sw scene 1 entry K ∧ Z.of_nat K <= traceDepth scene - 1 ∧
    let last := after_bounces sw scene 1 K entry in
    Forall (λ p, remainingBounces p = 1)
      (take (Z.to_nat (num_paths last)) (dev_paths (mem last))) ∧
    Forall (λ p, remainingBounces p = 0)
      (drop (Z.to_nat (num_paths last)) (dev_paths (mem last))) ∧
    ∀ fuel, (S K ≤ fuel)%nat →
      ∃ b', pathtrace_cached sw scene 1 fuel b = Some b' ∧
            dev_paths (device b') = dev_paths (mem last).
Proof.
  intros Hcam Hsized Hfirst Hrange Hdeep Hkeep entry.
  destruct (cached_entry_state sw scene 1 b Hcam Hsized Hfirst)
    as (Hok & Hd1 & Hn & Hlen1 & Hpaths & _). fold entry in Hok, Hd1, Hn, Hpaths.
  assert (Hdepth : ∀ j : nat, Z.of_nat j <= traceDepth scene - 1 →
            depth (after_bounces sw scene 1 j entry) = Z.of_nat j + 1).
  { intros j Hj. rewrite after_bounces_depth; rewrite Hd1; [lia|lia|].
    destruct Hrange as [_ Hmax]. lia. }
  destruct (first_turn
              (λ j, iterationComplete scene (after_bounces sw scene 1 j entry))
              (Z.to_nat (traceDepth scene - 1))) as (K & HK & Hend & Hleast); [lia| |].
  { unfold iterationComplete. rewrite Hdepth by lia.
    rewrite bool_decide_eq_true_2; [done|lia]. }
  exists K. split; [split; [lia|done]|]. split; [lia|]. cbv zeta.
  assert (Hall : Forall (λ p, remainingBounces p = traceDepth scene) (dev_paths (mem entry))).
  { rewrite Hpaths.
    pose proof (cache_first_bounce_fills sw scene b) as Hfill. cbv zeta in Hfill.
    destruct (pixelcount_ok scene Hcam) as [Hpc _].
    destruct (generateRayFromCamera_all (camera scene) 1 (traceDepth scene)
                (dev_first_paths b) Hcam) as [_ Hgen]; [by rewrite <- Hpc|].
    assert (Hrb : remainingBounces <$> dev_first_paths (cache_first_bounce sw scene 1 b)
                  = remainingBounces <$> generateRayFromCamera (camera scene) 1
                                           (traceDepth scene) (dev_first_paths b)).
    { apply (f_equal (fmap (λ w : vec3 F * vec3 F * vec3 F * Z * Z, w.2))) in Hfill.
      rewrite <- !list_fmap_compose in Hfill. exact Hfill. }
    apply (Forall_fmap remainingBounces (λ v, v = traceDepth scene)). rewrite Hrb.
    apply Forall_fmap. eapply Forall_impl; [exact Hgen|]. cbn. tauto. }
  destruct (bounces_countdown sw scene 1 entry (traceDepth scene) K Hkeep Hok Hrange)
    as [Hfront Hback]; [|rewrite Hn, drop_ge; [constructor|]|lia|].
  { by apply Forall_take. }
  { destruct Hok as [(_ & -> & _) _]. lia. }
  set (last := after_bounces sw scene 1 K entry) in *.
  split; [|split; [done|]].
  - destruct (decide (Z.of_nat K = traceDepth scene - 1)) as [HKT|HKT].
    + eapply Forall_impl; [exact Hfront|]. cbn. lia.
    + assert (Hzero : num_paths last = 0).
      { unfold iterationComplete in Hend. apply orb_true_iff in Hend as [Hd|Hz].
        - apply bool_decide_eq_true in Hd. unfold last in Hd.
          rewrite Hdepth in Hd by lia. lia.
        - by apply bool_decide_eq_true in Hz. }
      rewrite Hzero. constructor.
  - intros fuel Hfuel. eexists. split.
    + apply (pathtrace_cached_run sw scene 1 b K); [split; [lia|done]| |done].
      intros j Hj. fold entry. rewrite Hdepth by lia. lia.
    + reflexivity.
Qed.

End CacheFacts.

(** [cached_loop_ends] on the small scene at trace depth 3: the first
    iteration returns with fuel for the copy turn and two shading turns. *)
Lemma cached_loop_ends_witness :
  ∃ b', @pathtrace_cached Z ZFloat toy source_switches (toy_scene 3) 1 3 (toy_buffers 2)
        = Some b'.
Proof.
  destruct (@cached_loop_ends Z ZFloat toy source_switches (toy_scene 3) 1 (toy_buffers 2))
    as (K & _ & HK & _ & Hrun).
  - vm_compute. repeat split; discriminate.
  - vm_compute. repeat split.
  - reflexivity.
  - vm_compute. split; discriminate.
  - vm_compute. discriminate.
  - eexists. apply Hrun. cbn in HK. lia.
Defined.

(** [cache_reuses_first_rays] on the small scene: after iteration 1, the
    paths iteration 2 starts to shade are those of the cache. *)
Lemma cache_reuses_first_rays_witness :
  ∃ b1, @pathtrace_cached Z ZFloat toy source_switches (toy_scene 2) 1 2 (toy_buffers 2)
        = Some b1 ∧
        dev_paths (mem (@cached_entry Z ZFloat toy source_switches (toy_scene 2) 2 b1))
        = dev_first_paths b1.
Proof.
  destruct (@pathtrace_cached Z ZFloat toy source_switches (toy_scene 2) 1 2 (toy_buffers 2))
    as [b1|] eqn:Hrun; [|by vm_compute in Hrun].
  exists b1. split; [reflexivity|].
  destruct (@cache_reuses_first_rays Z ZFloat toy source_switches (toy_scene 2) 2 2
              (toy_buffers 2) b1) as (Hpaths & _).
  - vm_compute. repeat split; discriminate.
  - vm_compute. repeat split.
  - reflexivity.
  - exact Hrun.
  - discriminate.
  - exact Hpaths.
Defined.

(** [cached_paths_cut_short] on the small scene at trace depth 2: both
    paths scatter off the grey sphere once and are gathered with one bounce
    left. *)
Lemma cached_paths_cut_short_witness :
  ∃ b', @pathtrace_cached Z ZFloat toy source_switches (toy_scene 2) 1 2 (toy_buffers 2)
        = Some b' ∧
        Forall (λ p, remainingBounces p = 1) (dev_paths (device b')).
Proof.
  destruct (@cached_paths_cut_short Z ZFloat toy source_switches (toy_scene 2)
              (toy_buffers 2)) as (K & (HK1 & _) & HK & Hfront & _ & Hrun).
  - vm_compute. repeat split; discriminate.
  - vm_compute. repeat split.
  - reflexivity.
  - vm_compute. split; discriminate.
  - vm_compute. discriminate.
  - intros seg i n m rng. reflexivity.
  - assert (HK2 : K = 1%nat) by (cbn in HK; lia). subst K.
    destruct (Hrun 2%nat (le_n 2)) as (b' & Hb' & Hpaths).
    exists b'. split; [exact Hb'|]. rewrite Hpaths. exact Hfront.
Defined.

(** ** What the kernels leave alone, and the bounds of their indices *)

Section Frames.
Context {F : Type} `{FloatOps F} `{Externals F}.
Implicit Types (cam : Camera F) (buf : list (PathSegment F)).

Lemma generateRay_thread_intersect cam iter td buf xy :
  (λ p, intersect (ray p)) <$> generateRay_thread cam iter td buf xy
  = (λ p, intersect (ray p)) <$> buf.
Proof.
  unfold generateRay_thread, zalter. destruct xy as [x y].
  repeat case_match; try done.
  apply list_eq. intros i. rewrite !list_lookup_fmap.
  destruct (decide (i = Z.to_nat (pixel_slot cam x y))) as [->|Hne].
  - rewrite list_lookup_alter_eq. destruct (buf !! _) as [seg|]; [|done].
    cbn. f_equal. unfold generateRay_segment. by destruct (jitter iter x y).
  - by rewrite list_lookup_alter_ne.
Qed.

(** X15: [generateRayFromCamera] never writes [ray.intersect]: whatever
    threads run, every slot keeps the intersection point it held, the one a
    hit of an earlier iteration left there; the array keeps its length; and
    the threads of the 8 x 8 blocks that fall outside the image write
    nothing. *)
Theorem generateRayFromCamera_frame threads cam iter td buf :
  let out := generateRayFromCamera_on threads cam iter td buf in
  length out = length buf ∧
  (λ p, intersect (ray p)) <$> out = (λ p, intersect (ray p)) <$> buf ∧
  (Forall (λ xy, ¬ (xy.1 < ix (resolution cam) ∧ xy.2 < iy (resolution cam))) threads →
   out = buf).
Proof.
  cbv zeta. split; [apply generateRayFromCamera_on_length|].
  unfold generateRayFromCamera_on. split.
  - revert buf. induction threads as [|xy threads IH]; intros buf; [done|].
    cbn [foldl]. by rewrite IH, generateRay_thread_intersect.
  - intros Hout. revert buf.
    induction Hout as [|[x y] threads Hxy _ IH]; intros buf; [done|].
    cbn [foldl]. rewrite IH. unfold generateRay_thread. cbn [fst snd] in Hxy.
    destruct (bool_decide (x < ix (resolution cam)) &&
              bool_decide (y < iy (resolution cam))) eqn:Hguard; [|done].
    apply andb_prop in Hguard as [Gx Gy].
    apply bool_decide_eq_true_1 in Gx. apply bool_decide_eq_true_1 in Gy. tauto.
Qed.

(** X16: the indices an iteration goes through stay inside the arrays.
    Every generator thread that passes the guard writes a slot of
    [dev_paths]; after any number of turns of the loop every path names a
    pixel of [dev_image], so the write of [finalGather] is in bounds
    whenever the loop ends; and whatever the uninitialised locals held, the
    index at which [computeIntersections] reads [materialid] is inside the
    collection, [geoms] or [triangles], that [hitmesh] selects. *)
Theorem pathtrace_in_bounds sw scene iter d :
  camera_ok (camera scene) → device_sized scene d → scatterRay_keeps_pixelIndex →
  (∀ x y, (x, y) ∈ grid2d (camera scene) →
     x < ix (resolution (camera scene)) → y < iy (resolution (camera scene)) →
     0 <= pixel_slot (camera scene) x y < Z.of_nat (length (dev_paths d))) ∧
  (∀ k, Forall (λ p, 0 <= pixelIndex p < Z.of_nat (length (dev_image d)))
          (dev_paths (mem (after_bounces sw scene iter k (loop_entry scene iter d))))) ∧
  (∀ u seg,
     let st := computeIntersections_thread sw (geoms scene) (triangles scene) u seg in
     l_hit_geom_index st ≠ -1 →
     0 <= l_hit_geom_index st
     < Z.of_nat (length (if l_hitmesh st then triangles scene else geoms scene))).
Proof.
  intros Hcam Hsized Hpx. split; [|split].
  - by apply (pathtrace_indices_in_range sw scene iter d 0).
  - intros k. by apply (pathtrace_indices_in_range sw scene iter d k).
  - intros u seg st Hhit.
    destruct (geom_scan_owned sw (ray seg) (geoms scene) (triangles scene)
                (isect_init u seg)) as [[Hmiss _]|Hin]; [by left|done|done].
Qed.

End Frames.

(** [pathtrace_in_bounds] on the small scene at trace depth 3. *)
Lemma pathtrace_in_bounds_witness :
  Forall (λ p, 0 <= pixelIndex p < 2)
    (dev_paths (mem (@after_bounces Z ZFloat toy source_switches (toy_scene 3) 1 2
                       (@loop_entry Z ZFloat toy (toy_scene 3) 1 (toy_device 2))))).
Proof.
  destruct (@pathtrace_in_bounds Z ZFloat toy source_switches (toy_scene 3) 1 (toy_device 2))
    as (_ & Hpix & _).
  - vm_compute. repeat split; discriminate.
  - vm_compute. repeat split.
  - intros seg i n m rng. reflexivity.
  - exact (Hpix 2%nat).
Defined.

(** ** A scene without primitives *)

Section EmptyScene.
Context {F : Type} `{FloatOps F} `{Externals F}.

(** With no primitive to test, every thread of [computeIntersections]
    writes the miss record. *)
Lemma trace_stage_empty sw scene (st : Loop) :
  geoms scene = [] → loop_ok scene st →
  Forall (λ isect, t isect = lit (-1))
    (take (Z.to_nat (num_paths st)) (dev_intersections (trace_stage sw scene st))).
Proof.
  intros Hempty [(_ & Hp & Hx & _) Hn].
  apply Forall_lookup. intros i isect Hget.
  apply lookup_take_Some in Hget as [Hget Hi].
  destruct (lookup_lt_is_Some_2 (dev_paths (mem st)) i) as [seg Hseg]; [lia|].
  destruct (lookup_lt_is_Some_2
              (memset_intersections (pixelcount scene) (dev_intersections (mem st))) i)
    as [old Hold].
  { unfold memset_intersections. rewrite length_launch1d. lia. }
  unfold trace_stage in Hget. cbn [dev_intersections] in Hget.
  erewrite computeIntersections_lookup in Hget; [|done|done|lia].
  injection Hget as <-. rewrite Hempty.
  by rewrite write_intersection_miss.
Qed.

(** A turn in which no active path has a hit keeps the pixel of every
    path. *)
Lemma bounce_pixels_miss sw scene iter (st : Loop) :
  loop_ok scene st →
  Forall (λ isect, fgtb (t isect) (lit 0) = false)
    (take (Z.to_nat (num_paths st)) (dev_intersections (trace_stage sw scene st))) →
  pixelIndex <$> dev_paths (mem (bounce sw scene iter st))
  ≡ₚ pixelIndex <$> dev_paths (mem st).
Proof.
  intros Hok Hmiss. pose proof Hok as [Hsized Hn].
  pose proof (trace_stage_sized sw scene st Hsized) as Hs1.
  pose proof (sort_stage_paths sw scene (num_paths st) _ Hs1) as [Hsp Hsd].
  pose proof (sort_stage_intersections sw scene (num_paths st) _ Hs1) as Hsi.
  rewrite <- Hsi in Hmiss.
  rewrite (bounce_shaded_perm sw scene iter st Hok).
  set (d2 := sort_stage sw (num_paths st) (trace_stage sw scene st)) in *.
  transitivity (pixelIndex <$> dev_paths d2).
  - replace (pixelIndex <$> dev_paths (shade_stage scene iter (num_paths st)
                                         (wrap32 (depth st + 1)) d2))
      with (pixelIndex <$> dev_paths d2); [done|].
    apply list_eq. intros i. rewrite !list_lookup_fmap.
    unfold shade_stage, shadeMaterial. cbn [dev_paths]. rewrite lookup_launch1d.
    destruct (dev_paths d2 !! i) as [p|]; [|done]. cbn. f_equal.
    case_bool_decide as Hi; [|done].
    destruct (dev_intersections d2 !! i) as [isect|] eqn:Hisect; [|done].
    assert (Ht : fgtb (t isect) (lit 0) = false).
    { rewrite Forall_lookup in Hmiss. apply (Hmiss i).
      rewrite lookup_take_lt by lia. done. }
    unfold shadeMaterial_thread. rewrite Ht. cbn [andb]. by case_bool_decide.
  - transitivity (pixelIndex <$> dev_paths (trace_stage sw scene st)).
    + apply fmap_Permutation. by eapply take_drop_perm.
    + unfold trace_stage, computeIntersections. cbn [dev_paths fst].
      by rewrite fmap_launch1d.
Qed.

(** X17: a scene with no primitive in [geoms] gives black.  For a trace
    depth of 1 or more, every thread of the first [computeIntersections]
    writes [t = -1], the first [shadeMaterial] sets every path to colour
    (0, 0, 0) with no bounce left, the loop ends in its first turn with
    [num_paths == 0], and [finalGather] adds (0, 0, 0) to every pixel.  The
    triangles, which are reached through a bounding-volume node of [geoms]
    only, are not tested. *)
Theorem empty_scene_black sw scene iter d :
  camera_ok (camera scene) → device_sized scene d → 1 <= traceDepth scene →
  geoms scene = [] → fgtb (lit (-1)) (lit 0) = false →
  ends_after sw scene iter (loop_entry scene iter d) 1 ∧
  ∀ fuel, (1 ≤ fuel)%nat →
    ∃ d', pathtrace sw scene iter fuel d = Some d' ∧
      Forall (λ p, color p = vsplat (lit 0) ∧ remainingBounces p = 0) (dev_paths d') ∧
      ∀ i : nat, Z.of_nat i < pixelcount scene →
        ∃ old, dev_image d !! i = Some old ∧
               dev_image d' !! i = Some (vadd old (vsplat (lit 0))).
Proof.
  intros Hcam Hsized Hdeep Hempty Hneg.
  pose proof (loop_entry_ok scene iter d Hcam Hsized) as Hok.
  destruct (loop_entry_paths scene iter d Hcam Hsized) as [Hseq Hgen].
  cbv zeta in Hseq, Hgen.
  set (entry := loop_entry scene iter d) in *.
  pose proof (trace_stage_empty sw scene entry Hempty Hok) as Hmiss.
  assert (Hn : num_paths entry = pixelcount scene) by done.
  assert (Hlen : length (dev_paths (mem entry)) = Z.to_nat (pixelcount scene)).
  { by destruct Hok as [(_ & -> & _) _]. }
  destruct (bounce_split_isect sw scene iter entry
              (λ p, remainingBounces p > 0)
              (λ p, color p = vsplat (lit 0) ∧ remainingBounces p = 0)
              (λ isect, t isect = lit (-1)) Hok)
    as (Hle & Halive & Hdead & _); [done|done| | |].
  { intros idx isect p Ht Hp. unfold shadeMaterial_thread.
    rewrite Ht, Hneg. cbn [andb]. by rewrite bool_decide_eq_true_2. }
  { apply Forall_take. eapply Forall_impl; [exact Hgen|]. cbn. lia. }
  cbv zeta in Hle, Halive, Hdead.
  set (last := bounce sw scene iter entry) in *.
  destruct (bounce_ok sw scene iter entry Hok) as [[Hsized' Hpos] _].
  fold last in Hsized', Hpos.
  assert (Hzero : num_paths last = 0).
  { destruct (decide (num_paths last = 0)) as [|Hne]; [done|]. exfalso.
    destruct (lookup_lt_is_Some_2
                (take (Z.to_nat (num_paths last)) (dev_paths (mem last))) 0) as [p Hp].
    { rewrite length_take. destruct Hsized' as (_ & -> & _). lia. }
    rewrite Forall_lookup in Halive. destruct (Halive _ _ Hp) as [[_ Hrb] Hlive]. lia. }
  assert (Hall : Forall (λ p, color p = vsplat (lit 0) ∧ remainingBounces p = 0)
                   (dev_paths (mem last))).
  { rewrite Hzero, Hn in Hdead. cbn [Z.to_nat drop] in Hdead.
    rewrite take_ge in Hdead by (destruct Hsized' as (_ & -> & _); lia).
    eapply Forall_impl; [exact Hdead|]. cbn. tauto. }
  assert (Hends : ends_after sw scene iter entry 1).
  { split; [lia|]. split; [|intros j Hj; lia].
    change (after_bounces sw scene iter 1 entry) with last.
    unfold iterationComplete. rewrite Hzero. by rewrite orb_true_r. }
  split; [done|]. intros fuel Hfuel.
  eexists. split; [by apply (pathtrace_run sw scene iter d 1)|].
  change (after_bounces sw scene iter 1 (loop_entry scene iter d)) with last.
  split; [done|]. intros i Hi.
  assert (Hperm : pixelIndex <$> dev_paths (mem last) ≡ₚ seqZ 0 (pixelcount scene)).
  { rewrite <- Hseq. apply bounce_pixels_miss; [done|].
    eapply Forall_impl; [exact Hmiss|]. cbn. by intros isect ->. }
  assert (Hin : Z.of_nat i ∈ pixelIndex <$> dev_paths (mem last)).
  { rewrite Hperm. apply elem_of_seqZ. lia. }
  apply list_elem_of_fmap in Hin as (p & Hp & Hin).
  destruct (lookup_lt_is_Some_2 (dev_image d) i) as [old Hold].
  { destruct Hsized as (-> & _). lia. }
  exists old. split; [done|].
  unfold gather, finalGather, complete. cbn [dev_image mem num_paths dev_paths].
  rewrite take_ge by (destruct Hsized' as (_ & -> & _); lia).
  replace i with (Z.to_nat (pixelIndex p)) at 1 by lia.
  rewrite gather_fold_pixel; [|by rewrite Hperm; apply NoDup_seqZ|done|lia].
  rewrite <- Hp, Nat2Z.id.
  unfold last. rewrite bounce_image. change (dev_image (mem entry)) with (dev_image d).
  rewrite Hold. cbn. do 2 f_equal.
  rewrite Forall_forall in Hall. by destruct (Hall p Hin) as [-> _].
Qed.

End EmptyScene.

(** [empty_scene_black] on a scene whose only primitive is a triangle
    that no bounding-volume node leads to. *)
Lemma empty_scene_black_witness :
  ∃ d', @pathtrace Z ZFloat toy source_switches toy_empty_scene 1 1 (toy_device 2) = Some d' ∧
        Forall (λ p, color p = Vec3 0 0 0 ∧ remainingBounces p = 0) (dev_paths d').
Proof.
  destruct (@empty_scene_black Z ZFloat toy source_switches toy_empty_scene 1 (toy_device 2))
    as (_ & Hrun).
  - vm_compute. repeat split; discriminate.
  - vm_compute. repeat split.
  - vm_compute. discriminate.
  - reflexivity.
  - reflexivity.
  - destruct (Hrun 1%nat (le_n 1)) as (d' & Hd' & Hall & _).
    exists d'. split; [exact Hd' | exact Hall].
Defined.

(** ** The shader that no launch uses *)

Section FakeShader.
Context {F : Type} `{FloatOps F} `{Externals F}.

(** X18: [shadeFakeMaterial] changes colours only.  It keeps the length of
    the array, the ray, the pixel index and the bounce count of every path
    (so no path ends under it), and the slots from [num_paths] on; and to a
    path with a bounce left that misses or hits a light it gives the colour
    that [shadeMaterial] gives it: black, or the colour times the material
    colour times the emittance. *)
Theorem shadeFakeMaterial_frame iter n (isects : list (ShadeableIntersection F))
    (paths : list (PathSegment F)) materials :
  let out := shadeFakeMaterial iter n isects paths materials in
  length out = length paths ∧
  (λ p, (ray p, pixelIndex p, remainingBounces p)) <$> out
  = (λ p, (ray p, pixelIndex p, remainingBounces p)) <$> paths ∧
  (∀ idx : nat, n <= Z.of_nat idx → out !! idx = paths !! idx) ∧
  (∀ (idx : nat) p isect depth,
     paths !! idx = Some p → isects !! idx = Some isect → Z.of_nat idx < n →
     remainingBounces p > 0 →
     fgtb (t isect) (lit 0) = false ∨
     fgtb (emittance (materials (materialId isect))) (lit 0) = true →
     ∃ p', out !! idx = Some p' ∧
           color p' = color (shadeMaterial_thread iter depth materials idx isect p)).
Proof.
  cbv zeta. unfold shadeFakeMaterial.
  split; [apply length_launch1d|]. split; [|split].
  - apply fmap_launch1d. intros i a.
    destruct (isects !! i) as [isect|]; [|done].
    unfold shadeFakeMaterial_thread. by repeat case_match.
  - intros idx Hidx. by apply lookup_launch1d_out.
  - intros idx p isect depth Hp Hisect Hidx Hrb Hcase.
    eexists. split.
    { erewrite lookup_launch1d_in by done. by rewrite Hisect. }
    unfold shadeFakeMaterial_thread, shadeMaterial_thread.
    rewrite (bool_decide_eq_true_2 _ Hrb).
    destruct (fgtb (t isect) (lit 0)) eqn:Ht; cbn [andb]; [|done].
    destruct Hcase as [|Hlight]; [done|]. by rewrite Hlight.
Qed.

End FakeShader.

(** ** The lens of [DOF] *)

Section Lens.
Context {F : Type} `{FloatOps F} `{Externals F} `{LensOps F}.
Implicit Types (cam : Camera F) (buf : list (PathSegment F)).

Lemma generateRay_segment_dof_idem cam iter td x y index (seg : PathSegment F) :
  generateRay_segment_dof cam iter td x y index
    (generateRay_segment_dof cam iter td x y index seg)
  = generateRay_segment_dof cam iter td x y index seg.
Proof.
  unfold generateRay_segment_dof.
  destruct (uniform_real_distribution _ _ (makeSeededRandomEngine iter x y)) as [xo r1].
  destruct (uniform_real_distribution _ _ r1) as [yo r2].
  destruct (fgtb (lit 1) (lit 0)); [|done].
  destruct (uniform_real_distribution _ _ r2) as [r r3].
  by destruct (uniform_real_distribution _ _ r3) as [theta r4].
Qed.

Lemma generateRayFromCamera_dof_on_length threads cam iter td buf :
  length (generateRayFromCamera_dof_on threads cam iter td buf) = length buf.
Proof.
  unfold generateRayFromCamera_dof_on. revert buf.
  induction threads as [|[x y] threads IH]; intros buf; cbn [foldl]; [done|].
  rewrite IH. unfold generateRay_thread_dof, zalter.
  repeat case_match; by rewrite ?length_alter.
Qed.

(** After the threads [threads] have run, in that order, the slot of pixel
    (x, y) holds what its own thread wrote, if that thread was among them. *)
Lemma generateRayFromCamera_dof_on_lookup threads cam iter td buf x y :
  camera_ok cam →
  Forall (λ xy, 0 <= xy.1 ∧ 0 <= xy.2) threads →
  0 <= x < ix (resolution cam) → 0 <= y < iy (resolution cam) →
  let slot := x + y * ix (resolution cam) in
  generateRayFromCamera_dof_on threads cam iter td buf !! Z.to_nat slot =
  (if bool_decide ((x, y) ∈ threads)
   then generateRay_segment_dof cam iter td x y slot else id) <$> buf !! Z.to_nat slot.
Proof.
  intros Hcam Hpos Hx Hy slot. unfold generateRayFromCamera_dof_on.
  induction threads as [|[a b] threads IH] using rev_ind.
  - rewrite bool_decide_eq_false_2 by apply not_elem_of_nil.
    cbn [foldl]. by destruct (buf !! _).
  - apply Forall_app in Hpos as [Hpos Hab].
    apply Forall_singleton in Hab as [Ha Hb]. simpl in Ha, Hb.
    rewrite foldl_app. cbn [foldl]. specialize (IH Hpos).
    set (prev := foldl (generateRay_thread_dof cam iter td) buf threads) in *.
    unfold generateRay_thread_dof.
    destruct (bool_decide (a < ix (resolution cam)) &&
              bool_decide (b < iy (resolution cam))) eqn:Hguard.
    + apply andb_prop in Hguard as [Ga Gb].
      apply bool_decide_eq_true_1 in Ga. apply bool_decide_eq_true_1 in Gb.
      destruct (pixel_slot_in_range cam a b Hcam) as [-> Hrange]; [lia..|].
      unfold zalter. rewrite bool_decide_eq_true_2 by lia.
      destruct (decide ((a, b) = (x, y))) as [Heq|Hne].
      * inversion Heq; subst a b. fold slot.
        rewrite list_lookup_alter_eq, IH.
        rewrite (bool_decide_eq_true_2 ((x, y) ∈ threads ++ [(x, y)]))
          by (apply elem_of_app; right; apply list_elem_of_singleton; done).
        destruct (buf !! Z.to_nat slot) as [seg|]; simpl; [|done].
        case_bool_decide; simpl; [|done].
        by rewrite generateRay_segment_dof_idem.
      * rewrite list_lookup_alter_ne.
        2:{ intros Hslot. apply Hne.
            apply Z2Nat.inj in Hslot; [|lia|unfold slot; nia].
            destruct (pixel_slot_inj cam a b x y) as [-> ->]; [lia..|done|done]. }
        rewrite IH. f_equal.
        rewrite (bool_decide_ext ((x, y) ∈ threads ++ [(a, b)]) ((x, y) ∈ threads)); [done|].
        rewrite elem_of_app, list_elem_of_singleton. intuition congruence.
    + rewrite IH. f_equal.
      rewrite (bool_decide_ext ((x, y) ∈ threads ++ [(a, b)]) ((x, y) ∈ threads)); [done|].
      rewrite elem_of_app, list_elem_of_singleton.
      split; [|tauto]. intros [Hin|Heq]; [done|].
      inversion Heq; subst a b.
      rewrite !bool_decide_eq_true_2 in Hguard by lia. done.
Qed.

(** The two builds of a thread, side by side. *)
Lemma generateRay_segment_dof_focus cam iter td x y index (old : PathSegment F) :
  fgtb (lit 1) (lit 0) = true →
  let p := generateRay_segment cam iter td x y index old in
  let q := generateRay_segment_dof cam iter td x y index old in
  (color q, pixelIndex q, remainingBounces q, intersect (ray q))
  = (color p, pixelIndex p, remainingBounces p, intersect (ray p)) ∧
  ∃ lensU lensV,
    origin (ray q)
    = vadd (origin (ray p)) (vadd (vscale (right cam) lensU) (vscale (up cam) lensV)) ∧
    direction (ray q)
    = normalize (vsub (vadd (vscale (direction (ray p)) (lit 8)) (origin (ray p)))
                      (origin (ray q))).
Proof.
  intros Hlens. cbv zeta. unfold generateRay_segment, generateRay_segment_dof.
  pose proof (jitter_draws iter x y) as Hj. cbv zeta in Hj. rewrite Hj.
  destruct (uniform_real_distribution _ _ (makeSeededRandomEngine iter x y)) as [xo r1].
  cbn [fst snd].
  destruct (uniform_real_distribution _ _ r1) as [yo r2]. cbn [fst snd].
  rewrite Hlens.
  destruct (uniform_real_distribution _ _ r2) as [r r3].
  destruct (uniform_real_distribution _ _ r3) as [theta r4].
  cbn [ray color pixelIndex remainingBounces origin direction intersect].
  split; [done|]. by eexists _, _.
Qed.

(** X19: what [DOF] changes in [generateRayFromCamera].  With the
    [#if DOF] block compiled in, every slot gets the colour, pixel index and
    bounce count it gets without it, and keeps its [ray.intersect]; the
    origin is the camera position moved in the plane of [cam.right] and
    [cam.up], and the direction is the normalised vector from there to the
    focus point, which lies 8 direction vectors along the ray the pixel gets
    without [DOF], jitter included.  This holds in whatever order the
    threads run. *)
Theorem generateRayFromCamera_dof_focus threads cam iter td buf :
  camera_ok cam → threads ≡ₚ grid2d cam →
  length buf = Z.to_nat (ix (resolution cam) * iy (resolution cam)) →
  fgtb (lit 1) (lit 0) = true →
  let out := generateRayFromCamera_dof_on threads cam iter td buf in
  let plain := generateRayFromCamera_on threads cam iter td buf in
  length out = length buf ∧
  ∀ i : nat, Z.of_nat i < ix (resolution cam) * iy (resolution cam) →
    ∃ p q lensU lensV,
      plain !! i = Some p ∧ out !! i = Some q ∧
      (color q, pixelIndex q, remainingBounces q, intersect (ray q))
      = (color p, pixelIndex p, remainingBounces p, intersect (ray p)) ∧
      origin (ray p) = position cam ∧
      origin (ray q)
      = vadd (position cam) (vadd (vscale (right cam) lensU) (vscale (up cam) lensV)) ∧
      direction (ray q)
      = normalize (vsub (vadd (vscale (direction (ray p)) (lit 8)) (position cam))
                        (origin (ray q))).
Proof.
  intros Hcam Hperm Hlen Hlens out plain.
  split; [apply generateRayFromCamera_dof_on_length|].
  intros i Hi.
  destruct (slot_pixel cam i Hcam Hi) as (Hx & Hy & Hback).
  destruct (generateRayFromCamera_slot threads cam iter td buf _ _
              Hcam Hperm Hlen Hx Hy) as (old & Hold & Hplain).
  assert (Hpos : Forall (λ xy, 0 <= xy.1 ∧ 0 <= xy.2) threads)
    by (rewrite Hperm; apply grid2d_nonneg).
  pose proof (generateRayFromCamera_dof_on_lookup threads cam iter td buf _ _
                Hcam Hpos Hx Hy) as Hout.
  cbv zeta in Hout.
  rewrite bool_decide_eq_true_2 in Hout by (rewrite Hperm; by apply grid2d_covers).
  rewrite Hold in Hout. cbn [fmap option_fmap option_map] in Hout.
  rewrite Hback in Hplain, Hout.
  set (slot := Z.of_nat i mod ix (resolution cam)
               + Z.of_nat i / ix (resolution cam) * ix (resolution cam)) in *.
  destruct (generateRay_segment_dof_focus cam iter td
              (Z.of_nat i mod ix (resolution cam)) (Z.of_nat i / ix (resolution cam))
              slot old Hlens) as (Hsame & lensU & lensV & Horigin & Hdir).
  assert (Hcampos : origin (ray (generateRay_segment cam iter td
                       (Z.of_nat i mod ix (resolution cam))
                       (Z.of_nat i / ix (resolution cam)) slot old)) = position cam).
  { unfold generateRay_segment. by destruct (jitter _ _ _). }
  rewrite Hcampos in Horigin, Hdir.
  eexists _, _, lensU, lensV.
  split; [exact Hplain|]. split; [exact Hout|]. done.
Qed.

End Lens.

(** [generateRayFromCamera_dof_focus] on a 2 x 1 camera: the path of
    slot 1 has pixel index 1. *)
Lemma generateRayFromCamera_dof_focus_witness :
  ∃ q, @generateRayFromCamera_dof_on Z ZFloat toy ZLens (grid2d (toy_camera 2 1))
         (toy_camera 2 1) 1 3 [toy_segment 7 0; toy_segment 7 0] !! 1%nat = Some q ∧
       pixelIndex q = 1.
Proof.
  destruct (@generateRayFromCamera_dof_focus Z ZFloat toy ZLens (grid2d (toy_camera 2 1))
              (toy_camera 2 1) 1 3 [toy_segment 7 0; toy_segment 7 0]) as (_ & Hslot).
  - vm_compute. repeat split; discriminate.
  - reflexivity.
  - reflexivity.
  - reflexivity.
  - destruct (Hslot 1%nat) as (p & q & _ & _ & Hp & Hq & Hsame & _); [reflexivity|].
    exists q. split; [exact Hq|].
    apply (f_equal (λ w : vec3 Z * Z * Z * vec3 Z, w.1.1.2)) in Hsame. cbn in Hsame.
    rewrite Hsame. vm_compute in Hp. injection Hp as <-. reflexivity.
Defined.

(** ** An iteration and its display *)

Section DisplayedIteration.
Context {F : Type} `{FloatOps F} `{Externals F} `{DisplayOps F}.

(** What a call leaves in the image, on buffers of the sizes
    [pathtraceInit] gives. *)
Lemma pathtrace_ready_image sw scene iter d :
  camera_ok (camera scene) → buffers_ready sw scene d → int_range (traceDepth scene) →
  scatterRay_keeps_pixelIndex →
  ∃ K : nat, Z.of_nat K <= Z.max 1 (traceDepth scene) ∧
    ∀ fuel, (K ≤ fuel)%nat →
      ∃ d', pathtrace sw scene iter fuel d = Some d' ∧
        length (dev_image d') = Z.to_nat (pixelcount scene) ∧
        ∀ i : nat, Z.of_nat i < pixelcount scene →
          ∃ p old, p ∈ dev_paths d' ∧ pixelIndex p = Z.of_nat i ∧
                   dev_image d !! i = Some old ∧
                   dev_image d' !! i = Some (vadd old (color p)).
Proof.
  intros Hcam Hready Hrange Hpx.
  destruct (buffers_ready_sized sw scene d Hready) as (dS & Hsized & Hd & Hsame).
  destruct (loop_ends sw scene iter dS Hcam Hsized Hrange) as (K & Hends & Hmax).
  exists K. split; [done|]. intros fuel Hfuel.
  pose proof (pathtrace_run sw scene iter dS K fuel Hends Hfuel) as Hrun.
  set (final := complete scene (after_bounces sw scene iter K (loop_entry scene iter dS)))
    in *.
  assert (Himg : dev_image dS = dev_image d) by (by rewrite Hd).
  pose proof (loop_entry_ok scene iter dS Hcam Hsized) as Hok.
  pose proof (after_bounces_ok sw scene iter K _ Hok) as [HsK _].
  pose proof (gather_sized scene _ HsK) as (Hlen & _). fold final in Hlen.
  assert (Hpixels : ∀ i : nat, Z.of_nat i < pixelcount scene →
            ∃ p old, p ∈ dev_paths (gather final) ∧ pixelIndex p = Z.of_nat i ∧
                     dev_image d !! i = Some old ∧
                     dev_image (gather final) !! i = Some (vadd old (color p))).
  { intros i Hi.
    destruct (final_paths sw scene iter dS K Hcam Hsized Hpx) as (_ & Hperm & _).
    assert (Hin : Z.of_nat i ∈ pixelIndex <$> dev_paths (mem final)).
    { unfold final, complete. cbn [mem]. rewrite Hperm. apply elem_of_seqZ. lia. }
    apply list_elem_of_fmap in Hin as (p & Hp & Hin).
    destruct (gather_final sw scene iter dS K p Hcam Hsized Hpx Hin)
      as (_ & old & Hold & Hnew).
    rewrite <- Hp, Nat2Z.id in Hold, Hnew. rewrite Himg in Hold.
    exists p, old. done. }
  destruct (MATERIALS sw) eqn:Hsw.
  - rewrite <- (Hsame eq_refl) in *. exists (gather final). done.
  - exists (with_ids (dev_isect_ids d) (dev_ps_ids d) (gather final)). split.
    { replace (pathtrace sw scene iter fuel d)
        with (pathtrace sw scene iter fuel (with_ids (dev_isect_ids d) (dev_ps_ids d) dS))
        by (by rewrite <- Hd).
      by rewrite pathtrace_with_ids, Hrun. }
    split; [exact Hlen | exact Hpixels].
Qed.

(** X20: the display buffer shows the image as this iteration leaves it.
    A call of [pathtrace] returns, and for every pixel the image holds what
    it held plus the colour of the pixel's path, while the display buffer
    holds the bytes [clamp((int) (c / iter * 255.0), 0, 255)] of the
    channels of that sum, with [w = 0]: [sendImageToPBO] runs after
    [finalGather], on its result. *)
Theorem pathtrace_display_shows sw scene iter d pbo :
  camera_ok (camera scene) → buffers_ready sw scene d → int_range (traceDepth scene) →
  scatterRay_keeps_pixelIndex →
  (Z.to_nat (pixelcount scene) ≤ length pbo)%nat →
  ∃ K : nat, Z.of_nat K <= Z.max 1 (traceDepth scene) ∧
    ∀ fuel, (K ≤ fuel)%nat →
      ∃ d' pbo',
        pathtrace_display sw scene iter fuel d pbo = Some (d', pbo') ∧
        length pbo' = length pbo ∧
        ∀ i : nat, Z.of_nat i < pixelcount scene →
          ∃ p old, p ∈ dev_paths d' ∧ pixelIndex p = Z.of_nat i ∧
            dev_image d !! i = Some old ∧
            dev_image d' !! i = Some (vadd old (color p)) ∧
            pbo' !! i = Some {| c_x := display_channel iter (vx (vadd old (color p)));
                                c_y := display_channel iter (vy (vadd old (color p)));
                                c_z := display_channel iter (vz (vadd old (color p)));
                                c_w := 0 |}.
Proof.
  intros Hcam Hready Hrange Hpx Hpbo.
  destruct (pathtrace_ready_image sw scene iter d Hcam Hready Hrange Hpx)
    as (K & HK & Hrun).
  exists K. split; [done|]. intros fuel Hfuel.
  destruct (Hrun fuel Hfuel) as (d' & Hd' & Hlen & Hpixels).
  destruct (pixelcount_ok scene Hcam) as [Hpc _].
  destruct (sendImageToPBO_on_pixels (grid2d (camera scene)) (camera scene) iter
              (dev_image d') pbo Hcam) as (Hlen' & Hbytes & _);
    [done|rewrite <- Hpc; lia|rewrite <- Hpc; lia|].
  eexists d', _. split.
  { unfold pathtrace_display. by rewrite Hd'. }
  split; [exact Hlen'|]. intros i Hi.
  destruct (Hpixels i Hi) as (p & old & Hin & Hp & Hold & Hnew).
  destruct (Hbytes i ltac:(lia)) as (pix & Hpix & Hout & _).
  rewrite Hnew in Hpix. injection Hpix as <-.
  exists p, old. done.
Qed.

End DisplayedIteration.

(** [pathtrace_display_shows] on the small scene at trace depth 1 and
    iteration 1: the grey sphere gives both pixels the colour (2, 2, 2),
    shown as 255. *)
Lemma pathtrace_display_shows_witness :
  ∃ d' pbo',
    @pathtrace_display Z ZFloat toy ZDisplay source_switches (toy_scene 1) 1 1
      (device (@pathtraceInit Z ZFloat toy source_switches (toy_scene 1) toy_fresh))
      [mkUchar4 9 9 9 9; mkUchar4 9 9 9 9] = Some (d', pbo') ∧
    pbo' !! 0%nat = Some (mkUchar4 255 255 255 0).
Proof.
  destruct (@pathtrace_display_shows Z ZFloat toy ZDisplay source_switches (toy_scene 1) 1
              (device (@pathtraceInit Z ZFloat toy source_switches (toy_scene 1) toy_fresh))
              [mkUchar4 9 9 9 9; mkUchar4 9 9 9 9]) as (K & HK & Hrun).
  - vm_compute. repeat split; discriminate.
  - vm_compute. repeat split; easy.
  - vm_compute. split; discriminate.
  - intros seg i n m rng. reflexivity.
  - vm_compute. lia.
  - assert (HK1 : (K ≤ 1)%nat) by (cbn in HK; lia).
    destruct (Hrun 1%nat HK1) as (d' & pbo' & Hd' & _ & Hpix).
    exists d', pbo'. split; [exact Hd'|].
    destruct (Hpix 0%nat) as (p & old & _ & _ & Hold & Hnew & Hbyte); [reflexivity|].
    vm_compute in Hd'. injection Hd' as <- <-. reflexivity.
Defined.

(** ** The nearest hit, on the code *)

Section NearestOnCode.
Context {F : Type} `{FloatOps F} `{Externals F}.
Implicit Types (st : @IsectLocals F) (geoms triangles : list (Geom Shape)).

(** From a state in which the test after the branches fails, any number
    of turns of the loop over the primitives are steps of the rule. *)
Lemma geom_steps_nearest_hit sw r triangles igs st :
  flt_irreflexive → settled st →
  foldl (geom_step sw r triangles) st igs = foldl (nearest_hit_step sw r triangles) st igs.
Proof.
  intros Hirr. revert st. induction igs as [|ig igs IH]; intros st Hst; [done|].
  cbn [foldl].
  destruct (geom_step_nearest_hit sw r triangles st ig Hirr Hst) as [Heq Hnext].
  rewrite <- Heq. by apply IH.
Qed.

Lemma isect_init_settled u (seg : PathSegment F) :
  uninit_harmless u → settled (isect_init u seg).
Proof.
  intros Hu. unfold settled, closer, isect_init. cbn.
  unfold uninit_harmless in Hu. by rewrite Hu.
Qed.

(** X21: the distance [computeIntersections] records is the nearest of
    the candidates, provided [<] on [float] is irreflexive and transitive
    and what the uninitialised [t] holds would not pass for a hit.  No
    sphere or box that the loop tests while no triangle is the recorded hit,
    and no triangle tested behind a bounding-volume node whose gate passes
    (or with [BOUNDINGVOLUME] off), returns a positive distance below the
    [t_min] the thread ends with. *)
Theorem computeIntersections_nearest sw geoms triangles u (seg : PathSegment F)
    igs1 (i : nat) g igs2 :
  flt_irreflexive → flt_transitive → uninit_harmless u →
  imap pair geoms = igs1 ++ (i, g) :: igs2 →
  let r := ray seg in
  let st := foldl (geom_step sw r triangles) (isect_init u seg) igs1 in
  let final := computeIntersections_thread sw geoms triangles u seg in
  (l_hitmesh st = false →
   (type g = CUBE →
    fgtb (boxIntersectionTest g r (l_out st)).1 (lit 0) = true →
    fltb (boxIntersectionTest g r (l_out st)).1 (l_t_min final) = false) ∧
   (type g = SPHERE →
    fgtb (sphereIntersectionTest g r (l_out st)).1 (lit 0) = true →
    fltb (sphereIntersectionTest g r (l_out st)).1 (l_t_min final) = false)) ∧
  (type g = BV →
   (BOUNDINGVOLUME sw = true → boundingVolumeIntersectionTest g r = true) →
   ∀ pgs1 (p : nat) tri pgs2,
     imap pair triangles = pgs1 ++ (p, tri) :: pgs2 →
     let stp := foldl (triangle_step r) st pgs1 in
     fgtb (triangleIntersectionTest tri r (l_out stp)).1 (lit 0) = true →
     fltb (triangleIntersectionTest tri r (l_out stp)).1 (l_t_min final) = false).
Proof.
  intros Hirr Htrans Hu Hsplit r st final.
  pose proof (isect_init_settled u seg Hu) as Hinit.
  assert (Hst : st = foldl (nearest_hit_step sw r triangles) (isect_init u seg) igs1).
  { by apply geom_steps_nearest_hit. }
  assert (Hfinal : final = foldl (nearest_hit_step sw r triangles) (isect_init u seg)
                             (igs1 ++ (i, g) :: igs2)).
  { unfold final, computeIntersections_thread, geom_scan. rewrite Hsplit.
    by apply geom_steps_nearest_hit. }
  split.
  - intros Hmesh. rewrite Hfinal, Hst in *.
    by apply (nearest_hit_scan_analytic sw r triangles igs1 i g igs2).
  - intros Hty Hgate pgs1 p tri pgs2 Htris stp Hpos.
    unfold stp in *. rewrite Hfinal, Hst in *.
    by apply (nearest_hit_scan_triangle sw r triangles igs1 i g igs2 _ pgs1 p tri pgs2).
Qed.

End NearestOnCode.

Lemma ZFloat_lt_irreflexive : @flt_irreflexive Z ZFloat.
Proof. intros a. apply Z.ltb_irrefl. Qed.

Lemma ZFloat_lt_transitive : @flt_transitive Z ZFloat.
Proof.
  intros a b c Hab Hbc. cbn in *. apply Z.ltb_lt. apply Z.ltb_lt in Hab, Hbc. lia.
Qed.

(** [computeIntersections_nearest] with the stand-ins: of two spheres, at
    distances 3 and 2, the second is not nearer than the distance the thread
    ends with. *)
Lemma computeIntersections_nearest_witness :
  let geoms := [mkGeom SPHERE 1 3; mkGeom SPHERE 1 2] in
  let final := @computeIntersections_thread Z ZFloat toy source_switches geoms []
                 (@uninit_locals Z toy 0 0%nat) (toy_segment 0 1) in
  (2 <? l_t_min final) = false.
Proof.
  intros geoms final.
  destruct (@computeIntersections_nearest Z ZFloat toy source_switches geoms []
              (@uninit_locals Z toy 0 0%nat) (toy_segment 0 1)
              [(0%nat, mkGeom SPHERE 1 3)] 1 (mkGeom SPHERE 1 2) [])
    as [Hanalytic _].
  - apply ZFloat_lt_irreflexive.
  - apply ZFloat_lt_transitive.
  - reflexivity.
  - reflexivity.
  - destruct Hanalytic as [_ Hsphere]; [reflexivity|].
    apply Hsphere; reflexivity.
Defined.

(** ** The gather and the active set *)

Section GatherAndShrink.
Context {F : Type} `{FloatOps F} `{Externals F}.

(** X22: [finalGather] keeps the length of the image and changes no pixel
    that none of the first [nPaths] paths names; the paths from [nPaths] on
    add nothing, and with [nPaths <= 0] the image is left as it is. *)
Theorem finalGather_frame nPaths (image : list (vec3 F)) (paths : list (PathSegment F)) :
  let out := finalGather nPaths image paths in
  length out = length image ∧
  (∀ i : nat, Z.of_nat i ∉ pixelIndex <$> take (Z.to_nat nPaths) paths →
     out !! i = image !! i) ∧
  (nPaths <= 0 → out = image).
Proof.
  cbv zeta. unfold finalGather. split; [apply gather_fold_length|]. split.
  - intros i Hi. by apply gather_fold_other.
  - intros Hn. by replace (Z.to_nat nPaths) with 0%nat by lia.
Qed.

(** X23: the active set only shrinks.  Over the turns of the loop
    [num_paths] never grows and stays between 0 and the pixel count; the
    slots from the [num_paths] of a turn on are not written in later turns;
    the array of paths keeps its length; and the image is not written before
    [finalGather]. *)
Theorem active_paths_shrink sw scene iter d (k m : nat) :
  camera_ok (camera scene) → device_sized scene d → (k ≤ m)%nat →
  let after := λ j, after_bounces sw scene iter j (loop_entry scene iter d) in
  0 <= num_paths (after m) ∧ num_paths (after m) <= num_paths (after k) ∧
  num_paths (after k) <= pixelcount scene ∧
  drop (Z.to_nat (num_paths (after k))) (dev_paths (mem (after m)))
  = drop (Z.to_nat (num_paths (after k))) (dev_paths (mem (after k))) ∧
  length (dev_paths (mem (after m))) = Z.to_nat (pixelcount scene) ∧
  dev_image (mem (after m)) = dev_image d.
Proof.
  intros Hcam Hsized Hkm after.
  pose proof (loop_entry_ok scene iter d Hcam Hsized) as Hok.
  pose proof (after_bounces_ok sw scene iter m _ Hok) as [(_ & Hlen & _) Hm].
  pose proof (after_bounces_ok sw scene iter k _ Hok) as [_ Hk].
  split; [unfold after; lia|]. split; [by apply after_bounces_num_paths|].
  split; [unfold after; lia|]. split; [by apply after_bounces_tail|].
  split; [done|]. unfold after. by rewrite after_bounces_image.
Qed.

End GatherAndShrink.

(** [active_paths_shrink] on the small scene at trace depth 3. *)
Lemma active_paths_shrink_witness :
  num_paths (@after_bounces Z ZFloat toy source_switches (toy_scene 3) 1 3
               (@loop_entry Z ZFloat toy (toy_scene 3) 1 (toy_device 2)))
  <= num_paths (@after_bounces Z ZFloat toy source_switches (toy_scene 3) 1 1
                  (@loop_entry Z ZFloat toy (toy_scene 3) 1 (toy_device 2))).
Proof.
  destruct (@active_paths_shrink Z ZFloat toy source_switches (toy_scene 3) 1 (toy_device 2)
              1 3) as (_ & Hle & _).
  - vm_compute. repeat split; discriminate.
  - vm_compute. repeat split.
  - lia.
  - exact Hle.
Defined.
